(** * backy2: block-transfer core (file IO engine and S3 data backend)

    A shallow embedding of [src/backy2/io/file.py] and
    [src/backy2/data_backends/s3.py].

    Conventions of the embedding:
    - Python integers are [Z]; byte strings ([bytes]) are [list Byte.byte];
      text is [string].
    - A call either returns, raises, or waits on a queue: see [outcome].
    - Exceptions are the constructors of [exn].
    - Dictionaries with string keys are [gmap string _].
    - [logger.debug] lines are not modelled; [logger.error] lines are kept
      where a property speaks about them ([S3.read_raw]). *)

From Stdlib Require Import ZArith Lia Ascii String List.
From stdpp Require Import base option list gmap strings relations.

Local Open Scope string_scope.
Local Open Scope list_scope.
Local Open Scope Z_scope.

(** ** Python values shared by both modules *)

Abbreviation bytes := (list Byte.byte).

(** The exceptions the two source files raise or let through. *)
Inductive exn : Type :=
| RuntimeError (msg : string)
| FileNotFoundError (msg : string)
| NameError (name : string)
| TypeError (msg : string)
| ClientError (code : string)      (* botocore: e.response['Error']['Code'] *)
| SocketTimeout                    (* socket.timeout *)
| OSError (msg : string)
| SystemExit (msg : string)        (* raised by the builtin exit(msg) *)
| AssertionError.

(** [len(b)] for a byte string. *)
Definition len (b : bytes) : Z := Z.of_nat (length b).

(** [Block]: the descriptor handed in by the upper layer.  The engines
    only read [id], [uid] and [valid]. *)
Record Block : Type := mkBlock {
  id : Z;
  uid : string;
  valid : bool
}.

(** [queue.Queue(maxsize)]: a FIFO with the counter behind [task_done] and
    [join]; [maxsize <= 0] means unbounded. *)
Record Queue (A : Type) : Type := mkQueue {
  maxsize : Z;
  items : list A;
  unfinished_tasks : nat
}.
Arguments mkQueue {A} _ _ _.
Arguments maxsize {A} _.
Arguments items {A} _.
Arguments unfinished_tasks {A} _.

(** [Queue(maxsize)]. *)
Definition new_queue {A} (maxsize : Z) : Queue A := mkQueue maxsize [] 0.

(** Whether [put] can proceed without waiting. *)
Definition has_room {A} (q : Queue A) : bool :=
  (maxsize q <=? 0) || (Z.of_nat (length (items q)) <? maxsize q).

(** The effect of [put(x)] once there is room. *)
Definition enqueue {A} (x : A) (q : Queue A) : Queue A :=
  mkQueue (maxsize q) (items q ++ [x]) (S (unfinished_tasks q)).

(** The queue a [get()] leaves behind, given what remains. *)
Definition dequeued {A} (rest : list A) (q : Queue A) : Queue A :=
  mkQueue (maxsize q) rest (unfinished_tasks q).

(** [task_done()]. *)
Definition task_done {A} (q : Queue A) : Queue A :=
  mkQueue (maxsize q) (items q) (pred (unfinished_tasks q)).

(** ** The file IO engine, [backy2/io/file.py] *)
Module FileIO.

Definition WRITE_QUEUE_LENGTH : Z := 20.
Definition READ_QUEUE_LENGTH : Z := 20.

(** A regular file opened ['rb']: [seek(offset)] followed by [read(size)].
    A negative offset makes [seek] fail; a negative size reads to the end of
    the file; otherwise [read] returns the bytes that exist in
    [offset, offset+size), fewer than [size] only at the end of the file. *)
Definition file_seek (offset : Z) : option exn :=
  if offset <? 0 then Some (OSError "[Errno 22] Invalid argument") else None.

Definition file_read (content : bytes) (offset size : Z) : bytes :=
  let rest := drop (Z.to_nat offset) content in
  if size <? 0 then rest else take (Z.to_nat size) rest.

(** What one iteration of the reader loop does with a dequeued block. *)
Inductive job_result : Type :=
| Completed (block : Block) (data : bytes) (data_checksum : string)
| Failed (e : exn).

Section Reader.
(** [self.hash_function(data).hexdigest()], opaque to the engine. *)
Variable hash_hexdigest : bytes → string.
Variable block_size : Z.
(** Content of the source file [self.io_name]. *)
Variable source_file : bytes.

(** Body of the [while True] loop of [IO._reader] for a block that is not
    the sentinel, up to the value handed to [self._outqueue.put]. *)
Definition _reader_job (block : Block) : job_result :=
  let offset := id block * block_size in
  match file_seek offset with
  | Some e => Failed e
  | None =>
      let data := file_read source_file offset block_size in
      match data with
      | [] => Failed (RuntimeError "EOF reached on source when there should be data.")
      | _ :: _ =>
          let data_checksum := hash_hexdigest data in
          Completed block data data_checksum
      end
  end.
End Reader.

(** *** Configuration, queues and the engine object *)

(** [config.getint(name, default)]. *)
Definition getint (config : gmap string Z) (name : string) (dflt : Z) : Z :=
  default dflt (config !! name).

Definition STATUS_NOTHING : Z := 0.
Definition STATUS_READING : Z := 1.
Definition STATUS_WRITING : Z := 2.
Definition STATUS_SEEKING : Z := 3.
Definition STATUS_FADVISE : Z := 4.

(** The attributes of an [IO] instance that [__init__] and [open_w] set. *)
Record IO : Type := mkIO {
  simultaneous_reads : Z;
  simultaneous_writes : Z;
  block_size : Z;
  mode : option string;
  io_name : option string;
  _write_file : option string;          (* path of the handle opened 'rb+' *)
  _write_queue : option (Queue (option (Block * bytes)));
  _writer_threads : list Z;             (* args=(i,) of each started thread *)
  writer_thread_status : gmap Z Z
}.

(** [IO.__init__(config, block_size, hash_function)]. *)
Definition __init__ (config : gmap string Z) (block_size : Z) : IO :=
  {| simultaneous_reads := getint config "simultaneous_reads" 1;
     simultaneous_writes := getint config "simultaneous_reads" 1;
     block_size := block_size;
     mode := None;
     io_name := None;
     _write_file := None;
     _write_queue := None;
     _writer_threads := [];
     writer_thread_status := ∅ |}.

(** *** [re.match('^file://(.+)$', io_name)] *)

Definition newline : ascii := ascii_of_nat 10.

Fixpoint strip_prefix (p s : string) : option string :=
  match p, s with
  | EmptyString, _ => Some s
  | String a p', String b s' => if Ascii.eqb a b then strip_prefix p' s' else None
  | String _ _, EmptyString => None
  end.

(** The longest prefix without a newline, and what follows it. *)
Fixpoint span_line (s : string) : string * string :=
  match s with
  | EmptyString => (EmptyString, EmptyString)
  | String a s' =>
      if Ascii.eqb a newline then (EmptyString, s)
      else let '(l, r) := span_line s' in (String a l, r)
  end.

(** [.] matches any character but a newline, [+] is greedy, and [$] matches
    at the end of the string or before a newline that ends it.  The result
    is [_s.groups()[0]]. *)
Definition match_file_uri (name : string) : option string :=
  match strip_prefix "file://" name with
  | None => None
  | Some rest =>
      let '(path, tail) := span_line rest in
      match path with
      | EmptyString => None
      | String _ _ =>
          if String.eqb tail EmptyString || String.eqb tail (String newline EmptyString)
          then Some path else None
      end
  end.

Definition not_a_valid_io_name (name : string) : exn :=
  RuntimeError ("Not a valid io name: " ++ name
                ++ " . Need a file path, e.g. file:///somepath/file").

(** *** The file system seen by [open_w] *)

(** Regular files by path. [os.path.exists(p)] is [is_Some (fs !! p)]. *)
Abbreviation filesystem := (gmap string bytes).

(** [f.seek(offset); f.write(data)] on a file with the given content: a gap
    between the end of the file and [offset] reads as zero bytes. *)
Definition file_write (content : bytes) (offset : Z) (data : bytes) : bytes :=
  let o := Z.to_nat offset in
  take o content ++ replicate (o - length content)%nat Byte.x00
    ++ data ++ drop (o + length data)%nat content.

(** [IO.size()]: the length of the file at [self.io_name]. *)
Definition size (content : bytes) : Z := len content.

(** A call of a method of [IO]: it returns or raises, and leaves the engine
    and the file system in some state either way. *)
Inductive outcome : Type :=
| Returned (self : IO) (fs : filesystem)
| Raised (e : exn) (self : IO) (fs : filesystem).

Definition set_mode (m : string) (self : IO) : IO :=
  {| simultaneous_reads := simultaneous_reads self;
     simultaneous_writes := simultaneous_writes self;
     block_size := block_size self;
     mode := Some m;
     io_name := io_name self;
     _write_file := _write_file self;
     _write_queue := _write_queue self;
     _writer_threads := _writer_threads self;
     writer_thread_status := writer_thread_status self |}.

Definition set_io_name (p : string) (self : IO) : IO :=
  {| simultaneous_reads := simultaneous_reads self;
     simultaneous_writes := simultaneous_writes self;
     block_size := block_size self;
     mode := mode self;
     io_name := Some p;
     _write_file := _write_file self;
     _write_queue := _write_queue self;
     _writer_threads := _writer_threads self;
     writer_thread_status := writer_thread_status self |}.

(** One pass of the [for i in range(self.simultaneous_writes)] loop. *)
Definition start_writer (self : IO) (i : Z) : IO :=
  {| simultaneous_reads := simultaneous_reads self;
     simultaneous_writes := simultaneous_writes self;
     block_size := block_size self;
     mode := mode self;
     io_name := io_name self;
     _write_file := _write_file self;
     _write_queue := _write_queue self;
     _writer_threads := _writer_threads self ++ [i];
     writer_thread_status := <[i := STATUS_NOTHING]> (writer_thread_status self) |}.

(** The tail of [open_w], from [self._write_file = open(...)] on. *)
Definition open_w_start (path : string) (self : IO) : IO :=
  let self :=
    {| simultaneous_reads := simultaneous_reads self;
       simultaneous_writes := simultaneous_writes self;
       block_size := block_size self;
       mode := mode self;
       io_name := io_name self;
       _write_file := Some path;
       _write_queue := Some (new_queue (simultaneous_writes self + WRITE_QUEUE_LENGTH));
       _writer_threads := _writer_threads self;
       writer_thread_status := writer_thread_status self |} in
  foldl start_writer self (seqZ 0 (simultaneous_writes self)).

(** [IO.open_w(io_name, size=None, force=False)]. *)
Definition open_w (name : string) (size_ : option Z) (force : bool)
    (self : IO) (fs : filesystem) : outcome :=
  let self := set_mode "w" self in
  match match_file_uri name with
  | None => Raised (not_a_valid_io_name name) self fs
  | Some path =>
      let self := set_io_name path self in
      match fs !! path with
      | Some content =>
          if negb force then
            Raised (SystemExit "Error opening restore target. You must force the restore.") self fs
          else
            match size_ with
            | None => Raised (TypeError "'<' not supported between instances of 'int' and 'NoneType'") self fs
            | Some sz =>
                if size content <? sz then
                  Raised (SystemExit "Error opening restore target.") self fs
                else Returned (open_w_start path self) fs
            end
      | None =>
          (* open(self.io_name, 'wb') creates the file, empty *)
          let fs := <[path := []]> fs in
          match size_ with
          | None => Raised (TypeError "unsupported operand type(s) for -: 'NoneType' and 'int'") self fs
          | Some sz =>
              match file_seek (sz - 1) with
              | Some e => Raised e self fs
              | None =>
                  let fs := <[path := file_write [] (sz - 1) [Byte.x00]]> fs in
                  Returned (open_w_start path self) fs
              end
          end
      end
  end.

(** *** The read pipeline: caller, reader threads and consumer

    The threads of an engine opened with [open_r] interleave; each queue
    operation is one atomic step.  Between its [get] and its [put] a reader
    touches only its own file handle, so seeking, reading and hashing are
    folded into the step that dequeues the block. *)

Definition result : Type := Block * bytes * string.

(** Where a reader thread stands in [IO._reader]. *)
Inductive reader_pc : Type :=
| AtGet                           (* at  block = self._inqueue.get()  *)
| AtPut (item : option result)    (* at  self._outqueue.put(item)     *)
| Finished                        (* left the loop through [break]    *)
| Died (e : exn).                 (* an uncaught exception ended it   *)

(** Where the thread that drives the engine stands: it calls
    [read(block)] for each job, then [close()]. *)
Inductive caller_pc : Type :=
| Submitting (jobs : list Block)
| ClosePut (k : nat)              (* first loop of close(): k puts to go  *)
| CloseJoin (i : nat)             (* second loop of close(): joining i    *)
| Closed.

Record pipeline : Type := mkPipeline {
  _inqueue : list (option Block);         (* queue.Queue(): unbounded *)
  _outqueue : list (option result);
  _reader_threads : list reader_pc;
  caller : caller_pc;
  consumed : list (option result)         (* what get() has returned so far *)
}.

Definition terminated (pc : reader_pc) : bool :=
  match pc with Finished | Died _ => true | _ => false end.

Section Pipeline.
Variable hash_hexdigest : bytes → string.
Variable self : IO.
Variable source_file : bytes.

(** [range(self.simultaneous_reads)] has this many elements. *)
Definition reader_count : nat := Z.to_nat (simultaneous_reads self).

Definition outqueue_has_room (q : list (option result)) : bool :=
  has_room (mkQueue (simultaneous_reads self + READ_QUEUE_LENGTH) q 0).

(** The state [open_r] leaves, with the jobs the caller is about to submit. *)
Definition opened_r (jobs : list Block) : pipeline :=
  {| _inqueue := [];
     _outqueue := [];
     _reader_threads := replicate reader_count AtGet;
     caller := Submitting jobs;
     consumed := [] |}.

(** What a reader holds after dequeuing a block and running the loop body
    up to the [put]. *)
Definition after_get (entry : option Block) : reader_pc :=
  match entry with
  | None => AtPut None
  | Some block =>
      match _reader_job hash_hexdigest (block_size self) source_file block with
      | Completed b data data_checksum => AtPut (Some (b, data, data_checksum))
      | Failed e => Died e
      end
  end.

(** What a reader does after its [put] returned. *)
Definition after_put (item : option result) : reader_pc :=
  match item with
  | None => Finished
  | Some _ => AtGet
  end.

Inductive step : pipeline → pipeline → Prop :=
| step_read block jobs inq outq rs got :
    (* IO.read(block): self._inqueue.put(block) *)
    step (mkPipeline inq outq rs (Submitting (block :: jobs)) got)
         (mkPipeline (inq ++ [Some block]) outq rs (Submitting jobs) got)
| step_close inq outq rs got :
    (* the caller enters close(); mode is 'r' *)
    step (mkPipeline inq outq rs (Submitting []) got)
         (mkPipeline inq outq rs (ClosePut (length rs)) got)
| step_close_put k inq outq rs got :
    (* self._inqueue.put(None) *)
    step (mkPipeline inq outq rs (ClosePut (S k)) got)
         (mkPipeline (inq ++ [None]) outq rs (ClosePut k) got)
| step_close_join_begin inq outq rs got :
    step (mkPipeline inq outq rs (ClosePut 0) got)
         (mkPipeline inq outq rs (CloseJoin 0) got)
| step_close_join i pc inq outq rs got :
    (* _reader_thread.join() returns once that thread has ended *)
    rs !! i = Some pc → terminated pc = true →
    step (mkPipeline inq outq rs (CloseJoin i) got)
         (mkPipeline inq outq rs (CloseJoin (S i)) got)
| step_close_end i inq outq rs got :
    (length rs ≤ i)%nat →
    step (mkPipeline inq outq rs (CloseJoin i) got)
         (mkPipeline inq outq rs Closed got)
| step_reader_get i entry inq outq rs c got :
    rs !! i = Some AtGet →
    step (mkPipeline (entry :: inq) outq rs c got)
         (mkPipeline inq outq (<[i := after_get entry]> rs) c got)
| step_reader_put i item inq outq rs c got :
    rs !! i = Some (AtPut item) →
    outqueue_has_room outq = true →
    step (mkPipeline inq outq rs c got)
         (mkPipeline inq (outq ++ [item]) (<[i := after_put item]> rs) c got)
| step_get item inq outq rs c got :
    (* IO.get() by the consumer *)
    step (mkPipeline inq (item :: outq) rs c got)
         (mkPipeline inq outq rs c (got ++ [item])).

(** A state in which no thread can move. *)
Definition quiescent (p : pipeline) : Prop := ∀ p', ¬ step p p'.
End Pipeline.

(** *** Bookkeeping over the pipeline *)

(** Sum of a weight over a list; with a 0/1 weight, a count. *)
Fixpoint total {A} (w : A → nat) (l : list A) : nat :=
  match l with
  | [] => 0%nat
  | x :: l => (w x + total w l)%nat
  end.

Definition indicator {A} (f : A → bool) (x : A) : nat := if f x then 1%nat else 0%nat.

Definition count {A} (f : A → bool) (l : list A) : nat := total (indicator f) l.

Definition is_sentinel {A} (x : option A) : bool :=
  match x with None => true | Some _ => false end.

Definition is_result {A} (x : option A) : bool :=
  match x with None => false | Some _ => true end.

(** Number of sentinels, and of proper entries, in a queue or a stream. *)
Definition sentinels {A} (l : list (option A)) : nat := count is_sentinel l.
Definition results {A} (l : list (option A)) : nat := count is_result l.

(** The reader has dequeued its sentinel. *)
Definition took_sentinel (pc : reader_pc) : bool :=
  match pc with AtPut None | Finished => true | _ => false end.

Definition is_finished (pc : reader_pc) : bool :=
  match pc with Finished => true | _ => false end.

Definition is_died (pc : reader_pc) : bool :=
  match pc with Died _ => true | _ => false end.

(** The reader holds a result it has not yet put. *)
Definition holds_result (pc : reader_pc) : bool :=
  match pc with AtPut (Some _) => true | _ => false end.

(** The reader will still put something on the output queue. *)
Definition is_working (pc : reader_pc) : bool :=
  match pc with AtGet | AtPut _ => true | _ => false end.

(** Sentinels that [close()] has still to enqueue, with [n] readers. *)
Definition pending (n : nat) (c : caller_pc) : nat :=
  match c with
  | Submitting _ => n
  | ClosePut k => k
  | CloseJoin _ | Closed => 0%nat
  end.

(** Jobs the caller has still to submit. *)
Definition remaining (c : caller_pc) : list Block :=
  match c with
  | Submitting jobs => jobs
  | _ => []
  end.

(** A bound on the number of steps the threads can still take. *)
Definition caller_weight (n : nat) (c : caller_pc) : nat :=
  match c with
  | Submitting jobs => (4 * length jobs + 5 * n + 3)%nat
  | ClosePut k => (4 * k + n + 2)%nat
  | CloseJoin i => (n - i + 1)%nat
  | Closed => 0%nat
  end.

Definition reader_weight (pc : reader_pc) : nat :=
  match pc with AtPut _ => 2%nat | _ => 0%nat end.

Definition measure (p : pipeline) : nat :=
  (caller_weight (length (_reader_threads p)) (caller p)
   + 3 * length (_inqueue p)
   + total reader_weight (_reader_threads p)
   + length (_outqueue p))%nat.

(** Everything has been handed to the consumer: [close()] has returned,
    every reader has left its loop, nothing is queued, and the consumer has
    seen one sentinel per reader; with at least one reader it has seen a
    result for every job before the last sentinel. *)
Definition delivered (n : nat) (jobs : list Block) (p : pipeline) : Prop :=
  caller p = Closed
  ∧ _reader_threads p = replicate n Finished
  ∧ _outqueue p = []
  ∧ sentinels (consumed p) = n
  ∧ ((0 < n)%nat →
     _inqueue p = []
     ∧ results (consumed p) = length jobs
     ∧ last (consumed p) = Some None).

Section PipelineInvariant.
Variable hash_hexdigest : bytes → string.
Variable self : IO.
Variable source_file : bytes.

(** The loop body of the reader completes for this block. *)
Definition completes (block : Block) : bool :=
  match _reader_job hash_hexdigest (block_size self) source_file block with
  | Completed _ _ _ => true
  | Failed _ => false
  end.

(** What holds in every state of a run in which all jobs can be read. *)
Record invariant (jobs : list Block) (p : pipeline) : Prop := mkInvariant {
  (* the threads started by open_r stay the threads of the engine *)
  inv_readers : length (_reader_threads p) = reader_count self;
  (* each of the sentinels of close() is still to be put, queued, or taken *)
  inv_sentinels_in :
    (pending (reader_count self) (caller p) + sentinels (_inqueue p)
     + count took_sentinel (_reader_threads p))%nat = reader_count self;
  (* each finished reader has forwarded one sentinel *)
  inv_sentinels_out :
    count is_finished (_reader_threads p)
    = (sentinels (_outqueue p) + sentinels (consumed p))%nat;
  (* no reader has died *)
  inv_alive : count is_died (_reader_threads p) = 0%nat;
  (* blocks come before sentinels in the input queue *)
  inv_order :
    ∃ (blocks : list Block) (k : nat),
      _inqueue p = (Some <$> blocks) ++ replicate k None
      ∧ Forall (λ b, completes b = true) blocks
      ∧ ((0 < count took_sentinel (_reader_threads p))%nat → blocks = []);
  inv_remaining : Forall (λ b, completes b = true) (remaining (caller p));
  (* each job is still to be submitted, queued, held, or was handed out *)
  inv_jobs :
    (length (remaining (caller p)) + results (_inqueue p)
     + count holds_result (_reader_threads p)
     + results (_outqueue p) + results (consumed p))%nat = length jobs;
  (* the stream of outputs ends with a sentinel once no reader works *)
  inv_last :
    (0 < count is_working (_reader_threads p))%nat
    ∨ consumed p ++ _outqueue p = []
    ∨ last (consumed p ++ _outqueue p) = Some None
}.
End PipelineInvariant.

(** The reader thread has ended: it has left its loop, or an exception
    has ended it. *)
Definition ended (pc : reader_pc) : Prop := pc = Finished ∨ ∃ e, pc = Died e.

(** The threads [close()] has waited for so far. *)
Definition joined (c : caller_pc) (rs : list reader_pc) : Prop :=
  match c with
  | CloseJoin i => ∀ j pc, (j < i)%nat → rs !! j = Some pc → ended pc
  | Closed => Forall ended rs
  | _ => True
  end.

(** What holds in every state of every run of [n] readers, whether or not
    the submitted blocks can be read. *)
Record close_invariant (n : nat) (p : pipeline) : Prop := mkCloseInvariant {
  ci_readers : length (_reader_threads p) = n;
  (* each of the sentinels of close() is still to be put, queued, or taken *)
  ci_sentinels_in :
    (pending n (caller p) + sentinels (_inqueue p)
     + count took_sentinel (_reader_threads p))%nat = n;
  (* each reader that left its loop has forwarded one sentinel *)
  ci_sentinels_out :
    count is_finished (_reader_threads p)
    = (sentinels (_outqueue p) + sentinels (consumed p))%nat;
  (* join() returns only for a thread that has ended *)
  ci_joined : joined (caller p) (_reader_threads p)
}.

(** *** Writing *)

(** Body of the loop of [IO._writer] for an entry that is not the sentinel,
    run without interruption: the content of the target file afterwards, or
    the exception that ends the thread.  [write] on a regular file returns
    the number of bytes it was given. *)
Definition _writer_job (block_size : Z) (content : bytes) (entry : Block * bytes)
    : exn + bytes :=
  let '(block, data) := entry in
  let offset := id block * block_size in
  match file_seek offset with
  | Some e => inl e
  | None =>
      let content := file_write content offset data in
      let written := len data in
      if written =? len data then inr content else inl AssertionError
  end.

(** What a call of [IO.write] comes to. *)
Inductive write_result : Type :=
| Queued (self : IO)
| WriteRaised (e : exn)
| WriteWaits                (* the queue is full: [put] waits for a writer *)
| WriteNoQueue.             (* AttributeError: no [_write_queue] was made *)

Definition set_write_queue (q : Queue (option (Block * bytes))) (self : IO) : IO :=
  {| simultaneous_reads := simultaneous_reads self;
     simultaneous_writes := simultaneous_writes self;
     block_size := block_size self;
     mode := mode self;
     io_name := io_name self;
     _write_file := _write_file self;
     _write_queue := Some q;
     _writer_threads := _writer_threads self;
     writer_thread_status := writer_thread_status self |}.

(** [IO.write(block, data)]. *)
Definition write (block : Block) (data : bytes) (self : IO) : write_result :=
  match _write_file self with
  | None => WriteRaised (RuntimeError "File not open.")
  | Some _ =>
      match _write_queue self with
      | None => WriteNoQueue
      | Some q =>
          if has_room q then Queued (set_write_queue (enqueue (Some (block, data)) q) self)
          else WriteWaits
      end
  end.

(** The writer threads share the handle [self._write_file], and with it
    its position: [seek] and [write] are two calls, and another thread can
    run between them. *)
Inductive writer_pc : Type :=
| WAtGet                                   (* at  self._write_queue.get()    *)
| WAtSeek (block : Block) (data : bytes)   (* at  self._write_file.seek(..)  *)
| WAtWrite (block : Block) (data : bytes)  (* at  self._write_file.write(..) *)
| WFinished
| WDied (e : exn).

Record writers : Type := mkWriters {
  w_queue : list (option (Block * bytes));
  w_file : bytes;                          (* content of the target file *)
  w_position : Z;                          (* position of the shared handle *)
  w_threads : list writer_pc
}.

Definition after_write_get (entry : option (Block * bytes)) : writer_pc :=
  match entry with
  | None => WFinished
  | Some (block, data) => WAtSeek block data
  end.

Inductive writer_step (block_size : Z) : writers → writers → Prop :=
| writer_step_get i entry queue file position threads :
    threads !! i = Some WAtGet →
    writer_step block_size
      (mkWriters (entry :: queue) file position threads)
      (mkWriters queue file position (<[i := after_write_get entry]> threads))
| writer_step_seek i block data queue file position threads :
    threads !! i = Some (WAtSeek block data) →
    file_seek (id block * block_size) = None →
    writer_step block_size
      (mkWriters queue file position threads)
      (mkWriters queue file (id block * block_size)
         (<[i := WAtWrite block data]> threads))
| writer_step_seek_fails i block data e queue file position threads :
    threads !! i = Some (WAtSeek block data) →
    file_seek (id block * block_size) = Some e →
    writer_step block_size
      (mkWriters queue file position threads)
      (mkWriters queue file position (<[i := WDied e]> threads))
| writer_step_write i block data queue file position threads :
    threads !! i = Some (WAtWrite block data) →
    writer_step block_size
      (mkWriters queue file position threads)
      (mkWriters queue (file_write file position data) (position + len data)
         (<[i := WAtGet]> threads)).

(** The file after the jobs have been done one after the other. *)
Definition written (block_size : Z) (content : bytes) (jobs : list (Block * bytes))
    : bytes :=
  foldl (λ file job, file_write file (id job.1 * block_size) job.2) content jobs.

(** What holds while a single writer thread works through a queue of
    jobs: doing the jobs still held or queued, in order, on the file as it
    is gives the file that doing all jobs in order gives. *)
Definition single_writer_invariant (block_size : Z) (target : bytes) (p : writers) : Prop :=
  ∃ jobs,
    w_queue p = Some <$> jobs
    ∧ Forall (λ job : Block * bytes, 0 ≤ id job.1 * block_size) jobs
    ∧ match w_threads p with
      | [WAtGet] => written block_size (w_file p) jobs = target
      | [WAtSeek block data] =>
          0 ≤ id block * block_size
          ∧ written block_size (w_file p) ((block, data) :: jobs) = target
      | [WAtWrite block data] =>
          w_position p = id block * block_size
          ∧ written block_size (file_write (w_file p) (w_position p) data) jobs = target
      | _ => False
      end.

(** *** Opening for reading *)

(** A reader thread begins with [open(self.io_name, 'rb')]. *)
Definition no_such_file (path : string) : exn :=
  FileNotFoundError ("[Errno 2] No such file or directory: '" ++ path ++ "'").

Definition reader_start (fs : filesystem) (path : string) : reader_pc :=
  match fs !! path with
  | Some _ => AtGet
  | None => Died (no_such_file path)
  end.

(** [IO.open_r(io_name)]: the engine afterwards and the reader threads it
    has started, or the exception raised. *)
Definition open_r (name : string) (self : IO) (fs : filesystem)
    : exn + IO * list reader_pc :=
  let self := set_mode "r" self in
  match match_file_uri name with
  | None => inl (not_a_valid_io_name name)
  | Some path =>
      let self := set_io_name path self in
      inr (self, (λ _, reader_start fs path) <$> seqZ 0 (simultaneous_reads self))
  end.

(** The pipeline of the threads [open_r] has started, with the jobs the
    caller is about to submit. *)
Definition pipeline_of (threads : list reader_pc) (jobs : list Block) : pipeline :=
  mkPipeline [] [] threads (Submitting jobs) [].

End FileIO.

(** ** The S3 data backend, [backy2/data_backends/s3.py] *)
Module S3.

Definition WRITE_QUEUE_LENGTH : Z := 20.
Definition READ_QUEUE_LENGTH : Z := 20.

(** *** Library calls behind [_uid] *)

(** The alphabet of [shortuuid]: the default one, sorted. *)
Definition alphabet : list ascii :=
  list_ascii_of_string "23456789ABCDEFGHJKLMNPQRSTUVWXYZabcdefghijkmnopqrstuvwxyz".

Definition alpha_len : Z := Z.of_nat (length alphabet).

(** The [while number:] loop of [shortuuid.int_to_string]: digits in base
    [alpha_len], least significant first.  The fuel bounds the number of
    iterations; 128 are enough for a 128-bit number. *)
Fixpoint int_to_digits (fuel : nat) (number : Z) : list Z :=
  match fuel with
  | O => []
  | S fuel =>
      if number =? 0 then []
      else (number mod alpha_len) :: int_to_digits fuel (number / alpha_len)
  end.

Definition alphabet_at (digit : Z) : ascii :=
  nth (Z.to_nat digit) alphabet (ascii_of_nat 0).

(** [shortuuid.int_to_string(number, alphabet, padding)]. *)
Definition int_to_string (number : Z) (padding : nat) : list ascii :=
  let output := map alphabet_at (int_to_digits 128 number) in
  let remainder := (padding - length output)%nat in
  rev (output ++ replicate remainder (alphabet_at 0)).

(** [shortuuid.uuid()] for the value [u] of [uuid.uuid4().int]; the pad
    length is [ceil(log(2**128, 57)) = 22]. *)
Definition shortuuid_uuid (u : Z) : string :=
  string_of_list_ascii (int_to_string u 22).

(** [s.encode('ascii')]. *)
Definition encode_ascii (s : string) : bytes :=
  map byte_of_ascii (list_ascii_of_string s).

Definition hex_digit (n : N) : ascii :=
  nth (N.to_nat n) (list_ascii_of_string "0123456789abcdef") (ascii_of_nat 0).

(** [hexdigest()] of a digest: two lowercase hexadecimal digits per byte. *)
Fixpoint hexdigest (digest : bytes) : string :=
  match digest with
  | [] => EmptyString
  | b :: rest =>
      let n := Byte.to_N b in
      String (hex_digit (n / 16)%N) (String (hex_digit (n mod 16)%N) (hexdigest rest))
  end.

(** *** The pattern [^[0-9a-f]{10}[0-9A-Za-z]{22}$] *)

Definition between (lo hi : nat) (c : ascii) : bool :=
  let n := nat_of_ascii c in (lo <=? n)%nat && (n <=? hi)%nat.

Definition is_digit (c : ascii) : bool := between 48 57 c.
Definition is_lower_hex (c : ascii) : bool := is_digit c || between 97 102 c.
Definition is_alnum (c : ascii) : bool :=
  is_digit c || between 65 90 c || between 97 122 c.

(** The string consists of 10 characters of [0-9a-f] followed by 22 of
    [0-9A-Za-z], and nothing else. *)
Definition matches_uid_pattern (s : string) : bool :=
  let l := list_ascii_of_string s in
  (length l =? 32)%nat
  && forallb is_lower_hex (take 10 l)
  && forallb is_alnum (drop 10 l).

(** *** The engine object *)

(** A worker thread: still in its loop, left it through [break], or ended
    by an exception nothing caught. *)
Inductive worker : Type :=
| Running
| Finished
| Died (e : exn).

Definition is_running (w : worker) : bool :=
  match w with Running => true | _ => false end.

Record DataBackend : Type := mkDataBackend {
  fatal_error : option exn;
  _write_queue : Queue (option (string * bytes));
  _read_queue : Queue (option Block);
  _read_data_queue : Queue (Block * option bytes);
  bucket : gmap string bytes;             (* the objects of the bucket *)
  _writer_threads : list worker;
  _reader_threads : list worker;
  uuid4_drawn : nat                       (* calls of uuid.uuid4() so far *)
}.

(** Assignments to the attributes.  No assignment to [fatal_error] occurs
    in the source, so there is none here. *)
Definition set_write_queue q (st : DataBackend) : DataBackend :=
  let 'mkDataBackend f _ rq rdq b wt rt u := st in mkDataBackend f q rq rdq b wt rt u.
Definition set_read_queue q (st : DataBackend) : DataBackend :=
  let 'mkDataBackend f wq _ rdq b wt rt u := st in mkDataBackend f wq q rdq b wt rt u.
Definition set_read_data_queue q (st : DataBackend) : DataBackend :=
  let 'mkDataBackend f wq rq _ b wt rt u := st in mkDataBackend f wq rq q b wt rt u.
Definition set_bucket b (st : DataBackend) : DataBackend :=
  let 'mkDataBackend f wq rq rdq _ wt rt u := st in mkDataBackend f wq rq rdq b wt rt u.
Definition set_writer_threads wt (st : DataBackend) : DataBackend :=
  let 'mkDataBackend f wq rq rdq b _ rt u := st in mkDataBackend f wq rq rdq b wt rt u.
Definition set_reader_threads rt (st : DataBackend) : DataBackend :=
  let 'mkDataBackend f wq rq rdq b wt _ u := st in mkDataBackend f wq rq rdq b wt rt u.
Definition set_uuid4_drawn u (st : DataBackend) : DataBackend :=
  let 'mkDataBackend f wq rq rdq b wt rt _ := st in mkDataBackend f wq rq rdq b wt rt u.

(** A method call returns, raises, or waits for ever on a queue. *)
Inductive outcome (A : Type) : Type :=
| Returned (a : A) (st : DataBackend)
| Raised (e : exn) (st : DataBackend)
| Waits (st : DataBackend).
Arguments Returned {A} _ _.
Arguments Raised {A} _ _.
Arguments Waits {A} _.

(** The engine a call leaves behind, however the call ends. *)
Definition outcome_state {A} (o : outcome A) : DataBackend :=
  match o with
  | Returned _ st | Raised _ st | Waits st => st
  end.

(** Every result waiting in the read-data queue carries data. *)
Definition results_carry_data (st : DataBackend) : Prop :=
  Forall (λ r : Block * option bytes, is_Some r.2) (items (_read_data_queue st)).

(** What [obj.get()] followed by [data_dict['Body'].read()] yields in one
    attempt. *)
Inductive get_answer : Type :=
| Body (data : bytes)
| Fails (e : exn).

(** The outcome of [read_raw]: besides returning or raising, the retry loop
    can still be going when the answers considered are used up. *)
Inductive raw_result : Type :=
| Got (data : bytes)
| Raise (e : exn)
| Retrying.

(** [rm_many] ends in [return None] implicitly; its documentation promises
    a list. *)
Inductive pyvalue : Type :=
| PyNone
| PyList (l : list string).

(** Names bound at module level in [s3.py]. *)
Definition module_globals : list string :=
  ["_DataBackend"; "logger"; "TokenBucket"; "boto3"; "BotoCoreClientConfig";
   "ClientError"; "set_list_objects_encoding_type_url"; "hashlib"; "os";
   "queue"; "shortuuid"; "socket"; "threading"; "time"; "STATUS_NOTHING";
   "STATUS_READING"; "STATUS_WRITING"; "STATUS_THROTTLING"; "STATUS_NEWKEY";
   "DataBackend"].

(** Evaluating a name inside a method: the local variables that hold a
    string, then the module's globals (rendered by name); no builtin is
    called [key] or [uid].  An unbound name raises [NameError]. *)
Definition load_name (locals : list (string * string)) (x : string) : exn + string :=
  match list_find (λ kv, String.eqb kv.1 x = true) locals with
  | Some (_, (_, v)) => inr v
  | None =>
      if bool_decide (x ∈ module_globals) then inr ("<" ++ x ++ ">")%string
      else inl (NameError x)
  end.

Definition dquote : string := String (ascii_of_nat 34) EmptyString.

(** ['Key {} not found.'.format(v)]. *)
Definition key_not_found (v : string) : string :=
  ("Key " ++ v ++ " not found.")%string.

(** [code == 'NoSuchKey' or code == '404']. *)
Definition is_missing_key (code : string) : bool :=
  String.eqb code "NoSuchKey" || String.eqb code "404".

Section Backend.
(** [hashlib.md5(b).digest()]. *)
Variable md5 : bytes → bytes.
(** The value of [uuid.uuid4().int] at its k-th call. *)
Variable uuid4 : nat → Z.
(** The error with which the provider refuses [put_object] of these
    bytes under this key, if it does. *)
Variable put_fault : string → bytes → option exn.
(** The answers of the provider to successive [get_object] calls for a
    key. *)
Variable get_answers : string → list get_answer.
(** The error code with which the provider refuses a HEAD of a key it
    holds, if it does. *)
Variable head_fault : string → option string.

(** [DataBackend._uid()]. *)
Definition _uid (st : DataBackend) : string * DataBackend :=
  let suuid := shortuuid_uuid (uuid4 (uuid4_drawn st) mod 2 ^ 128) in
  let hash := hexdigest (md5 (encode_ascii suuid)) in
  ((substring 0 10 hash ++ suuid)%string, set_uuid4_drawn (S (uuid4_drawn st)) st).

(** **** Writer threads *)

Definition end_writer (i : nat) (w : worker) (st : DataBackend) : DataBackend :=
  set_writer_threads (<[i := w]> (_writer_threads st)) st.

(** One pass through the loop of [_writer] by thread [i], from the [get]
    on; [None] when thread [i] is not running or would wait in [get]. *)
Definition _writer_iter (i : nat) (st : DataBackend) : option DataBackend :=
  match _writer_threads st !! i with
  | Some Running =>
      match items (_write_queue st) with
      | [] => None
      | entry :: rest =>
          let st := set_write_queue (dequeued rest (_write_queue st)) st in
          match entry, fatal_error st with
          | Some (uid, data), None =>
              (* throttle, bucket.Object(uid), obj.put(Body=data) *)
              match put_fault uid data with
              | Some e => Some (end_writer i (Died e) st)
              | None =>
                  let st := set_bucket (<[uid := data]> (bucket st)) st in
                  Some (set_write_queue (task_done (_write_queue st)) st)
              end
          | _, _ => Some (end_writer i Finished st)
          end
      end
  | _ => None
  end.

(** The threads run while a caller waits: the first running writer makes
    one pass. *)
Definition writers_iter (st : DataBackend) : option DataBackend :=
  match list_find (λ w, is_running w = true) (_writer_threads st) with
  | Some (i, _) => _writer_iter i st
  | None => None
  end.

(** [self._write_queue.put(x)]: when the queue is full the caller waits
    until a writer has taken an entry; [None] when none ever will. *)
Definition write_queue_put (x : option (string * bytes)) (st : DataBackend)
    : option DataBackend :=
  if has_room (_write_queue st) then
    Some (set_write_queue (enqueue x (_write_queue st)) st)
  else
    match writers_iter st with
    | Some st =>
        if has_room (_write_queue st) then
          Some (set_write_queue (enqueue x (_write_queue st)) st)
        else None
    | None => None
    end.

(** [self._write_queue.join()]: the caller waits until every entry has
    been marked done; [None] when that never happens. *)
Fixpoint write_queue_join (fuel : nat) (st : DataBackend) : option DataBackend :=
  match unfinished_tasks (_write_queue st) with
  | O => Some st
  | S _ =>
      match fuel with
      | O => None
      | S fuel =>
          match writers_iter st with
          | Some st => write_queue_join fuel st
          | None => None
          end
      end
  end.

(** [DataBackend.save(data, _sync=False)]. *)
Definition save (data : bytes) (_sync : bool) (st : DataBackend) : outcome string :=
  match fatal_error st with
  | Some e => Raised e st
  | None =>
      let '(uid, st) := _uid st in
      match write_queue_put (Some (uid, data)) st with
      | None => Waits st
      | Some st =>
          if _sync then
            match write_queue_join (S (length (items (_write_queue st)))) st with
            | Some st => Returned uid st
            | None => Waits st
            end
          else Returned uid st
      end
  end.

(** **** Reading *)

(** [except OSError] also catches its subclasses. *)
Definition os_error_text (e : exn) : option string :=
  match e with
  | OSError msg | FileNotFoundError msg => Some msg
  | _ => None
  end.

(** [DataBackend.read_raw(block_uid, _bucket)]: the retry loop over the
    answers of the provider, with the lines given to [logger.error].
    In the handler of [ClientError] the local names bound are [self],
    [block_uid], [_bucket], [obj] and [e]; only [block_uid] holds a
    string. *)
Fixpoint read_raw_loop (block_uid : string) (answers : list get_answer)
    (log : list string) : list string * raw_result :=
  match answers with
  | [] => (log, Retrying)
  | Body data :: _ => (log, Got data)
  | Fails e :: answers =>
      match e with
      | ClientError code =>
          if is_missing_key code then
            match load_name [("block_uid", block_uid)] "key" with
            | inr key => (log, Raise (FileNotFoundError (key_not_found key)))
            | inl unbound => (log, Raise unbound)
            end
          else (log, Raise e)
      | SocketTimeout =>
          read_raw_loop block_uid answers
            (log ++ ["Timeout while fetching from s3, trying again."])
      | _ =>
          match os_error_text e with
          | Some msg =>
              read_raw_loop block_uid answers
                (log ++ [("Timeout while fetching from s3 - error is " ++ dquote
                          ++ msg ++ dquote ++ ", trying again.")%string])
          | None => (log, Raise e)
          end
      end
  end.

Definition read_raw (block_uid : string) : list string * raw_result :=
  read_raw_loop block_uid (get_answers block_uid) [].

Definition end_reader (i : nat) (w : worker) (st : DataBackend) : DataBackend :=
  set_reader_threads (<[i := w]> (_reader_threads st)) st.

(** One pass through the loop of [_reader] by thread [i]; [None] when the
    thread is not running, or waits in [get], in [put] or in [read_raw]. *)
Definition _reader_iter (i : nat) (st : DataBackend) : option DataBackend :=
  match _reader_threads st !! i with
  | Some Running =>
      match items (_read_queue st) with
      | [] => None
      | entry :: rest =>
          let st := set_read_queue (dequeued rest (_read_queue st)) st in
          match entry, fatal_error st with
          | Some block, None =>
              match (read_raw (uid block)).2 with
              | Raise (FileNotFoundError _) =>
                  if has_room (_read_data_queue st) then
                    Some (set_read_data_queue
                            (enqueue (block, None) (_read_data_queue st)) st)
                  else None
              | Raise e => Some (end_reader i (Died e) st)
              | Got data =>
                  if has_room (_read_data_queue st) then
                    let st := set_read_data_queue
                                (enqueue (block, Some data) (_read_data_queue st)) st in
                    Some (set_read_queue (task_done (_read_queue st)) st)
                  else None
              | Retrying => None
              end
          | _, _ => Some (end_reader i Finished st)
          end
      end
  | _ => None
  end.

(** [len(data)] where [data] may be [None]. *)
Definition py_len (data : option bytes) : exn + Z :=
  match data with
  | Some d => inr (len d)
  | None => inl (TypeError "object of type 'NoneType' has no len()")
  end.

(** [DataBackend.read_get()]. *)
Definition read_get (st : DataBackend)
    : outcome (Block * Z * Z * option bytes) :=
  match items (_read_data_queue st) with
  | [] => Waits st
  | (block, data) :: rest =>
      let st := set_read_data_queue (dequeued rest (_read_data_queue st)) st in
      let offset := 0 in
      match py_len data with
      | inl e => Raised e st
      | inr length =>
          let st := set_read_data_queue (task_done (_read_data_queue st)) st in
          Returned (block, offset, length, data) st
      end
  end.

(** **** Deleting *)

(** [obj.load()]: a HEAD request; [None] when it succeeds. *)
Definition obj_load (uid : string) (st : DataBackend) : option exn :=
  match bucket st !! uid with
  | None => Some (ClientError "404")
  | Some _ => ClientError <$> head_fault uid
  end.

(** [DataBackend.rm(uid)]. *)
Definition rm (uid : string) (st : DataBackend) : outcome unit :=
  match obj_load uid st with
  | Some (ClientError code) =>
      if is_missing_key code then
        match load_name [("uid", uid)] "uid" with
        | inr v => Raised (FileNotFoundError (key_not_found v)) st
        | inl unbound => Raised unbound st
        end
      else Raised (ClientError code) st
  | Some e => Raised e st
  | None => Returned () (set_bucket (delete uid (bucket st)) st)
  end.

(** [DataBackend.rm_many(uids)]. *)
Fixpoint rm_many (uids : list string) (st : DataBackend) : outcome pyvalue :=
  match uids with
  | [] => Returned PyNone st
  | uid :: uids =>
      match rm uid st with
      | Returned _ st => rm_many uids st
      | Raised e st => Raised e st
      | Waits st => Waits st
      end
  end.

(** **** Synchronous reads *)

(** The threads run while a caller waits: the first running reader makes
    one pass. *)
Definition readers_iter (st : DataBackend) : option DataBackend :=
  match list_find (λ w, is_running w = true) (_reader_threads st) with
  | Some (i, _) => _reader_iter i st
  | None => None
  end.

(** [read_get] as the caller of a synchronous [read] lives it: when no
    result is queued, a reader works while the caller waits. *)
Definition read_get_waiting (st : DataBackend)
    : outcome (Block * Z * Z * option bytes) :=
  match items (_read_data_queue st) with
  | [] =>
      match readers_iter st with
      | Some st => read_get st
      | None => Waits st
      end
  | _ :: _ => read_get st
  end.

Definition uid_not_found (block : Block) : exn :=
  FileNotFoundError ("UID " ++ uid block ++ " not found.").

(** [DataBackend.read(block, sync=False)]; without [sync] the value
    returned is [None]. *)
Definition read (block : Block) (sync : bool) (st : DataBackend)
    : outcome (option bytes) :=
  if has_room (_read_queue st) then
    let st := set_read_queue (enqueue (Some block) (_read_queue st)) st in
    if sync then
      match read_get_waiting st with
      | Returned (rblock, offset, length, data) st =>
          if negb (id rblock =? id block) then
            Raised (RuntimeError "Do not mix threaded reading with sync reading!") st
          else
            match data with
            | None => Raised (uid_not_found block) st
            | Some data => Returned (Some data) st
            end
      | Raised e st => Raised e st
      | Waits st => Waits st
      end
    else Returned None st
  else Waits st.

(** **** Shutting down *)

(** [self._read_queue.put(x)]. *)
Definition read_queue_put (x : option Block) (st : DataBackend) : option DataBackend :=
  if has_room (_read_queue st) then
    Some (set_read_queue (enqueue x (_read_queue st)) st)
  else None.

(** [thread.join()] for writer [i]: the caller waits while that thread
    works; [None] when the thread never ends. *)
Fixpoint join_writer (fuel : nat) (i : nat) (st : DataBackend) : option DataBackend :=
  match _writer_threads st !! i with
  | Some Running =>
      match fuel with
      | O => None
      | S fuel =>
          match _writer_iter i st with
          | Some st => join_writer fuel i st
          | None => None
          end
      end
  | _ => Some st
  end.

Fixpoint join_reader (fuel : nat) (i : nat) (st : DataBackend) : option DataBackend :=
  match _reader_threads st !! i with
  | Some Running =>
      match fuel with
      | O => None
      | S fuel =>
          match _reader_iter i st with
          | Some st => join_reader fuel i st
          | None => None
          end
      end
  | _ => Some st
  end.

(** A [for] loop whose body can wait for ever. *)
Definition for_each {A} (body : A → DataBackend → option DataBackend)
    (l : list A) (st : DataBackend) : option DataBackend :=
  foldl (λ acc x, acc ≫= body x) (Some st) l.

(** [DataBackend.close()]. *)
Definition close (st : DataBackend) : outcome unit :=
  let closed :=
    for_each (λ _, write_queue_put None) (_writer_threads st) st ≫= λ st,
    for_each (λ i st, join_writer (S (length (items (_write_queue st)))) i st)
      (seq 0 (length (_writer_threads st))) st ≫= λ st,
    for_each (λ _, read_queue_put None) (_reader_threads st) st ≫= λ st,
    for_each (λ i st, join_reader (S (length (items (_read_queue st)))) i st)
      (seq 0 (length (_reader_threads st))) st in
  match closed with
  | Some st => Returned () st
  | None => Waits st
  end.

(** **** The engine over time *)

(** What can happen to an engine: one of its threads makes a pass through
    its loop, or one of its methods is called. *)
Inductive engine_step : DataBackend → DataBackend → Prop :=
| writer_pass i st st' :
    _writer_iter i st = Some st' → engine_step st st'
| reader_pass i st st' :
    _reader_iter i st = Some st' → engine_step st st'
| call_save data _sync st :
    engine_step st (outcome_state (save data _sync st))
| call_read block sync st :
    engine_step st (outcome_state (read block sync st))
| call_read_get st :
    engine_step st (outcome_state (read_get st))
| call_rm uid st :
    engine_step st (outcome_state (rm uid st))
| call_rm_many uids st :
    engine_step st (outcome_state (rm_many uids st))
| call_close st :
    engine_step st (outcome_state (close st)).
End Backend.

(** *** The provider seen from outside the engine *)

(** The exceptions that [read_raw] answers by trying again. *)
Definition is_transient (e : exn) : bool :=
  match e with
  | SocketTimeout | OSError _ | FileNotFoundError _ => true
  | _ => false
  end.

(** A provider that answers [get_object] from the objects it holds and
    never fails otherwise. *)
Definition honest_answers (objects : gmap string bytes) (key : string)
    : list get_answer :=
  match objects !! key with
  | Some data => [Body data]
  | None => [Fails (ClientError "NoSuchKey")]
  end.

(** [DataBackend.get_all_blob_uids(prefix=None)]: the keys of the objects
    the listing yields; the order is the provider's. *)
Definition get_all_blob_uids (prefix : option string) (st : DataBackend)
    : list string :=
  let keys := (map_to_list (bucket st)).*1 in
  match prefix with
  | None => keys
  | Some p => filter (λ key, String.prefix p key = true) keys
  end.

(** The number a list of base-[alpha_len] digits stands for, least
    significant digit first. *)
Fixpoint digits_value (digits : list Z) : Z :=
  match digits with
  | [] => 0
  | d :: digits => d + alpha_len * digits_value digits
  end.

(** [DataBackend.read_queue_size()]. *)
Definition read_queue_size (st : DataBackend) : Z :=
  Z.of_nat (length (items (_read_queue st))).

End S3.

(** ** Sample values used by the examples below *)

(** A backend as the constructor leaves it, with [n] writer and [m] reader
    threads started and an empty bucket. *)
Definition fresh_backend (n m : nat) : S3.DataBackend :=
  S3.mkDataBackend None
    (new_queue (Z.of_nat n + S3.WRITE_QUEUE_LENGTH))
    (new_queue 0)
    (new_queue (Z.of_nat m + S3.READ_QUEUE_LENGTH))
    ∅ (replicate n S3.Running) (replicate m S3.Running) 0.

(** A stand-in for MD5 with a digest of the right size. *)
Definition toy_md5 (m : bytes) : bytes :=
  take 16 (m ++ replicate 16 Byte.x00).

(** A file of six bytes read in blocks of four by one reader thread. *)
Definition sample_hexdigest (data : bytes) : string :=
  S3.hexdigest (take 2 data).

Definition sample_io : FileIO.IO := FileIO.__init__ ∅ 4.

Definition sample_file : bytes :=
  [Byte.x61; Byte.x62; Byte.x63; Byte.x64; Byte.x65; Byte.x66].

Definition sample_block_0 : Block := mkBlock 0 "b0" true.
Definition sample_block_1 : Block := mkBlock 1 "b1" true.
Definition sample_jobs : list Block := [sample_block_0; sample_block_1].

Definition sample_result_0 : FileIO.result :=
  (sample_block_0, [Byte.x61; Byte.x62; Byte.x63; Byte.x64], "6162"%string).
Definition sample_result_1 : FileIO.result :=
  (sample_block_1, [Byte.x65; Byte.x66], "6566"%string).

(** The state in which the run of the sample engine ends. *)
Definition sample_delivered : FileIO.pipeline :=
  FileIO.mkPipeline [] [] [FileIO.Finished] FileIO.Closed
    [Some sample_result_0; Some sample_result_1; None].

(** The same file read by two reader threads. *)
Definition sample_io_2 : FileIO.IO :=
  FileIO.__init__ (<["simultaneous_reads"%string := 2]> ∅) 4.

(** A state in which a run of two readers over one job can end. *)
Definition sample_delivered_2 : FileIO.pipeline :=
  FileIO.mkPipeline [] [] [FileIO.Finished; FileIO.Finished] FileIO.Closed
    [None; Some sample_result_0; None].

(** A block that starts past the end of the sample file, and the state
    in which the run of one reader over it ends: the reader is dead, its
    sentinel still queued, and the consumer has seen nothing. *)
Definition sample_block_2 : Block := mkBlock 2 "b2" true.

Definition sample_reader_died : FileIO.pipeline :=
  FileIO.mkPipeline [None] []
    [FileIO.Died (RuntimeError "EOF reached on source when there should be data.")]
    FileIO.Closed [].

(** * Properties of the file IO engine *)

Section FileReader.
Import FileIO.
Variable hash_hexdigest : bytes → string.

Lemma file_read_length (content : bytes) (offset size : Z) :
  0 ≤ offset → 0 ≤ size →
  len (file_read content offset size) = Z.max 0 (Z.min size (len content - offset)).
Proof.
  intros Ho Hs. unfold file_read, len.
  destruct (Z.ltb_spec size 0) as [|_]; [lia|].
  rewrite length_take, length_drop. lia.
Qed.

(** C1, as amended.  With a positive block size and a block at a
    non-negative position, the reader completes a job exactly when the
    block starts inside the file; the data returned are the bytes of the
    file from the block's offset on, at most [block_size] of them and at
    least one, [block_size] of them when the whole block lies inside the
    file, and the checksum is the hash of those data.  A block that
    starts at or after the end of the file ends the job with the runtime
    error. *)
Theorem reader_job_spec (block_size : Z) (source_file : bytes) (block : Block) :
  0 < block_size → 0 ≤ id block →
  let offset := id block * block_size in
  (offset < len source_file →
     ∃ data,
       _reader_job hash_hexdigest block_size source_file block
         = Completed block data (hash_hexdigest data)
       ∧ data = file_read source_file offset block_size
       ∧ len data = Z.min block_size (len source_file - offset)
       ∧ 0 < len data ≤ block_size)
  ∧ (len source_file ≤ offset →
     _reader_job hash_hexdigest block_size source_file block
       = Failed (RuntimeError "EOF reached on source when there should be data.")).
Proof.
  intros Hbs Hid offset.
  assert (Hoff : 0 ≤ offset) by (subst offset; lia).
  pose proof (file_read_length source_file offset block_size Hoff ltac:(lia)) as Hlen.
  unfold _reader_job, file_seek. fold offset.
  destruct (Z.ltb_spec offset 0) as [|_]; [lia|].
  split; intros Hin.
  - destruct (file_read source_file offset block_size) as [|b data] eqn:Hdata.
    + unfold len in *; simpl in Hlen. lia.
    + exists (b :: data). repeat split; try reflexivity; lia.
  - destruct (file_read source_file offset block_size) as [|b data] eqn:Hdata; [done|].
    unfold len in *; simpl in Hlen. lia.
Qed.
End FileReader.

(** C1, witness: a file of five bytes read in blocks of four; block 1 is the
    last, partial one, and its job completes with the one byte there is. *)
Lemma reader_job_spec_witness :
  let file := [Byte.x01; Byte.x02; Byte.x03; Byte.x04; Byte.x05] in
  let block := mkBlock 1 "b1" true in
  ∃ data,
    FileIO._reader_job (λ _, "c0ffee") 4 file block
      = FileIO.Completed block data "c0ffee"
    ∧ data = FileIO.file_read file (id block * 4) 4
    ∧ len data = Z.min 4 (len file - id block * 4)
    ∧ 0 < len data ≤ 4.
Proof.
  intros file block.
  apply (reader_job_spec (λ _, "c0ffee") 4 file block); simpl; unfold len; simpl; lia.
Defined.

(** C1, counterexample to the claim as stated: the job for the last block
    of a five-byte file completes, with one byte of data where the block
    size is four. *)
Lemma reader_job_short_block_completes :
  let file := [Byte.x01; Byte.x02; Byte.x03; Byte.x04; Byte.x05] in
  let block := mkBlock 1 "b1" true in
  FileIO._reader_job (λ _, "c0ffee") 4 file block
    = FileIO.Completed block [Byte.x05] "c0ffee"
  ∧ len [Byte.x05] ≠ 4.
Proof. split; [reflexivity | discriminate]. Qed.

Section FileOpenW.
Import FileIO.

Lemma open_w_start_threads (path : string) (self : IO) :
  _writer_threads (open_w_start path self)
    = _writer_threads self ++ seqZ 0 (simultaneous_writes self)
  ∧ _write_queue (open_w_start path self)
    = Some (new_queue (simultaneous_writes self + WRITE_QUEUE_LENGTH))
  ∧ _write_file (open_w_start path self) = Some path.
Proof.
  unfold open_w_start.
  set (self0 := mkIO _ _ _ _ _ _ _ _ _).
  change (simultaneous_writes self) with (simultaneous_writes self0).
  change (_writer_threads self) with (_writer_threads self0).
  change (Some (new_queue (simultaneous_writes self0 + WRITE_QUEUE_LENGTH)))
    with (_write_queue self0).
  change (Some path) with (_write_file self0).
  generalize (seqZ 0 (simultaneous_writes self0)) as ids.
  clearbody self0. intros ids. revert self0.
  induction ids as [|i ids IH]; intros self0; simpl.
  - by rewrite app_nil_r.
  - destruct (IH (start_writer self0 i)) as (-> & -> & ->).
    simpl. by rewrite <- app_assoc.
Qed.

(** C5, the code at the failing input: with [simultaneous_reads = 3] and
    [simultaneous_writes = 5] configured, [open_w] starts three writer
    threads and bounds the write queue at 23, not five and 25. *)
Lemma open_w_reads_the_wrong_key :
  let config : gmap string Z :=
    <["simultaneous_reads" := 3]> (<["simultaneous_writes" := 5]> ∅) in
  let self := __init__ config 4096 in
  ∃ self' fs',
    open_w "file:///tmp/t.img" (Some 8) false self ∅ = Returned self' fs'
    ∧ getint config "simultaneous_writes" 1 = 5
    ∧ _writer_threads self' = [0; 1; 2]
    ∧ maxsize <$> _write_queue self' = Some 23.
Proof.
  intros config self.
  assert (Hr : simultaneous_writes self = 3).
  { unfold self, __init__, getint, config; simpl. by rewrite lookup_insert_eq. }
  eexists _, _. split; [|split; [|split]].
  - unfold open_w. 
    replace (match_file_uri "file:///tmp/t.img") with (Some "/tmp/t.img"%string)
      by (vm_compute; reflexivity).
    cbv beta iota. rewrite lookup_empty. simpl file_seek. cbv beta iota.
    reflexivity.
  - unfold getint, config.
    rewrite lookup_insert_ne by discriminate. by rewrite lookup_insert_eq.
  - destruct (open_w_start_threads "/tmp/t.img" (set_io_name "/tmp/t.img" (set_mode "w" self)))
      as (-> & _ & _).
    simpl. change (simultaneous_writes self) with (getint config "simultaneous_reads" 1).
    unfold getint, config. rewrite lookup_insert_eq. reflexivity.
  - destruct (open_w_start_threads "/tmp/t.img" (set_io_name "/tmp/t.img" (set_mode "w" self)))
      as (_ & -> & _).
    simpl. change (simultaneous_writes self) with (getint config "simultaneous_reads" 1).
    unfold getint, config. rewrite lookup_insert_eq. reflexivity.
Qed.
End FileOpenW.

Section FileOpenWSpec.
Import FileIO.

Lemma sparse_file_content (sz : Z) :
  0 < sz → file_write [] (sz - 1) [Byte.x00] = replicate (Z.to_nat sz) Byte.x00.
Proof.
  intros Hsz. unfold file_write.
  rewrite take_nil, drop_nil, app_nil_r. simpl.
  rewrite Nat.sub_0_r.
  replace (Z.to_nat sz) with (S (Z.to_nat (sz - 1))) by lia.
  by rewrite replicate_S_end.
Qed.

(** C7, as amended.  For a name [file://<path>] and any size, given or
    not.  When no file is at the path and the size is at least one,
    [open_w] creates a file of exactly [size] zero bytes, written as one
    zero byte at position [size - 1], and opens it; when no file is at the
    path and the size is missing or below one, it raises and leaves an
    empty file behind, unopened.  When a file is there and [force] is
    false it fails; when a file is there, [force] is true and the file is
    shorter than [size], or no size is given, it fails; otherwise it opens
    the file for reading and writing and leaves its content alone.  A
    failure leaves [_write_file] as it was. *)
Theorem open_w_spec (name path : string) (size_ : option Z) (force : bool)
    (self : IO) (fs : filesystem) :
  match_file_uri name = Some path →
  (fs !! path = None →
     (∀ sz, size_ = Some sz → 0 < sz →
        ∃ self',
          open_w name size_ force self fs
            = Returned self' (<[path := file_write [] (sz - 1) [Byte.x00]]> fs)
          ∧ file_write [] (sz - 1) [Byte.x00] = replicate (Z.to_nat sz) Byte.x00
          ∧ Z.of_nat (length (replicate (Z.to_nat sz) Byte.x00)) = sz
          ∧ _write_file self' = Some path)
     ∧ (match size_ with Some sz => sz ≤ 0 | None => True end →
        ∃ e self',
          open_w name size_ force self fs = Raised e self' (<[path := []]> fs)
          ∧ _write_file self' = _write_file self))
  ∧ (∀ content, fs !! path = Some content →
       (force = false →
          ∃ msg self',
            open_w name size_ force self fs = Raised (SystemExit msg) self' fs
            ∧ _write_file self' = _write_file self)
       ∧ (force = true → ∀ sz, size_ = Some sz → Z.of_nat (length content) < sz →
          ∃ msg self',
            open_w name size_ force self fs = Raised (SystemExit msg) self' fs
            ∧ _write_file self' = _write_file self)
       ∧ (force = true → size_ = None →
          ∃ msg self',
            open_w name size_ force self fs = Raised (TypeError msg) self' fs
            ∧ _write_file self' = _write_file self)
       ∧ (force = true → ∀ sz, size_ = Some sz → sz ≤ Z.of_nat (length content) →
          ∃ self',
            open_w name size_ force self fs = Returned self' fs
            ∧ _write_file self' = Some path)).
Proof.
  intros Huri. unfold open_w. rewrite Huri. cbv zeta. split.
  - intros ->. split.
    + intros sz -> Hsz. unfold file_seek.
      destruct (Z.ltb_spec (sz - 1) 0) as [|_]; [lia|].
      eexists. split; [|split; [|split]].
      * by rewrite insert_insert_eq.
      * by apply sparse_file_content.
      * rewrite length_replicate. lia.
      * apply open_w_start_threads.
    + destruct size_ as [sz|]; intros Hsz; [|by eexists _, _].
      unfold file_seek. destruct (Z.ltb_spec (sz - 1) 0); [|lia].
      by eexists _, _.
  - intros content ->. split; [|split; [|split]].
    + intros ->. simpl. by eexists _, _.
    + intros -> sz -> Hlt. simpl. unfold size, len.
      destruct (Z.ltb_spec (Z.of_nat (length content)) sz); [|lia].
      by eexists _, _.
    + intros -> ->. simpl. by eexists _, _.
    + intros -> sz -> Hle. simpl. unfold size, len.
      destruct (Z.ltb_spec (Z.of_nat (length content)) sz); [lia|].
      eexists. split; [reflexivity|]. apply open_w_start_threads.
Qed.
End FileOpenWSpec.

(** C7, witness: the scenario of a 1 MiB target at [/tmp/t.img].  On a
    missing path the target is created with 1 MiB of zero bytes; opening it
    again without [force] fails; with [force] and the same size it
    succeeds; with [force] and one byte more it fails. *)
Lemma open_w_spec_witness :
  let self := FileIO.__init__ ∅ 4096 in
  let name := "file:///tmp/t.img"%string in
  let path := "/tmp/t.img"%string in
  let created := FileIO.file_write [] (1048576 - 1) [Byte.x00] in
  let fs1 : FileIO.filesystem := <[path := created]> ∅ in
  (∃ self',
     FileIO.open_w name (Some 1048576) false self ∅ = FileIO.Returned self' fs1
     ∧ created = replicate (Z.to_nat 1048576) Byte.x00
     ∧ Z.of_nat (length (replicate (Z.to_nat 1048576) Byte.x00)) = 1048576
     ∧ FileIO._write_file self' = Some path)
  ∧ (∃ msg self',
       FileIO.open_w name (Some 1048576) false self fs1
         = FileIO.Raised (SystemExit msg) self' fs1
       ∧ FileIO._write_file self' = FileIO._write_file self)
  ∧ (∃ self',
       FileIO.open_w name (Some 1048576) true self fs1 = FileIO.Returned self' fs1
       ∧ FileIO._write_file self' = Some path)
  ∧ (∃ msg self',
       FileIO.open_w name (Some 1048577) true self fs1
         = FileIO.Raised (SystemExit msg) self' fs1
       ∧ FileIO._write_file self' = FileIO._write_file self).
Proof.
  intros self name path created fs1.
  assert (Huri : FileIO.match_file_uri name = Some path) by reflexivity.
  assert (Hnone : (∅ : FileIO.filesystem) !! path = None) by apply lookup_empty.
  assert (Hsome : fs1 !! path = Some created) by apply lookup_insert_eq.
  assert (Hlen : Z.of_nat (length created) = 1048576).
  { unfold created. rewrite sparse_file_content by lia.
    rewrite length_replicate. lia. }
  split; [|split; [|split]].
  - exact (proj1 (proj1 (open_w_spec name path (Some 1048576) false self ∅ Huri) Hnone)
             1048576 eq_refl ltac:(lia)).
  - exact (proj1 (proj2 (open_w_spec name path (Some 1048576) false self fs1 Huri)
                    created Hsome) eq_refl).
  - apply (proj2 (proj2 (proj2 (proj2 (open_w_spec name path (Some 1048576) true self fs1 Huri)
                                  created Hsome))) eq_refl 1048576 eq_refl).
    lia.
  - apply (proj1 (proj2 (proj2 (open_w_spec name path (Some 1048577) true self fs1 Huri)
                           created Hsome)) eq_refl 1048577 eq_refl).
    lia.
Defined.

(** C7, counterexample to the claim as stated: [open_w] of a missing path
    with size 0 does not create and open a target of that size; the seek
    to position -1 raises, and the engine is left without an open file.
    The same call with the default, no size, raises a [TypeError]. *)
Lemma open_w_size_zero_raises :
  let self := FileIO.__init__ ∅ 4096 in
  (∃ self',
     FileIO.open_w "file:///tmp/t.img" (Some 0) false self ∅
       = FileIO.Raised (OSError "[Errno 22] Invalid argument") self'
           (<["/tmp/t.img"%string := []]> ∅)
     ∧ FileIO._write_file self' = None)
  ∧ (∃ self',
       FileIO.open_w "file:///tmp/t.img" None false self ∅
         = FileIO.Raised
             (TypeError "unsupported operand type(s) for -: 'NoneType' and 'int'")
             self' (<["/tmp/t.img"%string := []]> ∅)
       ∧ FileIO._write_file self' = None).
Proof. intros self. split; eexists; split; reflexivity. Qed.

(** * Properties of the S3 data backend *)

Section UidFormat.
Import S3.

Lemma int_to_digits_range (fuel : nat) (n : Z) :
  0 ≤ n → Forall (λ d, 0 ≤ d < alpha_len) (int_to_digits fuel n).
Proof.
  revert n. induction fuel as [|fuel IH]; intros n Hn; simpl; [constructor|].
  destruct (n =? 0); [constructor|].
  constructor.
  - apply Z.mod_pos_bound. reflexivity.
  - apply IH. apply Z.div_pos; [lia | reflexivity].
Qed.

Lemma int_to_digits_length (k fuel : nat) (n : Z) :
  0 ≤ n < alpha_len ^ Z.of_nat k → (length (int_to_digits fuel n) ≤ k)%nat.
Proof.
  revert fuel n. induction k as [|k IH]; intros fuel n Hn.
  - assert (n = 0) as -> by (simpl in Hn; lia).
    destruct fuel; simpl; lia.
  - destruct fuel as [|fuel]; simpl; [lia|].
    destruct (n =? 0); simpl; [lia|].
    apply le_n_S, IH.
    rewrite Nat2Z.inj_succ, Z.pow_succ_r in Hn by lia.
    split.
    + apply Z.div_pos; [lia | reflexivity].
    + apply Z.div_lt_upper_bound; [reflexivity | lia].
Qed.

(** The fuel given to the digit loop does not cut it short: a 128-bit
    number is used up after 22 divisions. *)
Lemma int_to_digits_fuel (k fuel : nat) (n : Z) :
  0 ≤ n < alpha_len ^ Z.of_nat k → (k ≤ fuel)%nat →
  int_to_digits fuel n = int_to_digits k n.
Proof.
  revert fuel n. induction k as [|k IH]; intros fuel n Hn Hk.
  - assert (n = 0) as -> by (simpl in Hn; lia).
    by destruct fuel.
  - destruct fuel as [|fuel]; [lia|]. simpl.
    destruct (n =? 0); [done|]. f_equal.
    apply IH; [|lia].
    rewrite Nat2Z.inj_succ, Z.pow_succ_r in Hn by lia.
    split.
    + apply Z.div_pos; [lia | reflexivity].
    + apply Z.div_lt_upper_bound; [reflexivity | lia].
Qed.

Lemma alphabet_is_alnum (d : Z) :
  0 ≤ d < alpha_len → is_alnum (alphabet_at d) = true.
Proof.
  intros Hd. unfold alphabet_at.
  assert (Hall : forallb is_alnum alphabet = true) by reflexivity.
  rewrite forallb_forall in Hall. apply Hall, nth_In.
  unfold alpha_len in Hd. lia.
Qed.

Lemma int_to_string_shape (u : Z) :
  0 ≤ u < 2 ^ 128 →
  length (int_to_string u 22) = 22%nat
  ∧ forallb is_alnum (int_to_string u 22) = true.
Proof.
  intros Hu. unfold int_to_string.
  pose proof (int_to_digits_length 22 128 u) as Hlen.
  pose proof (int_to_digits_range 128 u ltac:(lia)) as Hrange.
  assert (H57 : 2 ^ 128 ≤ alpha_len ^ Z.of_nat 22) by (vm_compute; discriminate).
  specialize (Hlen ltac:(lia)).
  split.
  - rewrite length_rev, length_app, length_map, length_replicate. lia.
  - rewrite forallb_forall. intros c Hc.
    apply in_rev in Hc. apply in_app_or in Hc as [Hc|Hc].
    + apply in_map_iff in Hc as (d & <- & Hd).
      apply alphabet_is_alnum.
      rewrite Forall_forall in Hrange. apply Hrange. by apply list_elem_of_In.
    + apply list_elem_of_In, elem_of_replicate in Hc as [-> _]. reflexivity.
Qed.

Lemma hex_digit_is_lower_hex (n : N) :
  (n < 16)%N → is_lower_hex (hex_digit n) = true.
Proof.
  intros Hn. unfold hex_digit.
  assert (Hall : forallb is_lower_hex (list_ascii_of_string "0123456789abcdef") = true)
    by reflexivity.
  rewrite forallb_forall in Hall. apply Hall, nth_In. simpl. lia.
Qed.

Lemma hexdigest_shape (digest : bytes) :
  length (list_ascii_of_string (hexdigest digest)) = (2 * length digest)%nat
  ∧ forallb is_lower_hex (list_ascii_of_string (hexdigest digest)) = true.
Proof.
  induction digest as [|b digest [IHl IHf]]; [done|].
  cbn [hexdigest list_ascii_of_string length forallb]. split; [lia|].
  pose proof (Byte.to_N_bounded b) as Hb.
  rewrite !hex_digit_is_lower_hex, IHf; [done| |].
  - apply N.mod_lt. discriminate.
  - apply N.Div0.div_lt_upper_bound. lia.
Qed.

Lemma list_ascii_of_substring (n : nat) (s : string) :
  list_ascii_of_string (substring 0 n s) = take n (list_ascii_of_string s).
Proof.
  revert s. induction n as [|n IH]; intros [|a s]; simpl; try done.
  by rewrite IH.
Qed.

Lemma list_ascii_of_append (s t : string) :
  list_ascii_of_string (s ++ t)%string
    = list_ascii_of_string s ++ list_ascii_of_string t.
Proof. induction s as [|a s IH]; simpl; [done | by rewrite IH]. Qed.

Lemma forallb_take {A} (f : A → bool) (n : nat) (l : list A) :
  forallb f l = true → forallb f (take n l) = true.
Proof.
  revert n. induction l as [|x l IH]; intros [|n]; simpl; try done.
  intros [-> Hl]%andb_prop. simpl. by apply IH.
Qed.
End UidFormat.

Section UidGenerator.
Import S3.
Variable md5 : bytes → bytes.
Variable uuid4 : nat → Z.

Lemma length_list_ascii_of_string (s : string) :
  length (list_ascii_of_string s) = String.length s.
Proof. induction s as [|a s IH]; simpl; [done | by rewrite IH]. Qed.

(** C9.  With an MD5 digest of 16 bytes, the uid that [_uid] returns is
    the first ten hexadecimal digits of the MD5 digest of the
    22-character base-57 encoding of the random UUID, followed by that
    encoding; it has 32 characters and matches
    [^[0-9a-f]{10}[0-9A-Za-z]{22}$]. *)
Theorem uid_well_formed (st : DataBackend) :
  (∀ m, length (md5 m) = 16%nat) →
  let suuid := shortuuid_uuid (uuid4 (uuid4_drawn st) mod 2 ^ 128) in
  let prefix := substring 0 10 (hexdigest (md5 (encode_ascii suuid))) in
  let uid := (_uid md5 uuid4 st).1 in
  uid = (prefix ++ suuid)%string
  ∧ String.length prefix = 10%nat
  ∧ String.length suuid = 22%nat
  ∧ String.length uid = 32%nat
  ∧ matches_uid_pattern uid = true.
Proof.
  intros Hmd5 suuid prefix uid.
  assert (Huid : uid = (prefix ++ suuid)%string) by reflexivity.
  destruct (int_to_string_shape (uuid4 (uuid4_drawn st) mod 2 ^ 128)) as [Hsl Hsa].
  { apply Z.mod_pos_bound. reflexivity. }
  destruct (hexdigest_shape (md5 (encode_ascii suuid))) as [Hhl Hha].
  rewrite Hmd5 in Hhl.
  assert (Hs : list_ascii_of_string suuid
               = int_to_string (uuid4 (uuid4_drawn st) mod 2 ^ 128) 22)
    by apply list_ascii_of_string_of_list_ascii.
  assert (Hp : list_ascii_of_string prefix
               = take 10 (list_ascii_of_string (hexdigest (md5 (encode_ascii suuid)))))
    by apply list_ascii_of_substring.
  assert (Hpl : length (list_ascii_of_string prefix) = 10%nat).
  { rewrite Hp, length_take, Hhl. reflexivity. }
  split; [exact Huid|].
  split; [by rewrite <- length_list_ascii_of_string|].
  split; [by rewrite <- length_list_ascii_of_string, Hs|].
  split.
  - rewrite Huid, <- length_list_ascii_of_string, list_ascii_of_append,
      length_app, Hpl, Hs, Hsl. reflexivity.
  - unfold matches_uid_pattern.
    rewrite Huid, list_ascii_of_append, length_app, Hpl, Hs, Hsl.
    rewrite take_app_length' by (symmetry; exact Hpl).
    rewrite drop_app_length' by (symmetry; exact Hpl).
    rewrite Hp, forallb_take by exact Hha.
    rewrite Hsa. reflexivity.
Qed.
End UidGenerator.

(** C9, witness: the uid generated from the UUID value 2024. *)
Lemma uid_well_formed_witness :
  let st := fresh_backend 1 1 in
  let suuid := S3.shortuuid_uuid (2024 mod 2 ^ 128) in
  let prefix := substring 0 10 (S3.hexdigest (toy_md5 (S3.encode_ascii suuid))) in
  let uid := (S3._uid toy_md5 (λ _, 2024) st).1 in
  uid = (prefix ++ suuid)%string
  ∧ String.length prefix = 10%nat
  ∧ String.length suuid = 22%nat
  ∧ String.length uid = 32%nat
  ∧ S3.matches_uid_pattern uid = true.
Proof.
  apply (uid_well_formed toy_md5 (λ _, 2024) (fresh_backend 1 1)).
  intros m. unfold toy_md5.
  rewrite length_take, length_app, length_replicate. lia.
Defined.

Section ReadRaw.
Import S3.
Variable get_answers : string → list get_answer.

Lemma load_name_key_unbound (block_uid : string) :
  load_name [("block_uid", block_uid)] "key" = inl (NameError "key").
Proof. reflexivity. Qed.

(** The four handlers of [read_raw], one equation each. *)
Lemma read_raw_loop_missing_key block_uid code answers log :
  is_missing_key code = true →
  read_raw_loop block_uid (Fails (ClientError code) :: answers) log
    = (log, Raise (NameError "key")).
Proof. intros H. simpl. by rewrite H. Qed.

Lemma read_raw_loop_client_error block_uid code answers log :
  is_missing_key code = false →
  read_raw_loop block_uid (Fails (ClientError code) :: answers) log
    = (log, Raise (ClientError code)).
Proof. intros H. simpl. by rewrite H. Qed.

Lemma read_raw_loop_timeout block_uid answers log :
  read_raw_loop block_uid (Fails SocketTimeout :: answers) log
    = read_raw_loop block_uid answers
        (log ++ ["Timeout while fetching from s3, trying again."%string]).
Proof. reflexivity. Qed.

Lemma read_raw_loop_os_error block_uid msg answers log :
  ∃ line,
    read_raw_loop block_uid (Fails (OSError msg) :: answers) log
      = read_raw_loop block_uid answers (log ++ [line]).
Proof. eexists. reflexivity. Qed.

(** [read_raw] never raises [FileNotFoundError], whatever the provider
    answers. *)
Lemma read_raw_loop_never_file_not_found block_uid answers log msg :
  (read_raw_loop block_uid answers log).2 ≠ Raise (FileNotFoundError msg).
Proof.
  revert log. induction answers as [|[data|e] answers IH]; intros log; simpl; [done..|].
  destruct e; simpl; try done; try apply IH.
  destruct (is_missing_key code); simpl; [done|congruence].
Qed.
End ReadRaw.

(** C2, the code at the failing input: the provider answers [get_object]
    for the uid with the error code [NoSuchKey] (after one socket timeout,
    which is logged and retried); [read_raw] ends with a [NameError] for the
    unbound name [key], not with a [FileNotFoundError] naming the uid. *)
Lemma read_raw_missing_key_raises_name_error :
  let uid := "6f1ed002abR7hfjuZ8kLNsxW3pqYtC29" in
  let answers := λ _ : string,
    [S3.Fails SocketTimeout; S3.Fails (ClientError "NoSuchKey")] in
  S3.read_raw answers uid
    = (["Timeout while fetching from s3, trying again."%string],
       S3.Raise (NameError "key"))
  ∧ S3.rm (λ _, None) uid (fresh_backend 1 1)
    = S3.Raised (FileNotFoundError (S3.key_not_found uid)) (fresh_backend 1 1).
Proof. split; reflexivity. Qed.

Section Removal.
Import S3.
Variable head_fault : string → option string.

(** [rm_many] never returns anything but [None]. *)
Lemma rm_many_returns_none (uids : list string) (st st' : DataBackend) (v : pyvalue) :
  rm_many head_fault uids st = Returned v st' → v = PyNone.
Proof.
  revert st. induction uids as [|uid uids IH]; intros st; simpl.
  - by intros [= <- _].
  - destruct (rm head_fault uid st); [apply IH | done..].
Qed.

(** The first uid that [rm] refuses ends [rm_many]; the uids after it are
    not looked at. *)
Lemma rm_many_stops_at_first_failure (uid : string) (uids : list string)
    (st st' : DataBackend) (e : exn) :
  rm head_fault uid st = Raised e st' →
  rm_many head_fault (uid :: uids) st = Raised e st'.
Proof. intros H. simpl. by rewrite H. Qed.
End Removal.

(** C4, the code at the failing input: with only ["kept"] stored,
    [rm_many ["gone"; "kept"]] raises the missing-key error of ["gone"] and
    leaves ["kept"] in the bucket; and where every deletion succeeds the
    value returned is [None], not the empty list. *)
Lemma rm_many_propagates_first_failure :
  let st := S3.set_bucket (<["kept"%string := [Byte.x2a]]> ∅) (fresh_backend 1 1) in
  S3.rm_many (λ _, None) ["gone"%string; "kept"%string] st
    = S3.Raised (FileNotFoundError "Key gone not found.") st
  ∧ S3.bucket st !! "kept"%string = Some [Byte.x2a]
  ∧ S3.rm_many (λ _, None) ["kept"%string] st
    = S3.Returned S3.PyNone (fresh_backend 1 1).
Proof. repeat split. Qed.

Section ReadGet.
Import S3.

(** A result that carries data is handed out as the quadruple. *)
Lemma read_get_present (st : DataBackend) block data rest :
  items (_read_data_queue st) = (block, Some data) :: rest →
  ∃ st', read_get st = Returned (block, 0, len data, Some data) st'
         ∧ items (_read_data_queue st') = rest.
Proof.
  intros H. unfold read_get. rewrite H. simpl.
  eexists. split; [reflexivity|]. by destruct st.
Qed.

(** A result without data makes [len] fail after the result has left the
    queue. *)
Lemma read_get_absent (st : DataBackend) block rest :
  items (_read_data_queue st) = (block, None) :: rest →
  ∃ st', read_get st = Raised (TypeError "object of type 'NoneType' has no len()") st'
         ∧ items (_read_data_queue st') = rest.
Proof.
  intros H. unfold read_get. rewrite H. simpl.
  eexists. split; [reflexivity|]. by destruct st.
Qed.

(** As long as [read_raw] cannot raise [FileNotFoundError], a reader thread
    only ever enqueues results that carry data. *)
Lemma reader_iter_enqueues_data (get_answers : string → list get_answer)
    (i : nat) (st st' : DataBackend) :
  _reader_iter get_answers i st = Some st' →
  items (_read_data_queue st') = items (_read_data_queue st)
  ∨ ∃ block data,
      items (_read_data_queue st')
        = items (_read_data_queue st) ++ [(block, Some data)].
Proof.
  unfold _reader_iter.
  destruct (_reader_threads st !! i) as [[| |]|]; try done.
  destruct (items (_read_queue st)) as [|entry rest]; [done|].
  destruct st as [f wq rq rdq b wt rt u]; simpl.
  destruct entry as [block|], f; simpl; try (intros [= <-]; by left).
  pose proof (read_raw_loop_never_file_not_found (uid block)
                (get_answers (uid block)) []) as Hnever.
  unfold read_raw.
  destruct (read_raw_loop (uid block) (get_answers (uid block)) []).2 as [data|e|];
    [| |done].
  - destruct (has_room rdq); [|done]. intros [= <-]. right. by exists block, data.
  - destruct e; try (intros [= <-]; by left). by destruct (Hnever msg).
Qed.
End ReadGet.


Section Save.
Import S3.
Variable md5 : bytes → bytes.
Variable uuid4 : nat → Z.
Variable put_fault : string → bytes → option exn.

Lemma items_set_write_queue q (st : DataBackend) :
  _write_queue (set_write_queue q st) = q.
Proof. by destruct st. Qed.

Lemma fatal_error_set_write_queue q (st : DataBackend) :
  fatal_error (set_write_queue q st) = fatal_error st.
Proof. by destruct st. Qed.

Lemma save_poisoned (data : bytes) (_sync : bool) (st : DataBackend) (e : exn) :
  fatal_error st = Some e → save md5 uuid4 put_fault data _sync st = Raised e st.
Proof. intros He. unfold save. by rewrite He. Qed.

Lemma save_unpoisoned_does_not_raise (data : bytes) (_sync : bool)
    (st st' : DataBackend) (e : exn) :
  fatal_error st = None → save md5 uuid4 put_fault data _sync st ≠ Raised e st'.
Proof.
  intros Hnone. unfold save, write_queue_put. rewrite Hnone.
  destruct (_uid md5 uuid4 st) as [uid st1].
  destruct (has_room (_write_queue st1)).
  - destruct _sync; [|done]. by destruct (write_queue_join _ _ _).
  - destruct (writers_iter put_fault st1) as [st2|]; [|done].
    destruct (has_room (_write_queue st2)); [|done].
    destruct _sync; [|done]. by destruct (write_queue_join _ _ _).
Qed.

End Save.

(** A synchronous [save] on a healthy engine returns once the writer has
    stored the object. *)
Example save_sync_stores :
  let data := [Byte.x68; Byte.x69] in
  let st := fresh_backend 1 1 in
  let uid := (S3._uid toy_md5 (λ _, 2024) st).1 in
  ∃ st', S3.save toy_md5 (λ _, 2024) (λ _ _, None) data true st = S3.Returned uid st'
         ∧ S3.bucket st' !! uid = Some data
         ∧ items (S3._write_queue st') = [].
Proof.
  intros data st uid. eexists. split; [reflexivity|]. split.
  - apply lookup_insert_eq.
  - reflexivity.
Qed.

Section Writer.
Import S3.
Variable md5 : bytes → bytes.
Variable uuid4 : nat → Z.
Variable put_fault : string → bytes → option exn.

(** No pass of a writer assigns [fatal_error]. *)
Lemma writer_iter_keeps_fatal_error (i : nat) (st st' : DataBackend) :
  _writer_iter put_fault i st = Some st' → fatal_error st' = fatal_error st.
Proof.
  unfold _writer_iter.
  destruct (_writer_threads st !! i) as [[| |]|]; try done.
  destruct (items (_write_queue st)) as [|entry rest]; [done|].
  destruct st as [f wq rq rdq b wt rt u]; simpl.
  destruct entry as [[uid data]|], f; simpl; try by intros [= <-].
  destruct (put_fault uid data); by intros [= <-].
Qed.

(** C3.  What the code does where the claim has the failure recorded.
    When [put_object] fails for the job a running writer has dequeued, the
    writer does not try again: the exception ends its thread, the entry has
    left the queue, the job is not marked done, the bucket is unchanged and
    [fatal_error] stays unset, so a later [save] does not raise.  The rest
    of the mechanism is in place: when [fatal_error] is set, [save] raises
    it and a running writer leaves its loop at its next dequeue. *)
Theorem writer_put_failure_not_recorded (i : nat) (st : DataBackend)
    (uid : string) (data : bytes) (rest : list (option (string * bytes))) (e : exn) :
  _writer_threads st !! i = Some Running →
  items (_write_queue st) = Some (uid, data) :: rest →
  (fatal_error st = None → put_fault uid data = Some e →
   ∃ st',
     _writer_iter put_fault i st = Some st'
     ∧ _writer_threads st' = <[i := Died e]> (_writer_threads st)
     ∧ items (_write_queue st') = rest
     ∧ unfinished_tasks (_write_queue st') = unfinished_tasks (_write_queue st)
     ∧ bucket st' = bucket st
     ∧ fatal_error st' = None
     ∧ ∀ data' _sync e' st'',
         save md5 uuid4 put_fault data' _sync st' ≠ Raised e' st'')
  ∧ (∀ e0, fatal_error st = Some e0 →
     (∀ data' _sync, save md5 uuid4 put_fault data' _sync st = Raised e0 st)
     ∧ ∃ st',
         _writer_iter put_fault i st = Some st'
         ∧ _writer_threads st' = <[i := Finished]> (_writer_threads st)
         ∧ bucket st' = bucket st).
Proof.
  intros Hrun Hq. split.
  - intros Hnone Hfault.
    assert (Hiter : ∃ st', _writer_iter put_fault i st = Some st'
              ∧ st' = end_writer i (Died e)
                        (set_write_queue (dequeued rest (_write_queue st)) st)).
    { eexists. split; [|reflexivity].
      unfold _writer_iter. rewrite Hrun, Hq.
      rewrite fatal_error_set_write_queue, Hnone, Hfault. reflexivity. }
    destruct Hiter as (st' & Hiter & ->).
    eexists. split; [exact Hiter|].
    destruct st as [f wq rq rdq b wt rt u]; simpl in *.
    repeat split; try done.
    intros data' _sync e' st''.
    by apply save_unpoisoned_does_not_raise.
  - intros e0 He0. split.
    + intros data' _sync. by apply save_poisoned.
    + eexists. split.
      * unfold _writer_iter. rewrite Hrun, Hq.
        rewrite fatal_error_set_write_queue, He0. reflexivity.
      * by destruct st.
Qed.
End Writer.

(** C3, witness: one running writer, one queued job, and a provider that
    refuses every upload. *)
Lemma writer_put_failure_not_recorded_witness :
  let e := ClientError "InternalError" in
  let refuse := λ (_ : string) (_ : bytes), Some e in
  let job := ("6f1ed002abR7hfjuZ8kLNsxW3pqYtC29"%string, [Byte.x68; Byte.x69]) in
  let st := S3.set_write_queue (enqueue (Some job) (new_queue 21)) (fresh_backend 1 1) in
  ∃ st',
    S3._writer_iter refuse 0 st = Some st'
    ∧ S3._writer_threads st' = <[0%nat := S3.Died e]> (S3._writer_threads st)
    ∧ items (S3._write_queue st') = []
    ∧ unfinished_tasks (S3._write_queue st') = unfinished_tasks (S3._write_queue st)
    ∧ S3.bucket st' = S3.bucket st
    ∧ S3.fatal_error st' = None
    ∧ ∀ data' _sync e' st'',
        S3.save toy_md5 (λ _, 2024) refuse data' _sync st' ≠ S3.Raised e' st''.
Proof.
  intros e refuse job st.
  apply (writer_put_failure_not_recorded toy_md5 (λ _, 2024) refuse 0 st
           job.1 job.2 [] e); reflexivity.
Defined.

(** C3, the code at the failing input: after the upload of the only queued
    job has failed, the one writer is dead and [fatal_error] is still
    unset; the next [save] returns a uid for data that no thread will ever
    store, and the next synchronous [save] waits for ever in [join]. *)
Lemma writer_put_failure_leaves_engine_unpoisoned :
  let e := ClientError "InternalError" in
  let refuse := λ (_ : string) (_ : bytes), Some e in
  let job := ("6f1ed002abR7hfjuZ8kLNsxW3pqYtC29"%string, [Byte.x68; Byte.x69]) in
  let st := S3.set_write_queue (enqueue (Some job) (new_queue 21)) (fresh_backend 1 1) in
  ∃ st' uid st'' st''',
    S3._writer_iter refuse 0 st = Some st'
    ∧ S3._writer_threads st' = [S3.Died e]
    ∧ S3.fatal_error st' = None
    ∧ S3.save toy_md5 (λ _, 2024) refuse [Byte.x6f; Byte.x6b] false st'
      = S3.Returned uid st''
    ∧ S3.bucket st'' = ∅
    ∧ S3.save toy_md5 (λ _, 2024) refuse [Byte.x6f; Byte.x6b] true st'
      = S3.Waits st'''.
Proof. intros e refuse job st. eexists _, _, _, _. repeat split. Qed.

(** * The read pipeline of the file IO engine *)

Section Counting.
Import FileIO.
Context {A : Type}.

Lemma total_app (w : A → nat) (l l' : list A) :
  total w (l ++ l') = (total w l + total w l')%nat.
Proof. induction l as [|x l IH]; simpl; [done | rewrite IH; lia]. Qed.

Lemma total_insert (w : A → nat) (l : list A) (i : nat) (x y : A) :
  l !! i = Some x →
  (total w (<[i := y]> l) + w x = total w l + w y)%nat.
Proof.
  revert i. induction l as [|z l IH]; intros [|i] H; simpl in *; try done.
  - injection H as ->. lia.
  - specialize (IH i H). lia.
Qed.

Lemma total_lookup (w : A → nat) (l : list A) (i : nat) (x : A) :
  l !! i = Some x → (w x ≤ total w l)%nat.
Proof.
  revert i. induction l as [|z l IH]; intros [|i] H; simpl in *; try done.
  - injection H as ->. lia.
  - specialize (IH i H). lia.
Qed.

Lemma total_replicate (w : A → nat) (n : nat) (x : A) :
  total w (replicate n x) = (n * w x)%nat.
Proof. induction n as [|n IH]; simpl; [done | rewrite IH; lia]. Qed.

Lemma count_lt_length (f : A → bool) (l : list A) (i : nat) (x : A) :
  l !! i = Some x → f x = false → (count f l < length l)%nat.
Proof.
  unfold count, indicator.
  revert i. induction l as [|z l IH]; intros [|i] H Hx; simpl in *; try done.
  - injection H as ->. rewrite Hx.
    assert (Hle : ∀ l : list A, (total (λ x, if f x then 1 else 0) l ≤ length l)%nat).
    { clear. induction l as [|y l IH]; simpl; [done|]. destruct (f y); lia. }
    specialize (Hle l). lia.
  - specialize (IH i H Hx). destruct (f z); lia.
Qed.

Lemma count_pos_lookup (f : A → bool) (l : list A) :
  (0 < count f l)%nat → ∃ i x, l !! i = Some x ∧ f x = true.
Proof.
  unfold count, indicator.
  induction l as [|z l IH]; simpl; [lia|].
  destruct (f z) eqn:Hz.
  - intros _. by exists 0%nat, z.
  - intros H. destruct (IH H) as (i & x & Hi & Hx). by exists (S i), x.
Qed.

Lemma count_le_length (f : A → bool) (l : list A) : (count f l ≤ length l)%nat.
Proof.
  unfold count, indicator. induction l as [|x l IH]; simpl; [done|].
  destruct (f x); lia.
Qed.

Lemma count_app (f : A → bool) (l l' : list A) :
  count f (l ++ l') = (count f l + count f l')%nat.
Proof. apply total_app. Qed.

End Counting.

Section QueueCounting.
Import FileIO.
Context {A : Type}.

Lemma sentinels_blocks (l : list A) : sentinels (Some <$> l) = 0%nat.
Proof. induction l as [|x l IH]; [done | exact IH]. Qed.

Lemma results_blocks (l : list A) : results (Some <$> l) = length l.
Proof.
  induction l as [|x l IH]; [done|].
  change (S (results (Some <$> l)) = S (length l)). by rewrite IH.
Qed.

Lemma sentinels_replicate (k : nat) : sentinels (replicate k (@None A)) = k.
Proof. unfold sentinels, count. rewrite total_replicate. unfold indicator. simpl. lia. Qed.

Lemma results_replicate (k : nat) : results (replicate k (@None A)) = 0%nat.
Proof. unfold results, count. rewrite total_replicate. unfold indicator. simpl. lia. Qed.

Lemma no_sentinels (l : list (option A)) :
  sentinels l = 0%nat → ∃ rs, l = Some <$> rs.
Proof.
  unfold sentinels, count, indicator.
  induction l as [|[x|] l IH]; simpl; [by exists [] | | lia].
  intros H. destruct (IH H) as [rs ->]. by exists (x :: rs).
Qed.

Lemma sentinels_results_length (l : list (option A)) :
  (sentinels l + results l)%nat = length l.
Proof.
  unfold sentinels, results, count, indicator.
  induction l as [|[x|] l IH]; simpl in *; lia.
Qed.
End QueueCounting.

Section ReaderCounting.
Import FileIO.

Lemma readers_partition (rs : list reader_pc) :
  (count is_working rs + count is_finished rs + count is_died rs)%nat = length rs.
Proof.
  unfold count, indicator. induction rs as [|pc rs IH]; simpl; [done|].
  destruct pc; simpl; lia.
Qed.

Lemma all_finished (rs : list reader_pc) :
  count is_finished rs = length rs → rs = replicate (length rs) Finished.
Proof.
  induction rs as [|pc rs IH]; simpl; [done|].
  pose proof (count_le_length is_finished rs) as Hle.
  unfold count, indicator in *. simpl.
  destruct pc; simpl; try lia.
  intros H. f_equal. apply IH. lia.
Qed.

Lemma took_sentinel_le_finished_or_putting (rs : list reader_pc) :
  (count is_finished rs ≤ count took_sentinel rs)%nat.
Proof.
  unfold count, indicator. induction rs as [|pc rs IH]; simpl; [done|].
  destruct pc as [|[?|]| |]; simpl; lia.
Qed.
End ReaderCounting.

Section PipelineRuns.
Import FileIO.
Variable hash_hexdigest : bytes → string.
Variable self : IO.
Variable source_file : bytes.

Local Abbreviation step := (FileIO.step hash_hexdigest self source_file).
Local Abbreviation invariant := (FileIO.invariant hash_hexdigest self source_file).
Local Abbreviation completes := (FileIO.completes hash_hexdigest self source_file).
Local Abbreviation after_get := (FileIO.after_get hash_hexdigest self source_file).

Lemma after_get_weight (entry : option Block) : (reader_weight (after_get entry) ≤ 2)%nat.
Proof.
  destruct entry as [block|]; simpl; [|lia].
  destruct (_reader_job _ _ _ _); simpl; lia.
Qed.

(** Every step brings the threads closer to the end. *)
Lemma step_measure (p p' : pipeline) : step p p' → (measure p' < measure p)%nat.
Proof.
  intros Hstep. inversion Hstep; subst; clear Hstep; unfold measure; simpl;
    rewrite ?length_app, ?length_insert; simpl; try lia.
  - apply lookup_lt_Some in H. lia.
  - pose proof (total_insert reader_weight rs i AtGet (after_get entry) H) as Hw.
    pose proof (after_get_weight entry). simpl in Hw. lia.
  - pose proof (total_insert reader_weight rs i (AtPut item) (after_put item) H) as Hw.
    destruct item; simpl in *; lia.
Qed.

(** A run from [p] has at most [measure p] steps. *)
Lemma run_length_bounded (k : nat) (p p' : pipeline) :
  nsteps step k p p' → (k ≤ measure p)%nat.
Proof.
  induction 1 as [|k p q r Hstep _ IH]; [lia|].
  apply step_measure in Hstep. lia.
Qed.

Lemma invariant_opened_r (jobs : list Block) :
  Forall (λ b, completes b = true) jobs → invariant jobs (opened_r self jobs).
Proof.
  intros Hjobs.
  constructor; simpl;
    unfold sentinels, results, count; rewrite ?total_replicate;
    unfold indicator; simpl; try lia.
  - apply length_replicate.
  - exists [], 0%nat. repeat split; constructor.
  - exact Hjobs.
  - by right; left.
Qed.

(** How the counts over the readers change when reader [i] moves. *)
Ltac reader_moves H :=
  match type of H with
  | ?rs !! ?i = Some ?x =>
      match goal with
      | |- context [<[i := ?y]> rs] =>
          pose proof (total_insert (indicator took_sentinel) rs i x y H);
          pose proof (total_insert (indicator is_finished) rs i x y H);
          pose proof (total_insert (indicator is_died) rs i x y H);
          pose proof (total_insert (indicator holds_result) rs i x y H);
          pose proof (total_insert (indicator is_working) rs i x y H);
          pose proof (total_lookup (indicator took_sentinel) rs i x H);
          pose proof (total_lookup (indicator is_finished) rs i x H);
          pose proof (total_lookup (indicator is_died) rs i x H);
          pose proof (total_lookup (indicator holds_result) rs i x H);
          pose proof (total_lookup (indicator is_working) rs i x H)
      end
  end.

Ltac count_queues :=
  unfold sentinels, results, count in *;
  rewrite ?total_app in *;
  unfold indicator in *; simpl in *.

Lemma inqueue_head (blocks : list Block) (k : nat) (entry : option Block)
    (inq : list (option Block)) :
  entry :: inq = (Some <$> blocks) ++ replicate k None →
  Forall (λ b, completes b = true) blocks →
  (∃ block blocks', entry = Some block ∧ blocks = block :: blocks'
     ∧ completes block = true
     ∧ inq = (Some <$> blocks') ++ replicate k None
     ∧ Forall (λ b, completes b = true) blocks')
  ∨ (∃ k', entry = None ∧ blocks = [] ∧ k = S k' ∧ inq = replicate k' None).
Proof.
  intros Heq Hall. destruct blocks as [|block blocks']; simpl in Heq.
  - right. destruct k as [|k']; simpl in Heq; [done|].
    injection Heq as -> ->. by exists k'.
  - left. injection Heq as -> ->.
    apply Forall_cons in Hall as [Hb Hall]. by exists block, blocks'.
Qed.

Lemma after_get_completes (block : Block) :
  completes block = true → ∃ r, after_get (Some block) = AtPut (Some r).
Proof.
  unfold FileIO.completes. simpl.
  destruct (_reader_job _ _ _ _); [eauto | done].
Qed.

Lemma replicate_only_sentinels (blocks : list Block) (k : nat) (n took pend : nat) :
  (pend + sentinels ((Some <$> blocks) ++ replicate k None) + took)%nat = n →
  (pend + k + took)%nat = n.
Proof.
  unfold sentinels. rewrite count_app.
  fold (sentinels (Some <$> blocks)). fold (sentinels (replicate k (@None Block))).
  rewrite sentinels_blocks, sentinels_replicate. lia.
Qed.

(** Every step preserves the invariant. *)
Lemma step_invariant (jobs : list Block) (p p' : pipeline) :
  invariant jobs p → step p p' → invariant jobs p'.
Proof.
  intros [Hlen Hin Hout Halive (blocks & k & Hq & Hall & Hnone) Hrem Hjobs Hlast] Hstep.
  inversion Hstep; subst; clear Hstep; simpl in *.
  - (* read *)
    pose proof Hin as Hk. rewrite Hq in Hk. apply replicate_only_sentinels in Hk.
    assert (k = 0%nat) as -> by lia.
    apply Forall_cons in Hrem as [Hb Hrem].
    constructor; simpl; try done.
    + count_queues. lia.
    + exists (blocks ++ [block]), 0%nat. split; [|split].
      * rewrite Hq, fmap_app. simpl. by rewrite !app_nil_r.
      * apply Forall_app. split; [done | by constructor].
      * intros ?. lia.
    + count_queues. lia.
  - (* close *)
    constructor; simpl; try done.
    + lia.
    + eauto.
  - (* close: put a sentinel *)
    constructor; simpl; try done.
    + count_queues. lia.
    + exists blocks, (S k). split; [|done].
      rewrite Hq, replicate_S_end. by rewrite app_assoc.
    + count_queues. lia.
  - constructor; simpl; try done. eauto.
  - constructor; simpl; try done. eauto.
  - constructor; simpl; try done. eauto.
  - (* a reader's get *)
    destruct (inqueue_head _ _ _ _ Hq Hall)
      as [(block & blocks' & -> & -> & Hb & Hq' & Hall')|(k' & -> & -> & -> & Hq')].
    + destruct (after_get_completes block Hb) as [r Hr]. rewrite Hr.
      assert (Htook : count took_sentinel rs = 0%nat).
      { destruct (count took_sentinel rs); [done|]. by specialize (Hnone ltac:(lia)). }
      constructor; simpl; rewrite ?length_insert; try done; reader_moves H;
        count_queues; try lia.
      exists blocks', k. split; [done|]. split; [done|]. lia.
    + constructor; simpl; rewrite ?length_insert; try done; reader_moves H;
        count_queues; try lia.
      exists [], k'. split; [done|]. split; [constructor | done].
  - (* a reader's put *)
    destruct item as [r|]; simpl.
    + constructor; simpl; rewrite ?length_insert; try done; reader_moves H;
        count_queues; try lia.
      exists blocks, k. split; [done|]. split; [done|]. intros ?. apply Hnone. lia.
    + constructor; simpl; rewrite ?length_insert; try done; reader_moves H;
        count_queues; try lia.
      * exists blocks, k. split; [done|]. split; [done|]. intros ?. apply Hnone. lia.
      * right; right. by rewrite app_assoc, last_snoc.
  - (* the consumer's get *)
    constructor; simpl; try done.
    + count_queues. lia.
    + eauto.
    + count_queues. lia.
    + by rewrite <- app_assoc.
Qed.

Lemma invariant_reachable (jobs : list Block) (p : pipeline) :
  Forall (λ b, completes b = true) jobs →
  rtc step (opened_r self jobs) p → invariant jobs p.
Proof.
  intros Hjobs Hrun.
  apply invariant_opened_r in Hjobs.
  induction Hrun as [|p q r Hstep _ IH]; [done|].
  apply IH. by eapply step_invariant.
Qed.

Lemma empty_outqueue_has_room : outqueue_has_room self [] = true.
Proof.
  unfold outqueue_has_room, has_room.
  rewrite orb_true_iff, Z.leb_le, Z.ltb_lt. simpl. lia.
Qed.

(** A reader waiting in [get] after [close()] has put its sentinels finds
    something in the input queue. *)
Lemma waiting_reader_is_served (jobs : list Block) inq outq rs c got (i : nat) :
  invariant jobs (mkPipeline inq outq rs c got) →
  pending (reader_count self) c = 0%nat →
  rs !! i = Some AtGet →
  ∃ p', step (mkPipeline inq outq rs c got) p'.
Proof.
  intros [Hlen Hin _ _ _ _ _ _] Hpend Hi. simpl in *.
  pose proof (count_lt_length took_sentinel rs i AtGet Hi eq_refl) as Hlt.
  destruct inq as [|entry inq].
  - unfold sentinels, count in *. simpl in *. lia.
  - eexists. by apply step_reader_get with (i := i).
Qed.

(** While the consumer keeps calling [get], the threads are never stuck
    before everything has been delivered. *)
Lemma progress (jobs : list Block) (p : pipeline) :
  invariant jobs p →
  (∃ p', step p p') ∨ delivered (reader_count self) jobs p.
Proof.
  intros Hinv. destruct p as [inq outq rs c got].
  destruct outq as [|item outq]; [|left; eexists; apply step_get].
  assert (Hput : ∀ i item, rs !! i = Some (AtPut item) →
                 ∃ p', step (mkPipeline inq [] rs c got) p').
  { intros i item Hi. eexists. eapply step_reader_put; [exact Hi|].
    apply empty_outqueue_has_room. }
  destruct c as [[|block jobs']|[|k]|i|].
  - left. eexists. apply step_close.
  - left. eexists. apply step_read.
  - left. eexists. apply step_close_join_begin.
  - left. eexists. apply step_close_put.
  - left. destruct (rs !! i) as [pc|] eqn:Hi.
    + destruct pc as [|item| |e].
      * by eapply waiting_reader_is_served.
      * by eapply Hput.
      * eexists. by eapply step_close_join.
      * eexists. by eapply step_close_join.
    + eexists. apply step_close_end. by apply lookup_ge_None.
  - destruct (count is_working rs) as [|w] eqn:Hw.
    + right.
      destruct Hinv as [Hlen Hin Hout Halive (blocks & k & Hq & Hall & Hnone) Hrem Hjobs Hlast].
      simpl in *.
      pose proof (readers_partition rs) as Hpart.
      assert (Hfin : count is_finished rs = length rs) by lia.
      pose proof (all_finished rs Hfin) as Hrs.
      pose proof (took_sentinel_le_finished_or_putting rs) as Htook.
      pose proof (count_le_length took_sentinel rs) as Htook'.
      unfold delivered; simpl.
      split; [done|]. split; [by rewrite <- Hlen|]. split; [done|].
      split; [unfold sentinels, count in *; simpl in *; lia|].
      intros Hn.
      assert (Hblocks : blocks = []) by (apply Hnone; lia).
      subst blocks. simpl in Hq.
      pose proof Hin as Hk. rewrite Hq, sentinels_replicate in Hk.
      assert (k = 0%nat) as -> by lia. simpl in Hq. subst inq.
      split; [done|]. split.
      * assert (Hheld : count holds_result rs = 0%nat).
        { rewrite Hrs. unfold count. rewrite total_replicate. unfold indicator; simpl. lia. }
        unfold results, count in *. simpl in *. lia.
      * rewrite app_nil_r in Hlast. destruct Hlast as [?|[->|?]]; [lia| |done].
        unfold sentinels, count in *. simpl in *. lia.
    + left.
      destruct (count_pos_lookup is_working rs ltac:(lia)) as (i & pc & Hi & Hpc).
      destruct pc as [|item| |e]; try done.
      * by eapply waiting_reader_is_served.
      * by eapply Hput.
Qed.

(** Once everything has been delivered no thread moves any more: nothing
    else reaches the consumer. *)
Lemma delivered_quiescent (jobs : list Block) (p : pipeline) :
  delivered (reader_count self) jobs p → quiescent hash_hexdigest self source_file p.
Proof.
  intros (Hc & Hrs & Hout & _) p' Hstep.
  inversion Hstep; subst; simpl in *; try done.
  - rewrite Hrs in H. apply lookup_replicate in H as [? _]. done.
  - rewrite Hrs in H. apply lookup_replicate in H as [? _]. done.
Qed.

Lemma close_invariant_opened_r (jobs : list Block) :
  close_invariant (reader_count self) (opened_r self jobs).
Proof.
  constructor; simpl;
    unfold sentinels, results, count; rewrite ?total_replicate;
    unfold indicator; simpl; try lia; try done.
  apply length_replicate.
Qed.

Lemma joined_insert (c : caller_pc) (rs : list reader_pc) (i : nat) (pc x : reader_pc) :
  joined c rs → rs !! i = Some pc → ¬ ended pc → joined c (<[i := x]> rs).
Proof.
  intros Hj Hi Hpc. destruct c as [jobs|k|k|]; simpl in *; try done.
  - intros j pc' Hlt Hj'. destruct (decide (j = i)) as [->|Hne].
    + destruct Hpc. by apply (Hj i pc).
    + rewrite list_lookup_insert_ne in Hj' by done. by apply (Hj j pc').
  - destruct Hpc. rewrite Forall_lookup in Hj. by apply (Hj i pc).
Qed.

Lemma at_get_not_ended : ¬ ended AtGet.
Proof. by intros [?|[? ?]]. Qed.

Lemma at_put_not_ended (item : option result) : ¬ ended (AtPut item).
Proof. by intros [?|[? ?]]. Qed.

Lemma terminated_ended (pc : reader_pc) : terminated pc = true → ended pc.
Proof. destruct pc; try done; intros _; [by left | right; by eexists]. Qed.

(** Every step preserves what [close()] relies on, whatever the blocks. *)
Lemma step_close_invariant (p p' : pipeline) :
  close_invariant (reader_count self) p → step p p' →
  close_invariant (reader_count self) p'.
Proof.
  intros [Hlen Hin Hout Hjoin] Hstep.
  inversion Hstep; subst; clear Hstep; simpl in *.
  - constructor; simpl; try done. count_queues. lia.
  - constructor; simpl; try done. lia.
  - constructor; simpl; try done. count_queues. lia.
  - constructor; simpl; try done. intros j pc Hj. lia.
  - constructor; simpl; try done. intros j pc' Hj Hpc'.
    destruct (decide (j = i)) as [->|Hne].
    + rewrite H in Hpc'. injection Hpc' as <-. by apply terminated_ended.
    + apply (Hjoin j pc'); [lia | done].
  - constructor; simpl; try done. apply Forall_lookup. intros j pc Hj.
    apply (Hjoin j pc); [|done]. apply lookup_lt_Some in Hj. lia.
  - pose proof (joined_insert c rs i AtGet (after_get entry) Hjoin H at_get_not_ended).
    destruct entry as [block|]; simpl in *;
      [destruct (_reader_job _ _ _ _)|];
      constructor; simpl; rewrite ?length_insert; try done; reader_moves H;
      count_queues; lia.
  - pose proof (joined_insert c rs i (AtPut item) (after_put item) Hjoin H
                  (at_put_not_ended item)).
    destruct item as [r|]; simpl in *;
      constructor; simpl; rewrite ?length_insert; try done; reader_moves H;
      count_queues; lia.
  - constructor; simpl; try done. count_queues. lia.
Qed.

Lemma close_invariant_reachable (jobs : list Block) (p : pipeline) :
  rtc step (opened_r self jobs) p → close_invariant (reader_count self) p.
Proof.
  intros Hrun. pose proof (close_invariant_opened_r jobs) as Hinit.
  induction Hrun as [|p q r Hstep _ IH]; [done|].
  apply IH. by eapply step_close_invariant.
Qed.

(** While the consumer keeps calling [get], some thread can move until
    [close()] has returned and the output queue is empty, whatever the
    blocks. *)
Lemma progress_always (p : pipeline) :
  close_invariant (reader_count self) p →
  (∃ p', step p p') ∨ (caller p = Closed ∧ _outqueue p = []).
Proof.
  intros [Hlen Hin Hout Hjoin]. destruct p as [inq outq rs c got]; simpl in *.
  destruct outq as [|item outq]; [|left; eexists; apply step_get].
  destruct c as [[|block jobs']|[|k]|i|].
  - left. eexists. apply step_close.
  - left. eexists. apply step_read.
  - left. eexists. apply step_close_join_begin.
  - left. eexists. apply step_close_put.
  - left. destruct (rs !! i) as [pc|] eqn:Hi.
    + destruct pc as [|item| |e].
      * pose proof (count_lt_length took_sentinel rs i AtGet Hi eq_refl) as Hlt.
        destruct inq as [|entry inq].
        -- unfold sentinels, count in *. simpl in *. lia.
        -- eexists. by apply step_reader_get with (i := i).
      * eexists. eapply step_reader_put; [exact Hi | apply empty_outqueue_has_room].
      * eexists. by eapply step_close_join.
      * eexists. by eapply step_close_join.
    + eexists. apply step_close_end. by apply lookup_ge_None.
  - by right.
Qed.

(** After [close()] has returned and the consumer has emptied the output
    queue, nothing moves any more. *)
Lemma closed_quiescent (p : pipeline) :
  caller p = Closed → Forall ended (_reader_threads p) → _outqueue p = [] →
  quiescent hash_hexdigest self source_file p.
Proof.
  intros Hc Hrs Hout p' Hstep. rewrite Forall_lookup in Hrs.
  inversion Hstep; subst; simpl in *; try done.
  - by destruct (at_get_not_ended (Hrs i AtGet H)).
  - by destruct (at_put_not_ended item (Hrs i (AtPut item) H)).
Qed.

(** With one reader the results all come before the sentinel. *)
Lemma delivered_single_reader (jobs : list Block) (p : pipeline) :
  delivered 1 jobs p →
  ∃ rs, consumed p = (Some <$> rs) ++ [None] ∧ length rs = length jobs.
Proof.
  intros (_ & _ & _ & Hs & Hrest).
  destruct (Hrest ltac:(lia)) as (_ & Hres & Hlast).
  apply last_Some in Hlast as [l Hl]. rewrite Hl in *.
  unfold sentinels in Hs. rewrite count_app in Hs.
  unfold results in Hres. rewrite count_app in Hres.
  destruct (no_sentinels l) as [rs ->].
  { unfold sentinels. unfold count, indicator in *. simpl in *. lia. }
  exists rs. split; [done|].
  fold (results (Some <$> rs)) in Hres. rewrite results_blocks in Hres.
  unfold count, indicator in Hres. simpl in Hres. lia.
Qed.

End PipelineRuns.

(** A run of the sample engine: two reads are submitted, the engine is
    closed, the reader works through the queue and the consumer drains the
    output. *)
Lemma sample_run :
  rtc (FileIO.step sample_hexdigest sample_io sample_file)
      (FileIO.opened_r sample_io sample_jobs) sample_delivered.
Proof.
  unfold sample_jobs, FileIO.opened_r.
  eapply rtc_l; [apply FileIO.step_read|].
  eapply rtc_l; [apply FileIO.step_read|].
  eapply rtc_l; [apply FileIO.step_close|].
  eapply rtc_l; [apply FileIO.step_close_put|].
  eapply rtc_l; [apply FileIO.step_close_join_begin|].
  eapply rtc_l; [by apply FileIO.step_reader_get with (i := 0%nat)|].
  eapply rtc_l; [by apply FileIO.step_reader_put with (i := 0%nat) (item := Some sample_result_0)|].
  eapply rtc_l; [by apply FileIO.step_reader_get with (i := 0%nat)|].
  eapply rtc_l; [by apply FileIO.step_reader_put with (i := 0%nat) (item := Some sample_result_1)|].
  eapply rtc_l; [by apply FileIO.step_reader_get with (i := 0%nat)|].
  eapply rtc_l; [by apply FileIO.step_reader_put with (i := 0%nat) (item := None)|].
  eapply rtc_l; [apply FileIO.step_get|].
  eapply rtc_l; [apply FileIO.step_get|].
  eapply rtc_l; [apply FileIO.step_get|].
  eapply rtc_l; [by eapply FileIO.step_close_join|].
  eapply rtc_l; [by apply FileIO.step_close_end|].
  apply rtc_refl.
Qed.

(** The sample run ends with everything delivered: two results, then the
    sentinel of the one reader. *)
Example sample_run_delivers :
  FileIO.delivered (FileIO.reader_count sample_io) sample_jobs sample_delivered.
Proof. repeat split. Qed.


(** With two readers the sentinel of one reader can reach the consumer
    before the result the other reader is still working on; the stream
    still carries one sentinel per reader and ends with a sentinel. *)
Example sample_run_two_readers :
  rtc (FileIO.step sample_hexdigest sample_io_2 sample_file)
      (FileIO.opened_r sample_io_2 [sample_block_0]) sample_delivered_2
  ∧ FileIO.delivered (FileIO.reader_count sample_io_2) [sample_block_0]
      sample_delivered_2.
Proof.
  split; [|repeat split].
  unfold FileIO.opened_r.
  eapply rtc_l; [apply FileIO.step_read|].
  eapply rtc_l; [apply FileIO.step_close|].
  eapply rtc_l; [apply FileIO.step_close_put|].
  eapply rtc_l; [apply FileIO.step_close_put|].
  eapply rtc_l; [apply FileIO.step_close_join_begin|].
  eapply rtc_l; [by apply FileIO.step_reader_get with (i := 0%nat)|].
  eapply rtc_l; [by apply FileIO.step_reader_get with (i := 1%nat)|].
  eapply rtc_l; [by apply FileIO.step_reader_put with (i := 1%nat) (item := None)|].
  eapply rtc_l; [by apply FileIO.step_reader_put with (i := 0%nat) (item := Some sample_result_0)|].
  eapply rtc_l; [by apply FileIO.step_reader_get with (i := 0%nat)|].
  eapply rtc_l; [by apply FileIO.step_reader_put with (i := 0%nat) (item := None)|].
  eapply rtc_l; [apply FileIO.step_get|].
  eapply rtc_l; [apply FileIO.step_get|].
  eapply rtc_l; [apply FileIO.step_get|].
  eapply rtc_l; [by eapply FileIO.step_close_join|].
  eapply rtc_l; [by eapply FileIO.step_close_join|].
  eapply rtc_l; [by apply FileIO.step_close_end|].
  apply rtc_refl.
Qed.

(** A run of one reader over a block that cannot be read: the reader dies
    on the job, [close()] still returns, and the run ends there. *)
Lemma sample_run_reader_dies :
  rtc (FileIO.step sample_hexdigest sample_io sample_file)
      (FileIO.opened_r sample_io [sample_block_2]) sample_reader_died.
Proof.
  unfold FileIO.opened_r.
  eapply rtc_l; [apply FileIO.step_read|].
  eapply rtc_l; [apply FileIO.step_close|].
  eapply rtc_l; [apply FileIO.step_close_put|].
  eapply rtc_l; [apply FileIO.step_close_join_begin|].
  eapply rtc_l; [by apply FileIO.step_reader_get with (i := 0%nat)|].
  eapply rtc_l; [by eapply FileIO.step_close_join|].
  eapply rtc_l; [by apply FileIO.step_close_end|].
  apply rtc_refl.
Qed.


(** * Further properties of the S3 data backend *)

Section RemovalMore.
Import S3.
Variable head_fault : string → option string.
Hypothesis no_head_fault : ∀ key, head_fault key = None.

Lemma rm_stored (uid : string) (st : DataBackend) :
  is_Some (bucket st !! uid) →
  rm head_fault uid st = Returned () (set_bucket (delete uid (bucket st)) st).
Proof.
  intros [data Hdata]. unfold rm, obj_load. by rewrite Hdata, no_head_fault.
Qed.

Lemma rm_missing (uid : string) (st : DataBackend) :
  bucket st !! uid = None →
  rm head_fault uid st = Raised (FileNotFoundError (key_not_found uid)) st.
Proof.
  intros Hnone. unfold rm, obj_load. by rewrite Hnone.
Qed.

Lemma bucket_set_bucket b (st : DataBackend) : bucket (set_bucket b st) = b.
Proof. by destruct st. Qed.

(** When the provider answers every HEAD, [rm_many] returns exactly when
    the uids are distinct and all stored, and then those objects and no
    others are gone; otherwise it raises the missing-key error of the first
    uid that is not stored or that it has deleted itself, after deleting the
    uids before that one. *)
Theorem rm_many_spec (uids : list string) (st : DataBackend) :
  match rm_many head_fault uids st with
  | Returned v st' =>
      v = PyNone ∧ NoDup uids
      ∧ (∀ uid, uid ∈ uids → is_Some (bucket st !! uid))
      ∧ (∀ key, bucket st' !! key
                = if bool_decide (key ∈ uids) then None else bucket st !! key)
  | Raised e st' =>
      ∃ before uid after,
        uids = before ++ uid :: after
        ∧ e = FileNotFoundError (key_not_found uid)
        ∧ NoDup before
        ∧ (∀ u, u ∈ before → is_Some (bucket st !! u))
        ∧ (uid ∈ before ∨ bucket st !! uid = None)
        ∧ (∀ key, bucket st' !! key
                  = if bool_decide (key ∈ before) then None else bucket st !! key)
  | Waits _ => False
  end.
Proof.
  revert st. induction uids as [|uid uids IH]; intros st; simpl.
  - split; [done|]. split; [constructor|]. split; [by intros ? ?%elem_of_nil|].
    intros key. by rewrite ?bool_decide_eq_false_2 by apply not_elem_of_nil.
  - destruct (bucket st !! uid) as [data|] eqn:Hdata.
    + rewrite rm_stored by eauto.
      specialize (IH (set_bucket (delete uid (bucket st)) st)).
      assert (Hkeep : ∀ (l : list string) u,
                (∀ u', u' ∈ l → is_Some (bucket (set_bucket (delete uid (bucket st)) st) !! u')) →
                u ∈ uid :: l → is_Some (bucket st !! u)).
      { intros l u Hall [->|Hin]%elem_of_cons; [eauto|].
        destruct (Hall u Hin) as [d Hd].
        rewrite bucket_set_bucket in Hd.
        apply lookup_delete_Some in Hd as [_ Hd]. eauto. }
      assert (Hfresh : ∀ l : list string,
                (∀ u', u' ∈ l → is_Some (bucket (set_bucket (delete uid (bucket st)) st) !! u')) →
                uid ∉ l).
      { intros l Hall Hin. destruct (Hall uid Hin) as [d Hd].
        by rewrite bucket_set_bucket, lookup_delete_eq in Hd. }
      assert (Hgone : ∀ (l : list string) (b' : gmap string bytes),
                (∀ key, b' !! key = if bool_decide (key ∈ l) then None
                                    else bucket (set_bucket (delete uid (bucket st)) st) !! key) →
                ∀ key, b' !! key = if bool_decide (key ∈ uid :: l) then None
                                   else bucket st !! key).
      { intros l b' Hlook key. rewrite Hlook, bucket_set_bucket.
        destruct (decide (key = uid)) as [->|Hne].
        - rewrite (bool_decide_eq_true_2 (uid ∈ uid :: l)) by left.
          rewrite lookup_delete_eq. by destruct (bool_decide _).
        - rewrite lookup_delete_ne by done.
          destruct (decide (key ∈ l)) as [Hin|Hnin].
          + rewrite !bool_decide_eq_true_2; [done | by right | done].
          + rewrite !bool_decide_eq_false_2; [done | | done].
            by intros [?|?]%elem_of_cons. }
      destruct (rm_many head_fault uids _) as [v st'|e st'|st']; [| |done].
      * destruct IH as (-> & Hnodup & Hall & Hlook).
        split; [done|]. split; [constructor; eauto|].
        split; [intros u; by apply Hkeep | by apply Hgone].
      * destruct IH as (before & u & after & -> & -> & Hnodup & Hall & Hu & Hlook).
        exists (uid :: before), u, after.
        split; [done|]. split; [done|]. split; [constructor; eauto|].
        split; [intros u'; by apply Hkeep|].
        split; [|by apply Hgone].
        destruct Hu as [Hu|Hu]; [left; by right|].
        rewrite bucket_set_bucket in Hu.
        apply lookup_delete_None in Hu as [->|Hu]; [left; by left | by right].
    + rewrite rm_missing by done.
      exists [], uid, uids.
      split; [done|]. split; [done|]. split; [constructor|].
      split; [by intros ? ?%elem_of_nil|]. split; [by right|].
      intros key. by rewrite ?bool_decide_eq_false_2 by apply not_elem_of_nil.
Qed.
End RemovalMore.

(** Witness: the same uid given twice; the second deletion finds it gone. *)
Lemma rm_many_spec_witness :
  let st := S3.set_bucket (<["kept"%string := [Byte.x2a]]> ∅) (fresh_backend 1 1) in
  let st' := S3.set_bucket (delete "kept"%string (S3.bucket st)) st in
  ∃ before uid after,
    ["kept"%string; "kept"%string] = before ++ uid :: after
    ∧ FileNotFoundError (S3.key_not_found "kept") = FileNotFoundError (S3.key_not_found uid)
    ∧ NoDup before
    ∧ (∀ u, u ∈ before → is_Some (S3.bucket st !! u))
    ∧ (uid ∈ before ∨ S3.bucket st !! uid = None)
    ∧ (∀ key, S3.bucket st' !! key
              = if bool_decide (key ∈ before) then None else S3.bucket st !! key).
Proof.
  intros st st'.
  exact (rm_many_spec (λ _, None) (λ _, eq_refl) ["kept"%string; "kept"%string] st).
Defined.

Section ReadRawRetry.
Import S3.

Lemma read_raw_loop_transient (block_uid : string) (e : exn)
    (answers : list get_answer) (log : list string) :
  is_transient e = true →
  ∃ line,
    read_raw_loop block_uid (Fails e :: answers) log
      = read_raw_loop block_uid answers (log ++ [line]).
Proof. destruct e; try done; intros _; eexists; reflexivity. Qed.

Lemma read_raw_loop_missing_after_transient (block_uid : string) (errors : list exn)
    (code : string) (after : list get_answer) (log : list string) :
  Forall (λ e, is_transient e = true) errors →
  is_missing_key code = true →
  (read_raw_loop block_uid ((Fails <$> errors) ++ Fails (ClientError code) :: after) log).2
  = Raise (NameError "key").
Proof.
  intros Herrors Hcode. revert log.
  induction Herrors as [|e errors He _ IH]; intros log.
  - simpl. by rewrite Hcode.
  - destruct (read_raw_loop_transient block_uid e
                ((Fails <$> errors) ++ Fails (ClientError code) :: after) log He)
      as [line Hline].
    change ((Fails <$> e :: errors) ++ Fails (ClientError code) :: after)
      with (Fails e :: (Fails <$> errors) ++ Fails (ClientError code) :: after).
    rewrite Hline. apply IH.
Qed.

(** Any run of timeouts and OS errors in front of the provider's answers
    is retried away: [read_raw] logs one line for each and goes on with the
    answers that follow, however many failures there were. *)
Theorem read_raw_retries_transient (block_uid : string) (errors : list exn)
    (answers : list get_answer) (log : list string) :
  Forall (λ e, is_transient e = true) errors →
  ∃ lines,
    length lines = length errors
    ∧ read_raw_loop block_uid ((Fails <$> errors) ++ answers) log
      = read_raw_loop block_uid answers (log ++ lines).
Proof.
  intros Herrors. revert log.
  induction Herrors as [|e errors He _ IH]; intros log.
  - exists []. by rewrite app_nil_r.
  - destruct (read_raw_loop_transient block_uid e ((Fails <$> errors) ++ answers) log He)
      as [line Hline].
    destruct (IH (log ++ [line])) as (lines & Hlen & Hrest).
    exists (line :: lines). split; [simpl; by rewrite Hlen|].
    change ((Fails <$> e :: errors) ++ answers)
      with (Fails e :: (Fails <$> errors) ++ answers).
    rewrite Hline, Hrest. by rewrite <- app_assoc.
Qed.
End ReadRawRetry.

(** Witness: two timeouts and a reset connection, then the object. *)
Lemma read_raw_retries_transient_witness :
  ∃ lines,
    length lines = 3%nat
    ∧ S3.read_raw_loop "6f1ed002abR7hfjuZ8kLNsxW3pqYtC29"
        ((S3.Fails <$> [SocketTimeout; OSError "Connection reset by peer"; SocketTimeout])
         ++ [S3.Body [Byte.x68; Byte.x69]]) []
      = S3.read_raw_loop "6f1ed002abR7hfjuZ8kLNsxW3pqYtC29"
          [S3.Body [Byte.x68; Byte.x69]] ([] ++ lines).
Proof.
  apply (read_raw_retries_transient "6f1ed002abR7hfjuZ8kLNsxW3pqYtC29"
           [SocketTimeout; OSError "Connection reset by peer"; SocketTimeout]).
  repeat constructor.
Defined.

Section ReaderThread.
Import S3.
Variable get_answers : string → list get_answer.

(** A missing key ends the reader thread: when the provider answers the
    block's uid with [NoSuchKey] or [404], after any number of timeouts, the
    pass of [_reader] ends the thread with the [NameError] of [read_raw];
    the block has left the read queue, is not marked done, and nothing is
    put on the read-data queue. *)
Theorem reader_dies_on_missing_key (i : nat) (st : DataBackend) (block : Block)
    (rest : list (option Block)) (errors : list exn) (code : string)
    (after : list get_answer) :
  _reader_threads st !! i = Some Running →
  items (_read_queue st) = Some block :: rest →
  fatal_error st = None →
  Forall (λ e, is_transient e = true) errors →
  is_missing_key code = true →
  get_answers (uid block) = (Fails <$> errors) ++ Fails (ClientError code) :: after →
  ∃ st',
    _reader_iter get_answers i st = Some st'
    ∧ _reader_threads st' = <[i := Died (NameError "key")]> (_reader_threads st)
    ∧ items (_read_queue st') = rest
    ∧ unfinished_tasks (_read_queue st') = unfinished_tasks (_read_queue st)
    ∧ _read_data_queue st' = _read_data_queue st.
Proof.
  intros Hrun Hq Hfatal Herrors Hcode Hanswers.
  assert (Hraw : (read_raw get_answers (uid block)).2 = Raise (NameError "key")).
  { unfold read_raw. rewrite Hanswers.
    by apply read_raw_loop_missing_after_transient. }
  unfold _reader_iter. rewrite Hrun, Hq.
  destruct st as [f wq rq rdq b wt rt u]; simpl in *. subst f.
  rewrite Hraw. eexists. split; [reflexivity|]. by simpl.
Qed.
End ReaderThread.

(** Witness: one reader, one queued block, and a provider that times out
    once and then reports the key as missing. *)
Lemma reader_dies_on_missing_key_witness :
  let block := mkBlock 7 "6f1ed002abR7hfjuZ8kLNsxW3pqYtC29" true in
  let answers := λ _ : string,
    [S3.Fails SocketTimeout; S3.Fails (ClientError "404")] in
  let st := S3.set_read_queue (enqueue (Some block) (new_queue 0)) (fresh_backend 1 1) in
  ∃ st',
    S3._reader_iter answers 0 st = Some st'
    ∧ S3._reader_threads st' = <[0%nat := S3.Died (NameError "key")]> (S3._reader_threads st)
    ∧ items (S3._read_queue st') = []
    ∧ unfinished_tasks (S3._read_queue st') = unfinished_tasks (S3._read_queue st)
    ∧ S3._read_data_queue st' = S3._read_data_queue st.
Proof.
  intros block answers st.
  apply (reader_dies_on_missing_key answers 0 st block [] [SocketTimeout] "404" []);
    try reflexivity.
  repeat constructor.
Defined.

Section Listing.
Import S3.

(** [get_all_blob_uids] lists each stored key once, and with a prefix
    exactly the stored keys that start with it. *)
Theorem get_all_blob_uids_spec (prefix : option string) (st : DataBackend) :
  NoDup (get_all_blob_uids prefix st)
  ∧ ∀ key,
      key ∈ get_all_blob_uids prefix st
      ↔ is_Some (bucket st !! key)
        ∧ match prefix with
          | None => True
          | Some p => String.prefix p key = true
          end.
Proof.
  assert (Hkeys : ∀ key, key ∈ (map_to_list (bucket st)).*1 ↔ is_Some (bucket st !! key)).
  { intros key. rewrite list_elem_of_fmap. split.
    - intros ([k d] & -> & Hin). apply elem_of_map_to_list in Hin. eauto.
    - intros [d Hd]. exists (key, d). split; [done|]. by apply elem_of_map_to_list. }
  unfold get_all_blob_uids. destruct prefix as [p|].
  - split; [apply NoDup_filter, NoDup_fst_map_to_list|].
    intros key. rewrite list_elem_of_filter, Hkeys. tauto.
  - split; [apply NoDup_fst_map_to_list|].
    intros key. rewrite Hkeys. tauto.
Qed.
End Listing.

Section SaveRoundTrip.
Import S3.
Variable md5 : bytes → bytes.
Variable uuid4 : nat → Z.
Variable put_fault : string → bytes → option exn.
Hypothesis no_put_fault : ∀ key data, put_fault key data = None.

(** The objects a list of upload jobs leaves in a bucket. *)
Local Abbreviation stored := (foldl (λ (b : gmap string bytes) (job : string * bytes),
                                  <[job.1 := job.2]> b)).

Lemma first_running_writer (threads : list worker) (i : nat) :
  threads !! i = Some Running →
  ∃ j, list_find (λ w, is_running w = true) threads = Some (j, Running).
Proof.
  intros Hi.
  destruct (list_find (λ w, is_running w = true) threads) as [[j w]|] eqn:Hfind.
  - apply list_find_Some in Hfind as (_ & Hw & _). destruct w; try done. eauto.
  - apply list_find_None in Hfind.
    apply list_elem_of_lookup_2 in Hi.
    rewrite Forall_forall in Hfind. by destruct (Hfind Running Hi).
Qed.

(** A pass of the first running writer over an upload job stores it. *)
Lemma writers_iter_stores (st : DataBackend) (i : nat) (key : string) (data : bytes)
    (rest : list (option (string * bytes))) :
  fatal_error st = None →
  _writer_threads st !! i = Some Running →
  items (_write_queue st) = Some (key, data) :: rest →
  ∃ st1,
    writers_iter put_fault st = Some st1
    ∧ fatal_error st1 = None
    ∧ _writer_threads st1 = _writer_threads st
    ∧ items (_write_queue st1) = rest
    ∧ unfinished_tasks (_write_queue st1) = pred (unfinished_tasks (_write_queue st))
    ∧ bucket st1 = <[key := data]> (bucket st).
Proof.
  intros Hf Hrun Hq.
  destruct (first_running_writer _ _ Hrun) as [j Hj].
  pose proof Hj as Hjj. apply list_find_Some in Hjj as (Hjrun & _ & _).
  unfold writers_iter, _writer_iter. rewrite Hj, Hjrun, Hq.
  destruct st as [f wq rq rdq b wt rt u]; simpl in *. subst f.
  rewrite no_put_fault. eexists. split; [reflexivity|]. by simpl.
Qed.

(** While a writer runs and the provider accepts every upload, waiting in
    [join] ends with the queue drained and every queued job stored. *)
Lemma write_queue_join_drains (jobs : list (string * bytes)) (st : DataBackend)
    (i fuel : nat) :
  fatal_error st = None →
  _writer_threads st !! i = Some Running →
  items (_write_queue st) = Some <$> jobs →
  unfinished_tasks (_write_queue st) = length jobs →
  (length jobs ≤ fuel)%nat →
  ∃ st',
    write_queue_join put_fault fuel st = Some st'
    ∧ bucket st' = stored (bucket st) jobs
    ∧ items (_write_queue st') = []
    ∧ unfinished_tasks (_write_queue st') = 0%nat
    ∧ fatal_error st' = None
    ∧ _writer_threads st' = _writer_threads st.
Proof.
  revert st fuel. induction jobs as [|[key data] jobs IH]; intros st fuel Hf Hrun Hq Hu Hfuel.
  - exists st. destruct fuel; simpl; rewrite Hu; by repeat split.
  - destruct fuel as [|fuel]; [simpl in Hfuel; lia|].
    destruct (writers_iter_stores st i key data _ Hf Hrun Hq)
      as (st1 & Hiter & Hf1 & Hw1 & Hq1 & Hu1 & Hb1).
    destruct (IH st1 fuel) as (st' & Hjoin & Hb & Hq' & Hu' & Hf' & Hw');
      [done | by rewrite Hw1 | done | rewrite Hu1, Hu; simpl; lia | simpl in Hfuel; lia |].
    exists st'. simpl. rewrite Hu. simpl. rewrite Hiter, Hjoin.
    split; [done|]. split; [by rewrite Hb, Hb1|]. by rewrite Hw', Hw1.
Qed.

(** Round trip through the store.  On an engine that is not poisoned,
    with a running writer, a provider that accepts uploads, and a write
    queue with room that holds upload jobs only, each still to be marked
    done: a synchronous [save] returns its uid with the queue drained and
    the data stored under that uid; a provider answering from the bucket
    then hands [read_raw] exactly those data, and the uid is listed. *)
Theorem save_then_read_raw (data : bytes) (st : DataBackend)
    (jobs : list (string * bytes)) (i : nat) :
  fatal_error st = None →
  _writer_threads st !! i = Some Running →
  items (_write_queue st) = Some <$> jobs →
  unfinished_tasks (_write_queue st) = length jobs →
  has_room (_write_queue st) = true →
  let uid := (_uid md5 uuid4 st).1 in
  ∃ st',
    save md5 uuid4 put_fault data true st = Returned uid st'
    ∧ bucket st' !! uid = Some data
    ∧ items (_write_queue st') = []
    ∧ read_raw (honest_answers (bucket st')) uid = ([], Got data)
    ∧ uid ∈ get_all_blob_uids None st'.
Proof.
  intros Hf Hrun Hq Hu Hroom uid.
  set (st1 := set_uuid4_drawn (S (uuid4_drawn st)) st).
  set (st2 := set_write_queue (enqueue (Some (uid, data)) (_write_queue st1)) st1).
  assert (Hq1 : _write_queue st1 = _write_queue st) by (by destruct st).
  assert (Hq2 : _write_queue st2 = enqueue (Some (uid, data)) (_write_queue st))
    by (by destruct st).
  assert (Hsave : save md5 uuid4 put_fault data true st
                  = match write_queue_join put_fault
                            (S (length (items (_write_queue st2)))) st2 with
                    | Some st' => Returned uid st'
                    | None => Waits st2
                    end).
  { unfold save, write_queue_put. rewrite Hf.
    change (_uid md5 uuid4 st) with (uid, st1). cbv beta iota.
    assert (Hroom1 : has_room (_write_queue st1) = true) by (by rewrite Hq1).
    by rewrite Hroom1. }
  destruct (write_queue_join_drains (jobs ++ [(uid, data)]) st2 i
              (S (length (items (_write_queue st2)))))
    as (st' & Hjoin & Hb & Hitems & _).
  - by destruct st.
  - by destruct st.
  - rewrite Hq2. simpl. by rewrite Hq, fmap_app.
  - rewrite Hq2. simpl. rewrite Hu, length_app. simpl. lia.
  - rewrite Hq2. simpl. rewrite Hq, !length_app, length_fmap. simpl. lia.
  - rewrite Hsave, Hjoin.
    assert (Hstored : bucket st' !! uid = Some data).
    { rewrite Hb, foldl_app. simpl. apply lookup_insert_eq. }
    exists st'. split; [done|]. split; [done|]. split; [done|]. split.
    + unfold read_raw, honest_answers. by rewrite Hstored.
    + unfold get_all_blob_uids. apply list_elem_of_fmap.
      exists (uid, data). split; [done|]. by apply elem_of_map_to_list.
Qed.
End SaveRoundTrip.

(** Witness: a fresh engine with one writer; the bytes of "hi" go in and
    come back. *)
Lemma save_then_read_raw_witness :
  let data := [Byte.x68; Byte.x69] in
  let st := fresh_backend 1 1 in
  let uid := (S3._uid toy_md5 (λ _, 2024) st).1 in
  ∃ st',
    S3.save toy_md5 (λ _, 2024) (λ _ _, None) data true st = S3.Returned uid st'
    ∧ S3.bucket st' !! uid = Some data
    ∧ items (S3._write_queue st') = []
    ∧ S3.read_raw (S3.honest_answers (S3.bucket st')) uid = ([], S3.Got data)
    ∧ uid ∈ S3.get_all_blob_uids None st'.
Proof.
  intros data st uid.
  apply (save_then_read_raw toy_md5 (λ _, 2024) (λ _ _, None) (λ _ _, eq_refl)
           data st [] 0); reflexivity.
Defined.

Section SaveSpec.
Import S3.
Variable md5 : bytes → bytes.
Variable uuid4 : nat → Z.
Variable put_fault : string → bytes → option exn.

Local Abbreviation stored := (foldl (λ (b : gmap string bytes) (job : string * bytes),
                                  <[job.1 := job.2]> b)).

(** A pass of a writer takes the entry at the head of the queue; it marks
    the entry done only when that is a job it has stored. *)
Lemma writers_iter_pass (st st' : DataBackend) :
  writers_iter put_fault st = Some st' →
  ∃ entry,
    items (_write_queue st) = entry :: items (_write_queue st')
    ∧ maxsize (_write_queue st') = maxsize (_write_queue st)
    ∧ fatal_error st' = fatal_error st
    ∧ uuid4_drawn st' = uuid4_drawn st
    ∧ ((∃ key data, entry = Some (key, data)
          ∧ bucket st' = <[key := data]> (bucket st)
          ∧ _writer_threads st' = _writer_threads st
          ∧ unfinished_tasks (_write_queue st') = pred (unfinished_tasks (_write_queue st)))
       ∨ (bucket st' = bucket st
          ∧ unfinished_tasks (_write_queue st') = unfinished_tasks (_write_queue st))).
Proof.
  unfold writers_iter, _writer_iter.
  destruct (list_find _ _) as [[i w]|]; [|done].
  destruct (_writer_threads st !! i) as [[| |]|]; try done.
  destruct (items (_write_queue st)) as [|entry rest] eqn:Hq; [done|].
  destruct st as [f wq rq rdq b wt rt u]; simpl in *.
  destruct entry as [[key data]|], f; simpl;
    try (intros [= <-]; eexists; simpl; repeat split; by right).
  destruct (put_fault key data); intros [= <-]; eexists; simpl; repeat split.
  - by right.
  - left. by exists key, data.
Qed.

(** Once an entry has left the queue without being marked done, [join]
    waits for ever. *)
Lemma write_queue_join_stuck (fuel : nat) (st : DataBackend) :
  (length (items (_write_queue st)) < unfinished_tasks (_write_queue st))%nat →
  write_queue_join put_fault fuel st = None.
Proof.
  revert st. induction fuel as [|fuel IH]; intros st Hlt; simpl;
    (destruct (unfinished_tasks (_write_queue st)) as [|n] eqn:Hu; [lia|]); [done|].
  destruct (writers_iter put_fault st) as [st1|] eqn:Hiter; [|done].
  apply IH.
  destruct (writers_iter_pass _ _ Hiter)
    as (entry & Hq & _ & _ & _ & [(key & data & _ & _ & _ & Hu1)|[_ Hu1]]);
    rewrite Hq in Hlt; simpl in Hlt; rewrite Hu1, Hu; simpl; lia.
Qed.

Lemma write_queue_join_drawn (fuel : nat) (st st' : DataBackend) :
  write_queue_join put_fault fuel st = Some st' → uuid4_drawn st' = uuid4_drawn st.
Proof.
  revert st. induction fuel as [|fuel IH]; intros st; simpl;
    (destruct (unfinished_tasks (_write_queue st)); [by intros [= <-]|]); [done|].
  destruct (writers_iter put_fault st) as [st1|] eqn:Hiter; [|done].
  intros Hjoin. rewrite (IH _ Hjoin).
  by destruct (writers_iter_pass _ _ Hiter) as (_ & _ & _ & _ & -> & _).
Qed.

(** When [join] returns, every entry of the queue was a job, and the
    writers have stored the jobs in queue order. *)
Lemma write_queue_join_returns (fuel : nat) (st st' : DataBackend) :
  write_queue_join put_fault fuel st = Some st' →
  (length (items (_write_queue st)) ≤ unfinished_tasks (_write_queue st))%nat →
  ∃ jobs,
    items (_write_queue st) = Some <$> jobs
    ∧ bucket st' = stored (bucket st) jobs
    ∧ items (_write_queue st') = []
    ∧ unfinished_tasks (_write_queue st') = 0%nat
    ∧ uuid4_drawn st' = uuid4_drawn st.
Proof.
  revert st. induction fuel as [|fuel IH]; intros st; simpl;
    (destruct (unfinished_tasks (_write_queue st)) as [|n] eqn:Hu;
     [intros [= <-] Hle; exists [];
      destruct (items (_write_queue st)); [done | simpl in Hle; lia] |]);
    [done|].
  destruct (writers_iter put_fault st) as [st1|] eqn:Hiter; [|done].
  intros Hjoin Hle.
  destruct (writers_iter_pass _ _ Hiter)
    as (entry & Hq & _ & _ & Hd1 & [(key & data & -> & Hb1 & _ & Hu1)|[_ Hu1]]).
  - destruct (IH st1 Hjoin) as (jobs & Hq1 & Hb & Hq' & Hu' & Hd').
    { rewrite Hq in Hle. simpl in Hle. rewrite Hu1, Hu. simpl. lia. }
    exists ((key, data) :: jobs). rewrite Hq, Hq1. simpl. rewrite <- Hb1.
    repeat split; try done. by rewrite Hd'.
  - rewrite write_queue_join_stuck in Hjoin; [done|].
    rewrite Hq in Hle. simpl in Hle. rewrite Hu1, Hu. lia.
Qed.

End SaveSpec.


Section UidInjective.
Import S3.
Variable md5 : bytes → bytes.
Variable uuid4 : nat → Z.
Hypothesis md5_length : ∀ m, length (md5 m) = 16%nat.

Lemma int_to_digits_value (k : nat) (n : Z) :
  0 ≤ n < alpha_len ^ Z.of_nat k → digits_value (int_to_digits k n) = n.
Proof.
  revert n. induction k as [|k IH]; intros n Hn.
  - simpl in *. lia.
  - simpl. destruct (Z.eqb_spec n 0) as [->|Hne]; [done|]. simpl.
    rewrite IH.
    + pose proof (Z.div_mod n alpha_len ltac:(done)). lia.
    + rewrite Nat2Z.inj_succ, Z.pow_succ_r in Hn by lia.
      split.
      * apply Z.div_pos; [lia | reflexivity].
      * apply Z.div_lt_upper_bound; [reflexivity | lia].
Qed.

Lemma digits_value_pad (digits : list Z) (m : nat) :
  digits_value (digits ++ replicate m 0) = digits_value digits.
Proof.
  induction digits as [|d digits IH]; simpl.
  - induction m as [|m IH]; simpl; [done | rewrite IH; lia].
  - by rewrite IH.
Qed.

Lemma alphabet_NoDup : NoDup alphabet.
Proof. apply (bool_decide_unpack _). by vm_compute. Qed.

Lemma alphabet_at_inj (d d' : Z) :
  0 ≤ d < alpha_len → 0 ≤ d' < alpha_len →
  alphabet_at d = alphabet_at d' → d = d'.
Proof.
  intros Hd Hd' Heq. unfold alphabet_at in Heq.
  assert (Hl : ∀ e, 0 ≤ e < alpha_len →
            alphabet !! Z.to_nat e = Some (nth (Z.to_nat e) alphabet (ascii_of_nat 0))).
  { intros e He.
    destruct (lookup_lt_is_Some_2 alphabet (Z.to_nat e)) as [x Hx];
      [unfold alpha_len in He; lia|].
    by rewrite (nth_lookup_Some _ _ _ _ Hx). }
  pose proof (Hl d Hd) as H1. pose proof (Hl d' Hd') as H2. rewrite Heq in H1.
  pose proof (NoDup_lookup _ _ _ _ alphabet_NoDup H1 H2). lia.
Qed.

Lemma alphabet_word_inj (ds ds' : list Z) :
  Forall (λ d, 0 ≤ d < alpha_len) ds → Forall (λ d, 0 ≤ d < alpha_len) ds' →
  map alphabet_at ds = map alphabet_at ds' → ds = ds'.
Proof.
  intros Hds. revert ds'. induction Hds as [|d ds Hd _ IH]; intros [|d' ds'] Hds' Heq;
    simpl in Heq; try done.
  apply Forall_cons in Hds' as [Hd' Hds']. injection Heq as Hhead Htail.
  f_equal; [by apply alphabet_at_inj | by apply IH].
Qed.

(** The base-57 rendering of a 128-bit number determines the number. *)
Lemma int_to_string_inj (u v : Z) :
  0 ≤ u < 2 ^ 128 → 0 ≤ v < 2 ^ 128 →
  int_to_string u 22 = int_to_string v 22 → u = v.
Proof.
  intros Hu Hv Heq. unfold int_to_string in Heq.
  apply (f_equal (@rev ascii)) in Heq. rewrite !rev_involutive in Heq.
  assert (H57 : 2 ^ 128 ≤ alpha_len ^ Z.of_nat 22) by (vm_compute; discriminate).
  assert (Hpad : ∀ w m, map alphabet_at (int_to_digits 128 w) ++ replicate m (alphabet_at 0)
                 = map alphabet_at (int_to_digits 128 w ++ replicate m 0)).
  { intros w m. rewrite map_app. f_equal.
    induction m as [|m IH]; simpl; [done | by rewrite IH]. }
  rewrite !Hpad, !length_map in Heq.
  apply alphabet_word_inj in Heq.
  - apply (f_equal digits_value) in Heq. rewrite !digits_value_pad in Heq.
    rewrite !(int_to_digits_fuel 22 128) in Heq by lia.
    by rewrite !int_to_digits_value in Heq by lia.
  - apply Forall_app. split; [apply int_to_digits_range; lia|].
    apply Forall_replicate. by vm_compute.
  - apply Forall_app. split; [apply int_to_digits_range; lia|].
    apply Forall_replicate. by vm_compute.
Qed.

(** With an MD5 digest of 16 bytes, two uids that [_uid] hands out are
    equal only if they were made from the same UUID: distinct UUIDs never
    collide. *)
Theorem uid_determines_uuid (st st' : DataBackend) :
  (_uid md5 uuid4 st).1 = (_uid md5 uuid4 st').1 →
  uuid4 (uuid4_drawn st) mod 2 ^ 128 = uuid4 (uuid4_drawn st') mod 2 ^ 128.
Proof.
  intros Heq.
  set (u := uuid4 (uuid4_drawn st) mod 2 ^ 128) in *.
  set (v := uuid4 (uuid4_drawn st') mod 2 ^ 128) in *.
  assert (Hu : 0 ≤ u < 2 ^ 128) by (apply Z.mod_pos_bound; reflexivity).
  assert (Hv : 0 ≤ v < 2 ^ 128) by (apply Z.mod_pos_bound; reflexivity).
  assert (Hprefix : ∀ w, length (list_ascii_of_string
             (substring 0 10 (hexdigest (md5 (encode_ascii (shortuuid_uuid w)))))) = 10%nat).
  { intros w. rewrite list_ascii_of_substring, length_take.
    destruct (hexdigest_shape (md5 (encode_ascii (shortuuid_uuid w)))) as [-> _].
    rewrite md5_length. reflexivity. }
  change ((substring 0 10 (hexdigest (md5 (encode_ascii (shortuuid_uuid u))))
           ++ shortuuid_uuid u)%string
          = (substring 0 10 (hexdigest (md5 (encode_ascii (shortuuid_uuid v))))
             ++ shortuuid_uuid v)%string) in Heq.
  apply (f_equal list_ascii_of_string) in Heq.
  rewrite !list_ascii_of_append in Heq.
  apply (f_equal (drop 10)) in Heq.
  rewrite !drop_app_length' in Heq by (symmetry; apply Hprefix).
  unfold shortuuid_uuid in Heq.
  rewrite !list_ascii_of_string_of_list_ascii in Heq.
  by apply int_to_string_inj.
Qed.
End UidInjective.

(** Witness: the generator compared with itself on a fresh engine. *)
Lemma uid_determines_uuid_witness :
  Z.of_nat (S3.uuid4_drawn (fresh_backend 1 1)) mod 2 ^ 128
  = Z.of_nat (S3.uuid4_drawn (fresh_backend 1 1)) mod 2 ^ 128.
Proof.
  apply (uid_determines_uuid toy_md5 Z.of_nat); [|reflexivity].
  intros m. unfold toy_md5.
  rewrite length_take, length_app, length_replicate. lia.
Defined.

(** * Further properties of the file IO engine *)

Section FileWrite.
Import FileIO.

Lemma file_write_length (content : bytes) (offset : Z) (data : bytes) :
  length (file_write content offset data)
  = Nat.max (length content) (Z.to_nat offset + length data).
Proof.
  unfold file_write.
  rewrite !length_app, length_take, length_replicate, length_drop. lia.
Qed.

(** A write changes nothing before its offset; a gap between the end of
    the file and the offset reads as zero bytes. *)
Lemma file_write_lookup_before (content : bytes) (offset : Z) (data : bytes) (j : nat) :
  (j < Z.to_nat offset)%nat →
  file_write content offset data !! j
  = if decide (j < length content)%nat then content !! j else Some Byte.x00.
Proof.
  intros Hj. unfold file_write. case_decide as Hc.
  - rewrite lookup_app_l by (rewrite length_take; lia).
    by rewrite lookup_take_lt.
  - rewrite lookup_app_r by (rewrite length_take; lia).
    rewrite length_take, lookup_app_l by (rewrite length_replicate; lia).
    apply lookup_replicate_2. lia.
Qed.

Lemma file_write_lookup_data (content : bytes) (offset : Z) (data : bytes) (j : nat) :
  (Z.to_nat offset ≤ j < Z.to_nat offset + length data)%nat →
  file_write content offset data !! j = data !! (j - Z.to_nat offset)%nat.
Proof.
  intros Hj. unfold file_write.
  rewrite lookup_app_r by (rewrite length_take; lia).
  rewrite length_take, lookup_app_r by (rewrite length_replicate; lia).
  rewrite length_replicate, lookup_app_l by lia.
  f_equal. lia.
Qed.

Lemma file_write_lookup_after (content : bytes) (offset : Z) (data : bytes) (j : nat) :
  (Z.to_nat offset + length data ≤ j)%nat →
  file_write content offset data !! j = content !! j.
Proof.
  intros Hj. unfold file_write.
  rewrite lookup_app_r by (rewrite length_take; lia).
  rewrite length_take, lookup_app_r by (rewrite length_replicate; lia).
  rewrite length_replicate, lookup_app_r by lia.
  rewrite lookup_drop. f_equal. lia.
Qed.

Lemma file_read_lookup (content : bytes) (offset size : Z) (i : nat) :
  0 ≤ size →
  file_read content offset size !! i
  = if decide (i < Z.to_nat size)%nat then content !! (Z.to_nat offset + i)%nat else None.
Proof.
  intros Hsize. unfold file_read.
  destruct (Z.ltb_spec size 0) as [|_]; [lia|].
  case_decide.
  - by rewrite lookup_take_lt, lookup_drop.
  - apply lookup_take_ge. lia.
Qed.
End FileWrite.

Section WriteThenRead.
Import FileIO.
Variable hash_hexdigest : bytes → string.

(** What a writer has written, a reader reads back.  For a block at a
    non-negative position and data of exactly [block_size] bytes, the
    writer's job succeeds, the file then reaches at least to the end of that
    block, the reader's job for the same block returns exactly those data
    with their checksum, and the reader's job for any other block that lay
    wholly inside the file before gives what it gave before. *)
Theorem writer_job_read_back (block_size : Z) (content : bytes) (block : Block)
    (data : bytes) :
  0 < block_size → 0 ≤ id block → len data = block_size →
  ∃ content',
    _writer_job block_size content (block, data) = inr content'
    ∧ len content' = Z.max (len content) ((id block + 1) * block_size)
    ∧ _reader_job hash_hexdigest block_size content' block
      = Completed block data (hash_hexdigest data)
    ∧ ∀ other,
        0 ≤ id other → id other ≠ id block →
        (id other + 1) * block_size ≤ len content →
        _reader_job hash_hexdigest block_size content' other
        = _reader_job hash_hexdigest block_size content other.
Proof.
  intros Hbs Hid Hlen.
  assert (Hoff : 0 ≤ id block * block_size) by lia.
  exists (file_write content (id block * block_size) data).
  assert (Hdata : Z.to_nat block_size = length data) by (unfold len in Hlen; lia).
  split; [|split; [|split]].
  - unfold _writer_job, file_seek.
    destruct (Z.ltb_spec (id block * block_size) 0) as [|_]; [lia|].
    by rewrite Z.eqb_refl.
  - unfold len in *. rewrite file_write_length. lia.
  - unfold _reader_job, file_seek.
    destruct (Z.ltb_spec (id block * block_size) 0) as [|_]; [lia|].
    assert (Hread : file_read (file_write content (id block * block_size) data)
                      (id block * block_size) block_size = data).
    { apply list_eq. intros i. rewrite file_read_lookup by lia. case_decide as Hi.
      - rewrite file_write_lookup_data by lia. f_equal. lia.
      - symmetry. apply lookup_ge_None. lia. }
    rewrite Hread. destruct data; [simpl in Hdata; lia | done].
  - intros other Hother Hne Hinside.
    assert (Hoff' : 0 ≤ id other * block_size) by lia.
    unfold _reader_job.
    replace (file_read (file_write content (id block * block_size) data)
               (id other * block_size) block_size)
      with (file_read content (id other * block_size) block_size); [done|].
    apply list_eq. intros i. rewrite !file_read_lookup by lia. case_decide as Hi; [|done].
    unfold len in Hinside.
    destruct (Z.lt_ge_cases (id other) (id block)) as [Hlt|Hge].
    + assert ((id other + 1) * block_size ≤ id block * block_size) by nia.
      rewrite file_write_lookup_before by lia.
      case_decide; [done | lia].
    + assert ((id block + 1) * block_size ≤ id other * block_size) by nia.
      rewrite file_write_lookup_after by lia. done.
Qed.
End WriteThenRead.

(** Witness: block 1 of a six-byte file is overwritten with four bytes. *)
Lemma writer_job_read_back_witness :
  let data := [Byte.x77; Byte.x78; Byte.x79; Byte.x7a] in
  ∃ content',
    FileIO._writer_job 4 sample_file (sample_block_1, data) = inr content'
    ∧ len content' = Z.max (len sample_file) ((id sample_block_1 + 1) * 4)
    ∧ FileIO._reader_job sample_hexdigest 4 content' sample_block_1
      = FileIO.Completed sample_block_1 data (sample_hexdigest data)
    ∧ ∀ other,
        0 ≤ id other → id other ≠ id sample_block_1 →
        (id other + 1) * 4 ≤ len sample_file →
        FileIO._reader_job sample_hexdigest 4 content' other
        = FileIO._reader_job sample_hexdigest 4 sample_file other.
Proof.
  intros data.
  apply (writer_job_read_back sample_hexdigest 4 sample_file sample_block_1 data);
    simpl; unfold len; simpl; lia.
Defined.

Section FileWriteRead.
Import FileIO.

Lemma file_read_after_write_same (content : bytes) (offset : Z) (data : bytes) :
  0 ≤ offset →
  file_read (file_write content offset data) offset (len data) = data.
Proof.
  intros Hoff. apply list_eq. intros i. unfold len.
  rewrite file_read_lookup by lia. case_decide as Hi.
  - rewrite file_write_lookup_data by lia. f_equal. lia.
  - symmetry. apply lookup_ge_None. lia.
Qed.

Lemma file_read_after_write_other (content : bytes) (offset : Z) (data : bytes)
    (offset' size : Z) :
  0 ≤ offset → 0 ≤ offset' → 0 ≤ size →
  (offset' + size ≤ offset ∧ offset' + size ≤ len content)
  ∨ offset + len data ≤ offset' →
  file_read (file_write content offset data) offset' size
  = file_read content offset' size.
Proof.
  intros Hoff Hoff' Hsize Hapart. apply list_eq. intros i. unfold len in Hapart.
  rewrite !file_read_lookup by lia. case_decide as Hi; [|done].
  destruct Hapart as [[Hbefore Hinside]|Hafter].
  - rewrite file_write_lookup_before by lia. case_decide; [done | lia].
  - rewrite file_write_lookup_after by lia. done.
Qed.
End FileWriteRead.

Section WriterThreads.
Import FileIO.
Variable block_size : Z.

Local Abbreviation step := (writer_step block_size).

Local Abbreviation single_writer_invariant := (FileIO.single_writer_invariant block_size).

Lemma single_writer_step (target : bytes) (p p' : writers) :
  single_writer_invariant target p → step p p' → single_writer_invariant target p'.
Proof.
  intros (jobs & Hq & Hjobs & Hthreads) Hstep.
  destruct p as [queue0 file0 position0 threads0]; simpl in *.
  destruct threads0 as [|pc [|pc' threads0]]; [done | | by destruct pc].
  inversion Hstep as [i entry queue file position threads Hi
                     |i block data queue file position threads Hi Hseek
                     |i block data e queue file position threads Hi Hseek
                     |i block data queue file position threads Hi];
    subst; destruct i as [|i]; simplify_eq/=.
  - destruct jobs as [|[block data] jobs]; simplify_eq/=.
    apply Forall_cons in Hjobs as [Hjob Hjobs].
    exists jobs. simpl. eauto.
  - destruct Hthreads as [Hoff Htarget]. exists jobs. simpl. eauto.
  - destruct Hthreads as [Hoff _]. unfold file_seek in Hseek.
    destruct (Z.ltb_spec (id block * block_size) 0); [lia | done].
  - destruct Hthreads as [-> Htarget]. exists jobs. simpl. eauto.
Qed.

(** With one writer thread the queued jobs are done in order, each at its
    own offset.  From a queue of jobs at non-negative positions, in every
    state of a run the thread can move until the queue is drained and the
    thread is back at [get], and in any such state the file is the one that
    doing the jobs one after the other gives. *)
Theorem single_writer_writes_in_order (content : bytes) (position : Z)
    (jobs : list (Block * bytes)) (p : writers) :
  Forall (λ job : Block * bytes, 0 ≤ id job.1 * block_size) jobs →
  rtc step (mkWriters (Some <$> jobs) content position [WAtGet]) p →
  ((∃ p', step p p') ∨ (w_queue p = [] ∧ w_threads p = [WAtGet]))
  ∧ (w_queue p = [] → w_threads p = [WAtGet] →
     w_file p = written block_size content jobs).
Proof.
  intros Hjobs Hrun.
  assert (Hinv : single_writer_invariant (written block_size content jobs) p).
  { assert (Hinit : single_writer_invariant (written block_size content jobs)
                      (mkWriters (Some <$> jobs) content position [WAtGet]))
      by (exists jobs; by simpl).
    clear Hjobs. induction Hrun as [|p q r Hstep _ IH]; [done|].
    apply IH. by eapply single_writer_step. }
  destruct Hinv as (jobs' & Hq & Hjobs' & Hthreads).
  destruct p as [queue file pos threads]; simpl in *.
  destruct threads as [|pc [|pc' threads]]; [done | | by destruct pc].
  split.
  - destruct pc as [|block data|block data| |]; try done.
    + destruct queue as [|entry queue]; [by right|].
      left. eexists. by apply writer_step_get with (i := 0%nat).
    + left. eexists. apply writer_step_seek with (i := 0%nat) (data := data); [done|].
      unfold file_seek. destruct Hthreads as [Hoff _].
      destruct (Z.ltb_spec (id block * block_size) 0); [lia | done].
    + left. eexists. by apply writer_step_write with (i := 0%nat) (block := block).
  - intros -> [= ->]. destruct jobs'; [|done]. by simpl in Hthreads.
Qed.
End WriterThreads.

(** Witness: two jobs on an empty file, taken up to the drained state;
    block 1 is written first, past the end of the file, then block 0. *)
Lemma single_writer_writes_in_order_witness :
  let jobs := [(sample_block_1, [Byte.x65; Byte.x66]);
               (sample_block_0, [Byte.x61; Byte.x62; Byte.x63; Byte.x64])] in
  let p := FileIO.mkWriters [] sample_file 4 [FileIO.WAtGet] in
  rtc (FileIO.writer_step 4)
      (FileIO.mkWriters (Some <$> jobs) [] 0 [FileIO.WAtGet]) p
  ∧ ((∃ p', FileIO.writer_step 4 p p')
     ∨ (FileIO.w_queue p = [] ∧ FileIO.w_threads p = [FileIO.WAtGet]))
  ∧ FileIO.w_file p = FileIO.written 4 [] jobs
  ∧ FileIO.written 4 [] jobs = sample_file.
Proof.
  intros jobs p.
  assert (Hjobs : Forall (λ job : Block * bytes, 0 ≤ id job.1 * 4) jobs)
    by (repeat constructor; simpl; lia).
  assert (Hrun : rtc (FileIO.writer_step 4)
                   (FileIO.mkWriters (Some <$> jobs) [] 0 [FileIO.WAtGet]) p).
  { eapply rtc_l; [by apply FileIO.writer_step_get with (i := 0%nat)|].
    eapply rtc_l; [by apply FileIO.writer_step_seek
                         with (i := 0%nat) (data := [Byte.x65; Byte.x66])|].
    eapply rtc_l; [by apply FileIO.writer_step_write
                         with (i := 0%nat) (block := sample_block_1)|].
    eapply rtc_l; [by apply FileIO.writer_step_get with (i := 0%nat)|].
    eapply rtc_l; [by apply FileIO.writer_step_seek
                         with (i := 0%nat)
                              (data := [Byte.x61; Byte.x62; Byte.x63; Byte.x64])|].
    eapply rtc_l; [by apply FileIO.writer_step_write
                         with (i := 0%nat) (block := sample_block_0)|].
    apply rtc_refl. }
  split; [exact Hrun|].
  destruct (single_writer_writes_in_order 4 [] 0 jobs p Hjobs Hrun) as [Hmove Hfile].
  split; [exact Hmove|].
  split; [exact (Hfile eq_refl eq_refl) | reflexivity].
Defined.

Section WriterRace.
Import FileIO.
Variable hash_hexdigest : bytes → string.
Variable block_size : Z.

Lemma file_seek_nonnegative (offset : Z) : 0 ≤ offset → file_seek offset = None.
Proof.
  intros H. unfold file_seek. destruct (Z.ltb_spec offset 0); [lia | done].
Qed.

(** With two writer threads a block can be lost.  For two full blocks
    queued for different positions there is a run, ending with the queue
    drained and both threads back at [get], after which the place of the
    later block holds the data of the earlier one and the place of the
    earlier block holds what the file held before: each thread took a job,
    each moved the shared handle, and then both wrote where the second
    [seek] had left it. *)
Theorem two_writers_can_misplace_a_block (content : bytes) (position : Z)
    (block1 block2 : Block) (data1 data2 : bytes) :
  0 < block_size → 0 ≤ id block1 → id block1 < id block2 →
  len data1 = block_size → len data2 = block_size →
  (id block1 + 1) * block_size ≤ len content →
  ∃ file position',
    rtc (writer_step block_size)
      (mkWriters [Some (block1, data1); Some (block2, data2)] content position
         [WAtGet; WAtGet])
      (mkWriters [] file position' [WAtGet; WAtGet])
    ∧ _reader_job hash_hexdigest block_size file block2
      = Completed block2 data1 (hash_hexdigest data1)
    ∧ _reader_job hash_hexdigest block_size file block1
      = _reader_job hash_hexdigest block_size content block1.
Proof.
  intros Hbs Hid1 Hid12 Hlen1 Hlen2 Hinside.
  set (off1 := id block1 * block_size).
  set (off2 := id block2 * block_size).
  assert (Hoff1 : 0 ≤ off1) by (unfold off1; lia).
  assert (Hoff12 : off1 + block_size ≤ off2) by (unfold off1, off2; nia).
  set (file1 := file_write content off2 data1).
  set (file2 := file_write file1 (off2 + len data1) data2).
  assert (Hlen_file1 : off2 + block_size ≤ len file1).
  { unfold file1, len in *. rewrite file_write_length. lia. }
  exists file2, (off2 + len data1 + len data2). split; [|split].
  - eapply rtc_l; [by apply writer_step_get with (i := 0%nat)|]. simpl.
    eapply rtc_l; [by apply writer_step_get with (i := 1%nat)|]. simpl.
    eapply rtc_l.
    { apply writer_step_seek with (i := 0%nat) (block := block1) (data := data1);
        [done | by apply file_seek_nonnegative]. }
    simpl.
    eapply rtc_l.
    { apply writer_step_seek with (i := 1%nat) (block := block2) (data := data2);
        [done | apply file_seek_nonnegative; fold off2; lia]. }
    simpl.
    eapply rtc_l;
      [by apply writer_step_write with (i := 0%nat) (block := block1) (data := data1)|].
    simpl.
    eapply rtc_l;
      [by apply writer_step_write with (i := 1%nat) (block := block2) (data := data2)|].
    simpl. apply rtc_refl.
  - unfold _reader_job. fold off2. rewrite file_seek_nonnegative by lia.
    assert (Hread : file_read file2 off2 block_size = data1).
    { unfold file2. rewrite file_read_after_write_other by lia.
      unfold file1. rewrite <- Hlen1. apply file_read_after_write_same. lia. }
    rewrite Hread. destruct data1; [unfold len in Hlen1; simpl in Hlen1; lia | done].
  - unfold _reader_job. fold off1.
    replace (file_read file2 off1 block_size) with (file_read content off1 block_size);
      [done|].
    unfold file2. rewrite file_read_after_write_other by lia.
    unfold file1. rewrite file_read_after_write_other; [done | lia..|].
    left. unfold off1. lia.
Qed.
End WriterRace.

(** Witness: blocks 0 and 1 of an eight-byte file of zeros. *)
Lemma two_writers_can_misplace_a_block_witness :
  let content := replicate 8 Byte.x00 in
  let data1 := [Byte.x61; Byte.x62; Byte.x63; Byte.x64] in
  let data2 := [Byte.x65; Byte.x66; Byte.x67; Byte.x68] in
  ∃ file position',
    rtc (FileIO.writer_step 4)
      (FileIO.mkWriters [Some (sample_block_0, data1); Some (sample_block_1, data2)]
         content 0 [FileIO.WAtGet; FileIO.WAtGet])
      (FileIO.mkWriters [] file position' [FileIO.WAtGet; FileIO.WAtGet])
    ∧ FileIO._reader_job sample_hexdigest 4 file sample_block_1
      = FileIO.Completed sample_block_1 data1 (sample_hexdigest data1)
    ∧ FileIO._reader_job sample_hexdigest 4 file sample_block_0
      = FileIO._reader_job sample_hexdigest 4 content sample_block_0.
Proof.
  intros content data1 data2.
  apply (two_writers_can_misplace_a_block sample_hexdigest 4 content 0
           sample_block_0 sample_block_1 data1 data2);
    simpl; unfold len; simpl; lia.
Defined.

Section OpenWAgain.
Import FileIO.

(** Creating a target and opening it again.  After [open_w] has created
    the file, opening the same name again without [force] fails whatever
    the size asked for; with [force] it succeeds and leaves the file alone
    when the size asked for is at most the size created, and fails when it
    is larger. *)
Theorem open_w_then_reopen (name path : string) (sz : Z) (force : bool)
    (self : IO) (fs : filesystem) :
  match_file_uri name = Some path → 0 < sz → fs !! path = None →
  ∃ self1 fs1,
    open_w name (Some sz) force self fs = Returned self1 fs1
    ∧ (∀ self0 size_, ∃ msg self2,
         open_w name size_ false self0 fs1 = Raised (SystemExit msg) self2 fs1)
    ∧ (∀ self0 sz', sz' ≤ sz → ∃ self2,
         open_w name (Some sz') true self0 fs1 = Returned self2 fs1)
    ∧ (∀ self0 sz', sz < sz' → ∃ msg self2,
         open_w name (Some sz') true self0 fs1 = Raised (SystemExit msg) self2 fs1).
Proof.
  intros Huri Hsz Hfs.
  set (fs1 := <[path := file_write [] (sz - 1) [Byte.x00]]> fs).
  assert (Hfs1 : fs1 !! path = Some (file_write [] (sz - 1) [Byte.x00]))
    by apply lookup_insert_eq.
  assert (Hsize : size (file_write [] (sz - 1) [Byte.x00]) = sz).
  { unfold size, len. rewrite file_write_length. simpl. lia. }
  eexists _, fs1. split; [|split; [|split]].
  - unfold open_w. rewrite Huri. cbv zeta. rewrite Hfs.
    rewrite file_seek_nonnegative by lia.
    unfold fs1. by rewrite insert_insert_eq.
  - intros self0 size_. unfold open_w. rewrite Huri. cbv zeta. rewrite Hfs1. simpl. eauto.
  - intros self0 sz' Hle. unfold open_w. rewrite Huri. cbv zeta. rewrite Hfs1, Hsize. simpl.
    destruct (Z.ltb_spec sz sz'); [lia | eauto].
  - intros self0 sz' Hlt. unfold open_w. rewrite Huri. cbv zeta. rewrite Hfs1, Hsize. simpl.
    destruct (Z.ltb_spec sz sz'); [eauto | lia].
Qed.

(** A failed creation leaves an empty file behind.  When no file is at the
    path and the size is missing or below one, [open_w] raises after the
    file has been created, without opening it; the empty file stays, so a
    later [open_w] without [force] fails whatever its size. *)
Theorem open_w_bad_size_leaves_empty_file (name path : string) (size_ : option Z)
    (force : bool) (self : IO) (fs : filesystem) :
  match_file_uri name = Some path → fs !! path = None →
  match size_ with Some sz => sz ≤ 0 | None => True end →
  ∃ e self1,
    open_w name size_ force self fs = Raised e self1 (<[path := []]> fs)
    ∧ _write_file self1 = _write_file self
    ∧ ∀ self0 size', ∃ msg self2,
        open_w name size' false self0 (<[path := []]> fs)
        = Raised (SystemExit msg) self2 (<[path := []]> fs).
Proof.
  intros Huri Hfs Hsize.
  assert (Hlater : ∀ self0 size', ∃ msg self2,
            open_w name size' false self0 (<[path := []]> fs)
            = Raised (SystemExit msg) self2 (<[path := []]> fs)).
  { intros self0 size'. unfold open_w. rewrite Huri. cbv zeta.
    rewrite lookup_insert_eq. simpl. eauto. }
  assert (Hfails : ∃ e self1,
            open_w name size_ force self fs = Raised e self1 (<[path := []]> fs)
            ∧ _write_file self1 = _write_file self).
  { unfold open_w. rewrite Huri. cbv zeta. rewrite Hfs.
    destruct size_ as [sz|]; [|by eexists _, _].
    unfold file_seek. destruct (Z.ltb_spec (sz - 1) 0); [|lia].
    by eexists _, _. }
  destruct Hfails as (e & self1 & Hopen & Hfile).
  by exists e, self1.
Qed.

(** [write] needs a target opened for writing.  On an engine fresh from
    [__init__], or after an [open_w] that raised, [write] raises the
    runtime error and queues nothing; after an [open_w] that returned, the
    first [write] queues its job. *)
Theorem write_needs_open_w (config : gmap string Z) (bs : Z) (name : string)
    (size_ : option Z) (force : bool) (fs : filesystem) (block : Block) (data : bytes) :
  write block data (__init__ config bs) = WriteRaised (RuntimeError "File not open.")
  ∧ match open_w name size_ force (__init__ config bs) fs with
    | Raised _ self' _ =>
        write block data self' = WriteRaised (RuntimeError "File not open.")
    | Returned self' _ =>
        ∃ q, _write_queue self' = Some q ∧ items q = []
             ∧ write block data self'
               = Queued (set_write_queue (enqueue (Some (block, data)) q) self')
    end.
Proof.
  split; [done|].
  assert (Hstart : ∀ path self,
            ∃ q, _write_queue (open_w_start path self) = Some q ∧ items q = []
                 ∧ write block data (open_w_start path self)
                   = Queued (set_write_queue (enqueue (Some (block, data)) q)
                               (open_w_start path self))).
  { intros path self.
    destruct (open_w_start_threads path self) as (_ & Hq & Hf).
    eexists. split; [exact Hq|]. split; [done|].
    unfold write. rewrite Hf, Hq.
    replace (has_room _) with true; [done|].
    symmetry. unfold has_room, new_queue. simpl.
    rewrite orb_true_iff, Z.leb_le, Z.ltb_lt. lia. }
  unfold open_w.
  destruct (match_file_uri name) as [path|]; [|done]. cbv zeta.
  destruct (fs !! path) as [content|].
  - destruct force; simpl; [|done].
    destruct size_ as [sz|]; [|done].
    destruct (size content <? sz); [done | apply Hstart].
  - destruct size_ as [sz|]; [|done].
    destruct (file_seek (sz - 1)); [done | apply Hstart].
Qed.
End OpenWAgain.

(** Witness: the target of the 1 MiB scenario, created and opened again. *)
Lemma open_w_then_reopen_witness :
  ∃ self1 fs1,
    FileIO.open_w "file:///tmp/t.img" (Some 1048576) false sample_io ∅
      = FileIO.Returned self1 fs1
    ∧ (∀ self0 size_, ∃ msg self2,
         FileIO.open_w "file:///tmp/t.img" size_ false self0 fs1
         = FileIO.Raised (SystemExit msg) self2 fs1)
    ∧ (∀ self0 sz', sz' ≤ 1048576 → ∃ self2,
         FileIO.open_w "file:///tmp/t.img" (Some sz') true self0 fs1
         = FileIO.Returned self2 fs1)
    ∧ (∀ self0 sz', 1048576 < sz' → ∃ msg self2,
         FileIO.open_w "file:///tmp/t.img" (Some sz') true self0 fs1
         = FileIO.Raised (SystemExit msg) self2 fs1).
Proof.
  apply (open_w_then_reopen "file:///tmp/t.img" "/tmp/t.img" 1048576 false sample_io ∅);
    [reflexivity | lia | reflexivity].
Defined.

(** Witness: a target asked for with size zero. *)
Lemma open_w_bad_size_leaves_empty_file_witness :
  ∃ e self1,
    FileIO.open_w "file:///tmp/t.img" (Some 0) false sample_io ∅
      = FileIO.Raised e self1 (<["/tmp/t.img"%string := []]> ∅)
    ∧ FileIO._write_file self1 = FileIO._write_file sample_io
    ∧ ∀ self0 size', ∃ msg self2,
        FileIO.open_w "file:///tmp/t.img" size' false self0 (<["/tmp/t.img"%string := []]> ∅)
        = FileIO.Raised (SystemExit msg) self2 (<["/tmp/t.img"%string := []]> ∅).
Proof.
  apply (open_w_bad_size_leaves_empty_file "file:///tmp/t.img" "/tmp/t.img" (Some 0)
           false sample_io ∅); [reflexivity | reflexivity | simpl; lia].
Defined.

Section IoNames.
Import FileIO.

Lemma strip_prefix_app (p s : string) : strip_prefix p (p ++ s) = Some s.
Proof. induction p as [|a p IH]; simpl; [done | by rewrite Ascii.eqb_refl]. Qed.

Lemma strip_prefix_Some (p s r : string) :
  strip_prefix p s = Some r → s = (p ++ r)%string.
Proof.
  revert s. induction p as [|a p IH]; intros s; simpl.
  - by intros [= ->].
  - destruct s as [|b s]; [done|].
    destruct (Ascii.eqb_spec a b) as [->|]; [|done].
    intros H. by rewrite (IH s H).
Qed.

Lemma span_line_spec (s l r : string) :
  span_line s = (l, r) →
  s = (l ++ r)%string
  ∧ Forall (λ c, c ≠ newline) (list_ascii_of_string l)
  ∧ (r = EmptyString ∨ ∃ r', r = String newline r').
Proof.
  revert l r. induction s as [|a s IH]; intros l r; simpl.
  - intros [= <- <-]. split; [done|]. split; [constructor | by left].
  - destruct (Ascii.eqb_spec a newline) as [->|Hne].
    + intros [= <- <-]. split; [done|]. split; [constructor | right; eauto].
    + destruct (span_line s) as [l' r'] eqn:Hspan. intros [= <- <-].
      destruct (IH l' r' eq_refl) as (-> & Hl & Hr).
      split; [done|]. split; [by constructor | done].
Qed.

Lemma span_line_app (l r : string) :
  Forall (λ c, c ≠ newline) (list_ascii_of_string l) →
  r = EmptyString ∨ (∃ r', r = String newline r') →
  span_line (l ++ r) = (l, r).
Proof.
  intros Hl Hr. induction l as [|a l IH]; simpl in *.
  - destruct Hr as [->|[r' ->]]; reflexivity.
  - apply Forall_cons in Hl as [Ha Hl].
    destruct (Ascii.eqb_spec a newline); [done|]. by rewrite IH.
Qed.

Lemma string_app_nil_r (s : string) : (s ++ EmptyString)%string = s.
Proof.
  induction s as [|a s IH]; [reflexivity|].
  change (String a (s ++ EmptyString)%string = String a s). by rewrite IH.
Qed.

(** The names [open_r] and [open_w] accept.  A name is accepted exactly
    when it is [file://] followed by a non-empty path without a newline,
    or such a name followed by one newline; the path is what follows
    [file://], without that newline. *)
Theorem match_file_uri_spec (name path : string) :
  match_file_uri name = Some path
  ↔ path ≠ EmptyString
    ∧ Forall (λ c, c ≠ newline) (list_ascii_of_string path)
    ∧ (name = ("file://" ++ path)%string
       ∨ name = ("file://" ++ path ++ String newline EmptyString)%string).
Proof.
  unfold match_file_uri. split.
  - destruct (strip_prefix "file://" name) as [rest|] eqn:Hstrip; [|done].
    apply strip_prefix_Some in Hstrip as ->.
    destruct (span_line rest) as [l r] eqn:Hspan.
    destruct (span_line_spec _ _ _ Hspan) as (-> & Hl & Hr).
    destruct l as [|a l]; [done|].
    destruct Hr as [->|[r' ->]].
    + rewrite string_app_nil_r.
      intros [= <-]. split; [done|]. split; [done|]. by left.
    + destruct (String.eqb_spec (String newline r') EmptyString); [done|].
      destruct (String.eqb_spec (String newline r') (String newline EmptyString))
        as [[= ->]|]; [|done].
      intros [= <-]. split; [done|]. split; [done|]. by right.
  - intros (Hne & Hl & [->| ->]); rewrite strip_prefix_app.
    + rewrite <- (string_app_nil_r path) at 1.
      rewrite span_line_app by (done || by left).
      by destruct path.
    + rewrite span_line_app by (done || right; eauto).
      destruct path; [done|].
      by rewrite String.eqb_refl, orb_true_r.
Qed.
End IoNames.

Section OpenR.
Import FileIO.
Variable hash_hexdigest : bytes → string.
Variable source_file : bytes.

Lemma open_r_threads (name path : string) (self : IO) (fs : filesystem) :
  match_file_uri name = Some path →
  open_r name self fs
  = inr (set_io_name path (set_mode "r" self),
         replicate (reader_count self) (reader_start fs path)).
Proof.
  intros Huri. unfold open_r. rewrite Huri. cbv zeta. do 2 f_equal.
  rewrite (const_fmap _ _ (reader_start fs path)) by done.
  by rewrite length_seqZ.
Qed.

(** The caller's part of a run needs no reader: it submits its jobs, puts
    one sentinel per thread and, when all threads have ended, leaves
    [close()]. *)
Lemma caller_runs_alone (self : IO) (threads : list reader_pc) (jobs : list Block) :
  Forall (λ pc, terminated pc = true) threads →
  rtc (step hash_hexdigest self source_file)
    (pipeline_of threads jobs)
    (mkPipeline ((Some <$> jobs) ++ replicate (length threads) None) [] threads Closed []).
Proof.
  intros Hended. unfold pipeline_of.
  assert (Hreads : ∀ inq, rtc (step hash_hexdigest self source_file)
            (mkPipeline inq [] threads (Submitting jobs) [])
            (mkPipeline (inq ++ (Some <$> jobs)) [] threads (Submitting []) [])).
  { induction jobs as [|block jobs IH]; intros inq.
    - rewrite app_nil_r. apply rtc_refl.
    - eapply rtc_l; [apply step_read|].
      replace (inq ++ (Some <$> block :: jobs)) with ((inq ++ [Some block]) ++ (Some <$> jobs))
        by (by rewrite <- app_assoc).
      apply IH. }
  assert (Hputs : ∀ k inq, rtc (step hash_hexdigest self source_file)
            (mkPipeline inq [] threads (ClosePut k) [])
            (mkPipeline (inq ++ replicate k None) [] threads (ClosePut 0) [])).
  { induction k as [|k IH]; intros inq.
    - rewrite app_nil_r. apply rtc_refl.
    - eapply rtc_l; [apply step_close_put|].
      replace (inq ++ replicate (S k) None) with ((inq ++ [None]) ++ replicate k None)
        by (by rewrite <- app_assoc).
      apply IH. }
  assert (Hjoins : ∀ d i inq, (i + d = length threads)%nat →
            rtc (step hash_hexdigest self source_file)
              (mkPipeline inq [] threads (CloseJoin i) [])
              (mkPipeline inq [] threads Closed [])).
  { induction d as [|d IH]; intros i inq Hi.
    - apply rtc_once, step_close_end. lia.
    - destruct (lookup_lt_is_Some_2 threads i) as [pc Hpc]; [lia|].
      eapply rtc_l; [|apply (IH (S i)); lia].
      eapply step_close_join; [exact Hpc|].
      rewrite Forall_forall in Hended. apply Hended.
      by eapply list_elem_of_lookup_2. }
  eapply rtc_trans; [apply (Hreads [])|]. simpl.
  eapply rtc_l; [apply step_close|].
  eapply rtc_trans; [apply Hputs|].
  eapply rtc_l; [apply step_close_join_begin|].
  by apply (Hjoins (length threads) 0%nat).
Qed.

(** Opening a source that is not there.  For a well-formed name [open_r]
    returns whether or not a file is at the path.  When one is, the threads
    it has started wait for jobs.  When none is, every thread has ended
    with the error of its [open]: whatever is submitted afterwards, no
    result and no sentinel is ever put on the output queue, and [close()]
    can still return, with the jobs and the sentinels left in the input
    queue. *)
Theorem open_r_missing_source (name path : string) (self : IO) (fs : filesystem)
    (jobs : list Block) :
  match_file_uri name = Some path →
  ∃ self' threads,
    open_r name self fs = inr (self', threads)
    ∧ length threads = reader_count self'
    ∧ (is_Some (fs !! path) → pipeline_of threads jobs = opened_r self' jobs)
    ∧ (fs !! path = None →
       (∀ p, rtc (step hash_hexdigest self' source_file) (pipeline_of threads jobs) p →
             _outqueue p = [] ∧ consumed p = [] ∧ _reader_threads p = threads)
       ∧ ∃ p, rtc (step hash_hexdigest self' source_file) (pipeline_of threads jobs) p
              ∧ caller p = Closed
              ∧ _inqueue p = (Some <$> jobs) ++ replicate (length threads) None).
Proof.
  intros Huri. rewrite (open_r_threads _ _ _ _ Huri).
  eexists _, _. split; [reflexivity|].
  assert (Hcount : reader_count (set_io_name path (set_mode "r" self)) = reader_count self)
    by done.
  split; [by rewrite length_replicate|].
  split.
  - intros [content Hcontent]. unfold pipeline_of, opened_r, reader_start.
    by rewrite Hcontent, Hcount.
  - intros Hnone. unfold reader_start. rewrite Hnone.
    set (threads := replicate (reader_count self) (Died (no_such_file path))).
    assert (Hended : Forall (λ pc, terminated pc = true) threads)
      by (by apply Forall_replicate).
    split.
    + intros p Hrun.
      assert (Hinv : _outqueue (pipeline_of threads jobs) = []
                     ∧ consumed (pipeline_of threads jobs) = []
                     ∧ _reader_threads (pipeline_of threads jobs) = threads) by done.
      induction Hrun as [|p q r Hstep _ IH]; [done|].
      apply IH. destruct Hinv as (Hout & Hgot & Hrs).
      inversion Hstep; subst; simpl in *; try done.
      * rewrite Hrs in H. apply lookup_replicate in H as [? _]. done.
      * rewrite Hrs in H. apply lookup_replicate in H as [? _]. done.
    + eexists. split; [by apply caller_runs_alone|]. done.
Qed.
End OpenR.

(** Witness: the sample engine opened on a path with no file. *)
Lemma open_r_missing_source_witness :
  ∃ self' threads,
    FileIO.open_r "file:///tmp/gone.img" sample_io ∅ = inr (self', threads)
    ∧ length threads = FileIO.reader_count self'
    ∧ (is_Some ((∅ : gmap string bytes) !! "/tmp/gone.img"%string) →
       FileIO.pipeline_of threads sample_jobs = FileIO.opened_r self' sample_jobs)
    ∧ ((∅ : gmap string bytes) !! "/tmp/gone.img"%string = None →
       (∀ p, rtc (FileIO.step sample_hexdigest self' sample_file)
               (FileIO.pipeline_of threads sample_jobs) p →
             FileIO._outqueue p = [] ∧ FileIO.consumed p = []
             ∧ FileIO._reader_threads p = threads)
       ∧ ∃ p, rtc (FileIO.step sample_hexdigest self' sample_file)
                (FileIO.pipeline_of threads sample_jobs) p
              ∧ FileIO.caller p = FileIO.Closed
              ∧ FileIO._inqueue p = (Some <$> sample_jobs) ++ replicate (length threads) None).
Proof.
  apply (open_r_missing_source sample_hexdigest sample_file "file:///tmp/gone.img"
           "/tmp/gone.img" sample_io ∅ sample_jobs).
  reflexivity.
Defined.

Section SyncRead.
Import S3.
Variable get_answers : string → list get_answer.

Lemma read_raw_loop_got_after_transient (block_uid : string) (errors : list exn)
    (data : bytes) (after : list get_answer) (log : list string) :
  Forall (λ e, is_transient e = true) errors →
  (read_raw_loop block_uid ((Fails <$> errors) ++ Body data :: after) log).2 = Got data.
Proof.
  intros Herrors. revert log.
  induction Herrors as [|e errors He _ IH]; intros log; [done|].
  destruct (read_raw_loop_transient block_uid e
              ((Fails <$> errors) ++ Body data :: after) log He) as [line Hline].
  change ((Fails <$> e :: errors) ++ Body data :: after)
    with (Fails e :: (Fails <$> errors) ++ Body data :: after).
  rewrite Hline. apply IH.
Qed.

Lemma empty_queue_has_room {A} (q : Queue A) : items q = [] → has_room q = true.
Proof.
  intros Hq. unfold has_room. rewrite Hq. simpl.
  rewrite orb_true_iff, Z.leb_le, Z.ltb_lt. lia.
Qed.

(** A synchronous read on an idle engine.  With nothing queued for
    reading or read, a running reader and an engine that is not poisoned:
    when the provider hands out the object, after any number of timeouts,
    [read(block, sync=True)] returns exactly its data and leaves both
    queues empty; when the provider reports the key as missing, the call
    never returns: the reader that took the block has died and nothing will
    ever be queued for the caller. *)
Theorem read_sync_on_idle_engine (block : Block) (st : DataBackend) (i : nat)
    (errors : list exn) :
  fatal_error st = None →
  _reader_threads st !! i = Some Running →
  items (_read_queue st) = [] →
  items (_read_data_queue st) = [] →
  Forall (λ e, is_transient e = true) errors →
  (∀ data after,
     get_answers (uid block) = (Fails <$> errors) ++ Body data :: after →
     ∃ st',
       read get_answers block true st = Returned (Some data) st'
       ∧ items (_read_queue st') = []
       ∧ items (_read_data_queue st') = []
       ∧ _reader_threads st' = _reader_threads st)
  ∧ (∀ code after,
       is_missing_key code = true →
       get_answers (uid block) = (Fails <$> errors) ++ Fails (ClientError code) :: after →
       ∃ st' j,
         read get_answers block true st = Waits st'
         ∧ _reader_threads st' = <[j := Died (NameError "key")]> (_reader_threads st)
         ∧ items (_read_queue st') = []
         ∧ items (_read_data_queue st') = []).
Proof.
  intros Hf Hrun Hrq Hrdq Herrors.
  destruct (first_running_writer _ _ Hrun) as [j Hj].
  pose proof Hj as Hjj. apply list_find_Some in Hjj as (Hjrun & _ & _).
  pose proof (empty_queue_has_room _ Hrq) as Hroom.
  pose proof (empty_queue_has_room _ Hrdq) as Hroom'.
  destruct st as [f wq [rm ri ru] [dm di du] b wt rt u]; simpl in *. subst f ri di.
  split.
  - intros data after Hanswers.
    unfold read. simpl. rewrite Hroom. simpl.
    unfold read_get_waiting, readers_iter, _reader_iter. simpl.
    rewrite Hj, Hjrun. simpl. unfold read_raw. rewrite Hanswers.
    rewrite read_raw_loop_got_after_transient by done.
    simpl. rewrite Hroom'. simpl. unfold read_get. simpl.
    rewrite Z.eqb_refl. simpl. eexists. by repeat split.
  - intros code after Hcode Hanswers.
    unfold read. simpl. rewrite Hroom. simpl.
    unfold read_get_waiting, readers_iter, _reader_iter. simpl.
    rewrite Hj, Hjrun. simpl. unfold read_raw. rewrite Hanswers.
    rewrite read_raw_loop_missing_after_transient by done.
    simpl. unfold read_get. simpl. eexists _, j. by repeat split.
Qed.

(** What a synchronous read can raise.  Whatever the state of the engine,
    [read] raises only the error about mixing threaded and synchronous
    reads, or the [TypeError] of [read_get]; the missing-key error in its
    last lines is never raised, since [read_get] fails first on a result
    without data. *)
Theorem read_never_reports_missing_key (block : Block) (sync : bool)
    (st st' : DataBackend) (e : exn) :
  read get_answers block sync st = Raised e st' →
  e = RuntimeError "Do not mix threaded reading with sync reading!"
  ∨ e = TypeError "object of type 'NoneType' has no len()".
Proof.
  assert (Hget : ∀ s, match read_get s with
                      | Returned (_, _, _, data) _ => is_Some data
                      | Raised e _ => e = TypeError "object of type 'NoneType' has no len()"
                      | Waits _ => True
                      end).
  { intros s. unfold read_get.
    destruct (items (_read_data_queue s)) as [|[rblock [data|]] rest]; simpl; eauto. }
  unfold read. destruct (has_room (_read_queue st)); [|done].
  destruct sync; [|done].
  set (st1 := set_read_queue _ st).
  assert (Hwait : match read_get_waiting get_answers st1 with
                  | Returned (_, _, _, data) _ => is_Some data
                  | Raised e _ => e = TypeError "object of type 'NoneType' has no len()"
                  | Waits _ => True
                  end).
  { unfold read_get_waiting.
    destruct (items (_read_data_queue st1)); [|apply Hget].
    destruct (readers_iter get_answers st1); [apply Hget | done]. }
  destruct (read_get_waiting get_answers st1) as [[[[rblock offset] length] data] s|e' s|s];
    [| |done].
  - destruct (negb (id rblock =? id block)); [intros [= <- _]; by left|].
    destruct Hwait as [d ->]. done.
  - intros [= <- _]. by right.
Qed.
End SyncRead.

(** Witness: an idle engine with one reader and a provider that times out
    once before it answers. *)
Lemma read_sync_on_idle_engine_witness :
  let block := mkBlock 7 "6f1ed002abR7hfjuZ8kLNsxW3pqYtC29" true in
  let data := [Byte.x68; Byte.x69] in
  let answers := λ _ : string, [S3.Fails SocketTimeout; S3.Body data] in
  ∃ st',
    S3.read answers block true (fresh_backend 1 1) = S3.Returned (Some data) st'
    ∧ items (S3._read_queue st') = []
    ∧ items (S3._read_data_queue st') = []
    ∧ S3._reader_threads st' = S3._reader_threads (fresh_backend 1 1).
Proof.
  intros block data answers.
  assert (Herrors : Forall (λ e, S3.is_transient e = true) [SocketTimeout])
    by (repeat constructor).
  exact (proj1 (read_sync_on_idle_engine answers block (fresh_backend 1 1) 0
                  [SocketTimeout] eq_refl eq_refl eq_refl eq_refl Herrors)
           data [] eq_refl).
Defined.

(** Witness: a leftover result of an earlier threaded read of block 3 meets
    a synchronous read of block 7. *)
Lemma read_never_reports_missing_key_witness :
  let block := mkBlock 7 "6f1ed002abR7hfjuZ8kLNsxW3pqYtC29" true in
  let other := mkBlock 3 "0a4cc19f55Qm8sTzXw2LkVb7NcPdHr34" true in
  let st := S3.set_read_data_queue
              (enqueue (other, Some [Byte.x68]) (new_queue 21)) (fresh_backend 1 1) in
  RuntimeError "Do not mix threaded reading with sync reading!"
    = RuntimeError "Do not mix threaded reading with sync reading!"
  ∨ RuntimeError "Do not mix threaded reading with sync reading!"
    = TypeError "object of type 'NoneType' has no len()".
Proof.
  intros block other st.
  eapply (read_never_reports_missing_key (λ _, []) block true st).
  reflexivity.
Defined.

Section Shutdown.
Import S3.
Variable put_fault : string → bytes → option exn.
Variable get_answers : string → list get_answer.
Hypothesis no_put_fault : ∀ key data, put_fault key data = None.

Local Abbreviation stored := (foldl (λ (b : gmap string bytes) (job : string * bytes),
                                  <[job.1 := job.2]> b)).

Lemma for_each_cons {A} (body : A → DataBackend → option DataBackend)
    (x : A) (l : list A) (st st1 : DataBackend) :
  body x st = Some st1 → for_each body (x :: l) st = for_each body l st1.
Proof. intros H. unfold for_each. simpl. by rewrite H. Qed.

Lemma replicate_finished_insert (k d : nat) :
  <[k := Finished]> (replicate k Finished ++ replicate (S d) Running)
  = replicate (S k) Finished ++ replicate d Running.
Proof.
  rewrite (replicate_S_end k Finished), <- app_assoc.
  rewrite insert_app_r_alt by (rewrite length_replicate; lia).
  by rewrite length_replicate, Nat.sub_diag.
Qed.

Lemma replicate_running_lookup (k d : nat) :
  (replicate k Finished ++ replicate (S d) Running) !! k = Some Running.
Proof.
  rewrite lookup_app_r by (rewrite length_replicate; lia).
  by rewrite length_replicate, Nat.sub_diag.
Qed.

(** The first loop of [close]: one sentinel per writer goes behind the
    queued jobs, as long as the queue has room for them. *)
Lemma close_puts_writer_sentinels (threads : list worker) (st : DataBackend) :
  maxsize (_write_queue st) ≤ 0
  ∨ Z.of_nat (length (items (_write_queue st)) + length threads) ≤ maxsize (_write_queue st) →
  ∃ st',
    for_each (λ _ : worker, write_queue_put put_fault None) threads st = Some st'
    ∧ items (_write_queue st') = items (_write_queue st) ++ replicate (length threads) None
    ∧ fatal_error st' = fatal_error st ∧ bucket st' = bucket st
    ∧ _writer_threads st' = _writer_threads st
    ∧ _read_queue st' = _read_queue st ∧ _reader_threads st' = _reader_threads st.
Proof.
  revert st. induction threads as [|w threads IH]; intros st Hroom.
  - exists st. simpl. by rewrite app_nil_r.
  - assert (Hput : write_queue_put put_fault None st
                   = Some (set_write_queue (enqueue None (_write_queue st)) st)).
    { unfold write_queue_put. replace (has_room (_write_queue st)) with true; [done|].
      symmetry. unfold has_room. rewrite orb_true_iff, Z.leb_le, Z.ltb_lt.
      simpl in Hroom. lia. }
    rewrite (for_each_cons (λ _ : worker, write_queue_put put_fault None) w threads st _ Hput).
    destruct (IH (set_write_queue (enqueue None (_write_queue st)) st))
      as (st' & -> & Hitems & Hrest).
    { destruct st; simpl in *. rewrite length_app. simpl. lia. }
    exists st'. split; [done|]. destruct st; simpl in *.
    split; [|done]. rewrite Hitems, <- app_assoc. done.
Qed.

(** Joining a running writer: it stores the jobs in front of the first
    sentinel, takes the sentinel and ends. *)
Lemma join_writer_to_sentinel (jobs : list (string * bytes))
    (rest : list (option (string * bytes))) (i fuel : nat) (st : DataBackend) :
  fatal_error st = None →
  _writer_threads st !! i = Some Running →
  items (_write_queue st) = (Some <$> jobs) ++ None :: rest →
  (length jobs < fuel)%nat →
  ∃ st',
    join_writer put_fault fuel i st = Some st'
    ∧ _writer_threads st' = <[i := Finished]> (_writer_threads st)
    ∧ items (_write_queue st') = rest
    ∧ bucket st' = stored (bucket st) jobs
    ∧ fatal_error st' = None
    ∧ _read_queue st' = _read_queue st ∧ _reader_threads st' = _reader_threads st.
Proof.
  revert fuel st. induction jobs as [|[key data] jobs IH]; intros fuel st Hf Hrun Hq Hfuel;
    (destruct fuel as [|fuel]; [simpl in Hfuel; lia|]);
    simpl; rewrite Hrun; unfold _writer_iter; rewrite Hrun, Hq;
    destruct st as [f wq rq rdq b wt rt u]; simpl in *; subst f.
  - eexists. split.
    + destruct fuel; simpl; by rewrite list_lookup_insert_eq by by eapply lookup_lt_Some.
    + by simpl.
  - rewrite no_put_fault. simpl.
    edestruct (IH fuel (mkDataBackend None (task_done (dequeued ((Some <$> jobs) ++ None :: rest) wq))
                          rq rdq (<[key := data]> b) wt rt u))
      as (st' & Hjoin & Hrest); simpl; try done; [lia|].
    exists st'. split; [exact Hjoin | exact Hrest].
Qed.

(** The second loop of [close]: the writers are joined in order; the first
    one still running works off the queued jobs. *)
Lemma close_joins_writers (d k : nat) (jobs : list (string * bytes)) (st : DataBackend) :
  fatal_error st = None →
  _writer_threads st = replicate k Finished ++ replicate d Running →
  items (_write_queue st) = (Some <$> jobs) ++ replicate d None →
  (d = 0%nat → jobs = []) →
  ∃ st',
    for_each (λ i st, join_writer put_fault (S (length (items (_write_queue st)))) i st)
      (seq k d) st = Some st'
    ∧ _writer_threads st' = replicate (k + d) Finished
    ∧ items (_write_queue st') = []
    ∧ bucket st' = stored (bucket st) jobs
    ∧ fatal_error st' = None
    ∧ _read_queue st' = _read_queue st ∧ _reader_threads st' = _reader_threads st.
Proof.
  revert k jobs st. induction d as [|d IH]; intros k jobs st Hf Hthreads Hq Hjobs.
  - rewrite (Hjobs eq_refl) in *. exists st. simpl in *.
    rewrite app_nil_r in Hthreads. by rewrite Nat.add_0_r.
  - destruct (join_writer_to_sentinel jobs (replicate d None) k
                (S (length (items (_write_queue st)))) st)
      as (st1 & Hjoin & Hthreads1 & Hq1 & Hb1 & Hf1 & Hrq1 & Hrt1); try done.
    { rewrite Hthreads. apply replicate_running_lookup. }
    { rewrite Hq, length_app, length_fmap. lia. }
    simpl seq.
    rewrite (for_each_cons
               (λ i st, join_writer put_fault (S (length (items (_write_queue st)))) i st)
               k (seq (S k) d) st _ Hjoin).
    destruct (IH (S k) [] st1) as (st' & Hrun & Hthreads' & Hq' & Hb' & Hf' & Hrq' & Hrt');
      try done.
    { rewrite Hthreads1, Hthreads. apply replicate_finished_insert. }
    exists st'. split; [done|]. split; [by rewrite Hthreads', Nat.add_succ_r|].
    split; [done|]. split; [by rewrite Hb', Hb1|]. split; [done|].
    split; [by rewrite Hrq' | by rewrite Hrt'].
Qed.
(** The third loop of [close]: one sentinel per reader. *)
Lemma close_puts_reader_sentinels (threads : list worker) (st : DataBackend) :
  maxsize (_read_queue st) ≤ 0
  ∨ Z.of_nat (length (items (_read_queue st)) + length threads) ≤ maxsize (_read_queue st) →
  ∃ st',
    for_each (λ _ : worker, read_queue_put None) threads st = Some st'
    ∧ items (_read_queue st') = items (_read_queue st) ++ replicate (length threads) None
    ∧ fatal_error st' = fatal_error st ∧ bucket st' = bucket st
    ∧ _writer_threads st' = _writer_threads st
    ∧ _write_queue st' = _write_queue st ∧ _reader_threads st' = _reader_threads st.
Proof.
  revert st. induction threads as [|w threads IH]; intros st Hroom.
  - exists st. simpl. by rewrite app_nil_r.
  - assert (Hput : read_queue_put None st
                   = Some (set_read_queue (enqueue None (_read_queue st)) st)).
    { unfold read_queue_put. replace (has_room (_read_queue st)) with true; [done|].
      symmetry. unfold has_room. rewrite orb_true_iff, Z.leb_le, Z.ltb_lt.
      simpl in Hroom. lia. }
    rewrite (for_each_cons (λ _ : worker, read_queue_put None) w threads st _ Hput).
    destruct (IH (set_read_queue (enqueue None (_read_queue st)) st))
      as (st' & -> & Hitems & Hrest).
    { destruct st; simpl in *. rewrite length_app. simpl. lia. }
    exists st'. split; [done|]. destruct st; simpl in *.
    split; [|done]. rewrite Hitems, <- app_assoc. done.
Qed.

(** Joining a running reader that finds a sentinel first: it ends. *)
Lemma join_reader_at_sentinel (rest : list (option Block)) (i fuel : nat)
    (st : DataBackend) :
  _reader_threads st !! i = Some Running →
  items (_read_queue st) = None :: rest →
  ∃ st',
    join_reader get_answers (S fuel) i st = Some st'
    ∧ _reader_threads st' = <[i := Finished]> (_reader_threads st)
    ∧ items (_read_queue st') = rest
    ∧ fatal_error st' = fatal_error st ∧ bucket st' = bucket st
    ∧ _writer_threads st' = _writer_threads st
    ∧ _write_queue st' = _write_queue st.
Proof.
  intros Hrun Hq. simpl. rewrite Hrun. unfold _reader_iter. rewrite Hrun, Hq.
  destruct st as [f wq rq rdq b wt rt u]; simpl in *.
  eexists. split.
  - destruct fuel; simpl; by rewrite list_lookup_insert_eq by by eapply lookup_lt_Some.
  - by simpl.
Qed.

(** The fourth loop of [close]: every reader finds its sentinel. *)
Lemma close_joins_readers (d k : nat) (st : DataBackend) :
  _reader_threads st = replicate k Finished ++ replicate d Running →
  items (_read_queue st) = replicate d None →
  ∃ st',
    for_each (λ i st, join_reader get_answers (S (length (items (_read_queue st)))) i st)
      (seq k d) st = Some st'
    ∧ _reader_threads st' = replicate (k + d) Finished
    ∧ items (_read_queue st') = []
    ∧ fatal_error st' = fatal_error st ∧ bucket st' = bucket st
    ∧ _writer_threads st' = _writer_threads st
    ∧ _write_queue st' = _write_queue st.
Proof.
  revert k st. induction d as [|d IH]; intros k st Hthreads Hq.
  - exists st. simpl in *. rewrite app_nil_r in Hthreads. by rewrite Nat.add_0_r.
  - destruct (join_reader_at_sentinel (replicate d None) k
                (length (items (_read_queue st))) st)
      as (st1 & Hjoin & Hthreads1 & Hq1 & Hf1 & Hb1 & Hwt1 & Hwq1); try done.
    { rewrite Hthreads. apply replicate_running_lookup. }
    simpl seq.
    rewrite (for_each_cons
               (λ i st, join_reader get_answers (S (length (items (_read_queue st)))) i st)
               k (seq (S k) d) st _ Hjoin).
    destruct (IH (S k) st1) as (st' & Hrun & Hthreads' & Hq' & Hf' & Hb' & Hwt' & Hwq');
      try done.
    { rewrite Hthreads1, Hthreads. apply replicate_finished_insert. }
    exists st'. split; [done|]. split; [by rewrite Hthreads', Nat.add_succ_r|].
    split; [done|]. split; [by rewrite Hf'|]. split; [by rewrite Hb'|].
    split; [by rewrite Hwt' | by rewrite Hwq'].
Qed.

(** [close] on a healthy engine whose reads have all been taken:
    when the write queue has room for one sentinel per writer and the
    provider accepts every object, [close] returns; every writer and every
    reader has finished, the jobs that were still queued are stored in
    queue order, and both request queues are empty. *)
Theorem close_drains_and_ends_every_thread (n m : nat)
    (jobs : list (string * bytes)) (st : DataBackend) :
  fatal_error st = None →
  _writer_threads st = replicate n Running →
  _reader_threads st = replicate m Running →
  (n = 0%nat → jobs = []) →
  items (_write_queue st) = Some <$> jobs →
  maxsize (_write_queue st) ≤ 0
  ∨ Z.of_nat (length jobs + n) ≤ maxsize (_write_queue st) →
  items (_read_queue st) = [] →
  maxsize (_read_queue st) ≤ 0 ∨ Z.of_nat m ≤ maxsize (_read_queue st) →
  ∃ st',
    close put_fault get_answers st = Returned () st'
    ∧ _writer_threads st' = replicate n Finished
    ∧ _reader_threads st' = replicate m Finished
    ∧ bucket st' = stored (bucket st) jobs
    ∧ items (_write_queue st') = []
    ∧ items (_read_queue st') = [].
Proof.
  intros Hf Hwt Hrt Hn Hwq Hwroom Hrq Hrroom.
  destruct (close_puts_writer_sentinels (_writer_threads st) st)
    as (st1 & Hrun1 & Hq1 & Hf1 & Hb1 & Hwt1 & Hrq1 & Hrt1).
  { rewrite Hwq, Hwt, length_fmap, length_replicate. exact Hwroom. }
  destruct (close_joins_writers n 0 jobs st1)
    as (st2 & Hrun2 & Hwt2 & Hq2 & Hb2 & Hf2 & Hrq2 & Hrt2).
  { by rewrite Hf1. }
  { by rewrite Hwt1, Hwt. }
  { by rewrite Hq1, Hwq, Hwt, length_replicate. }
  { exact Hn. }
  destruct (close_puts_reader_sentinels (_reader_threads st2) st2)
    as (st3 & Hrun3 & Hq3 & Hf3 & Hb3 & Hwt3 & Hwq3 & Hrt3).
  { rewrite Hrq2, Hrq1, Hrt2, Hrt1, Hrq, Hrt, length_replicate. simpl. exact Hrroom. }
  destruct (close_joins_readers m 0 st3)
    as (st4 & Hrun4 & Hrt4 & Hq4 & Hf4 & Hb4 & Hwt4 & Hwq4).
  { by rewrite Hrt3, Hrt2, Hrt1, Hrt. }
  { by rewrite Hq3, Hrq2, Hrq1, Hrq, Hrt2, Hrt1, Hrt, length_replicate. }
  exists st4. split.
  - unfold close. rewrite Hrun1. cbn [mbind option_bind].
    rewrite Hwt1, Hwt, length_replicate, Hrun2. cbn [mbind option_bind].
    rewrite Hrun3. cbn [mbind option_bind].
    by rewrite Hrt3, Hrt2, Hrt1, Hrt, length_replicate, Hrun4.
  - split; [by rewrite Hwt4, Hwt3, Hwt2|]. split; [done|].
    split; [by rewrite Hb4, Hb3, Hb2, Hb1|].
    split; [by rewrite Hwq4, Hwq3 | done].
Qed.
End Shutdown.

(** Two writers, one reader and one object still queued. *)
Lemma close_drains_and_ends_every_thread_witness :
  ∃ st',
    S3.close (λ _ _, None) (λ _, [])
      (S3.set_write_queue
         (enqueue (Some ("a"%string, [Byte.x01])) (S3._write_queue (fresh_backend 2 1)))
         (fresh_backend 2 1)) = S3.Returned () st'
    ∧ S3._writer_threads st' = replicate 2 S3.Finished
    ∧ S3._reader_threads st' = replicate 1 S3.Finished
    ∧ S3.bucket st' = {[ "a"%string := [Byte.x01] ]}
    ∧ items (S3._write_queue st') = []
    ∧ items (S3._read_queue st') = [].
Proof.
  assert (Hn : 2%nat = 0%nat → [("a"%string, [Byte.x01])] = []) by (intros H; discriminate H).
  assert (Hwroom : Z.of_nat 2 + S3.WRITE_QUEUE_LENGTH ≤ 0
                   ∨ Z.of_nat (1 + 2) ≤ Z.of_nat 2 + S3.WRITE_QUEUE_LENGTH)
    by (right; vm_compute; discriminate).
  assert (Hrroom : 0 ≤ 0 ∨ Z.of_nat 1 ≤ 0) by (left; lia).
  destruct (close_drains_and_ends_every_thread (λ _ _, None) (λ _, [])
              (λ _ _, eq_refl) 2 1 [("a"%string, [Byte.x01])]
              (S3.set_write_queue
                 (enqueue (Some ("a"%string, [Byte.x01]))
                    (S3._write_queue (fresh_backend 2 1)))
                 (fresh_backend 2 1))
              eq_refl eq_refl eq_refl Hn eq_refl Hwroom eq_refl Hrroom)
    as (st' & Hclose & Hwt & Hrt & Hb & Hwq & Hrq).
  exists st'. repeat split; assumption.
Defined.

(** * Results on the read-data queue *)

Section ReadGetSpec.
Import S3.
Variable md5 : bytes → bytes.
Variable uuid4 : nat → Z.
Variable put_fault : string → bytes → option exn.
Variable get_answers : string → list get_answer.
Variable head_fault : string → option string.

Local Abbreviation engine_step :=
  (S3.engine_step md5 uuid4 put_fault get_answers head_fault).

Lemma writer_iter_carries (i : nat) (st st' : DataBackend) :
  _writer_iter put_fault i st = Some st' →
  results_carry_data st → results_carry_data st'.
Proof.
  unfold _writer_iter, results_carry_data.
  destruct (_writer_threads st !! i) as [[| |]|]; try done.
  destruct (items (_write_queue st)) as [|entry rest]; [done|].
  destruct st as [f wq rq rdq b wt rt u]; simpl.
  destruct entry as [[key data]|], f; simpl; try by intros [= <-].
  destruct (put_fault key data); by intros [= <-].
Qed.

Lemma writers_iter_carries (st st' : DataBackend) :
  writers_iter put_fault st = Some st' →
  results_carry_data st → results_carry_data st'.
Proof.
  unfold writers_iter. destruct (list_find _ _) as [[i w]|]; [|done].
  apply writer_iter_carries.
Qed.

Lemma set_write_queue_carries q (st : DataBackend) :
  results_carry_data st → results_carry_data (set_write_queue q st).
Proof. by destruct st. Qed.

Lemma write_queue_put_carries x (st st' : DataBackend) :
  write_queue_put put_fault x st = Some st' →
  results_carry_data st → results_carry_data st'.
Proof.
  unfold write_queue_put. destruct (has_room (_write_queue st)).
  - intros [= <-]. apply set_write_queue_carries.
  - destruct (writers_iter put_fault st) as [st1|] eqn:Hiter; [|done].
    destruct (has_room (_write_queue st1)); [|done].
    intros [= <-] Hst. apply set_write_queue_carries. by eapply writers_iter_carries.
Qed.

Lemma write_queue_join_carries (fuel : nat) (st st' : DataBackend) :
  write_queue_join put_fault fuel st = Some st' →
  results_carry_data st → results_carry_data st'.
Proof.
  revert st. induction fuel as [|fuel IH]; intros st; simpl;
    (destruct (unfinished_tasks (_write_queue st)); [by intros [= <-]|]); [done|].
  destruct (writers_iter put_fault st) as [st1|] eqn:Hiter; [|done].
  intros Hjoin Hst. apply (IH _ Hjoin). by eapply writers_iter_carries.
Qed.

Lemma save_carries (data : bytes) (_sync : bool) (st : DataBackend) :
  results_carry_data st →
  results_carry_data (outcome_state (save md5 uuid4 put_fault data _sync st)).
Proof.
  intros Hst. unfold save. destruct (fatal_error st); [done|].
  assert (Hst1 : results_carry_data (_uid md5 uuid4 st).2) by (by destruct st).
  destruct (_uid md5 uuid4 st) as [uid st1]. simpl in Hst1.
  destruct (write_queue_put put_fault (Some (uid, data)) st1) as [st2|] eqn:Hput; [|done].
  pose proof (write_queue_put_carries _ _ _ Hput Hst1) as Hst2.
  destruct _sync; [|done].
  destruct (write_queue_join _ _ _) as [st3|] eqn:Hjoin; [|done].
  by eapply write_queue_join_carries.
Qed.

Lemma rm_carries (uid : string) (st : DataBackend) :
  results_carry_data st → results_carry_data (outcome_state (rm head_fault uid st)).
Proof.
  intros Hst. unfold rm. destruct (obj_load head_fault uid st) as [[]|]; try done.
  - destruct (is_missing_key _); [|done]. by destruct (load_name _ _).
  - by destruct st.
Qed.

Lemma rm_many_carries (uids : list string) (st : DataBackend) :
  results_carry_data st →
  results_carry_data (outcome_state (rm_many head_fault uids st)).
Proof.
  revert st. induction uids as [|uid uids IH]; intros st Hst; simpl; [done|].
  pose proof (rm_carries uid st Hst) as Hrm.
  destruct (rm head_fault uid st); simpl in Hrm; [by apply IH | done | done].
Qed.

(** A reader thread only ever adds results that carry data. *)
Lemma reader_iter_carries (i : nat) (st st' : DataBackend) :
  _reader_iter get_answers i st = Some st' →
  results_carry_data st → results_carry_data st'.
Proof.
  intros Hiter Hst. unfold results_carry_data in *.
  destruct (reader_iter_enqueues_data _ _ _ _ Hiter) as [->|(block & data & ->)]; [done|].
  apply Forall_app. split; [done|]. repeat constructor. by eexists.
Qed.

Lemma read_get_carries (st : DataBackend) :
  results_carry_data st → results_carry_data (outcome_state (read_get st)).
Proof.
  unfold read_get, results_carry_data.
  destruct (items (_read_data_queue st)) as [|[block data] rest] eqn:Hq;
    [simpl; by rewrite Hq|].
  intros Hst. apply Forall_cons in Hst as [_ Hrest].
  destruct st as [f wq rq rdq b wt rt u]; simpl in *.
  by destruct data.
Qed.

Lemma read_carries (block : Block) (sync : bool) (st : DataBackend) :
  results_carry_data st →
  results_carry_data (outcome_state (read get_answers block sync st)).
Proof.
  intros Hst. unfold read. destruct (has_room (_read_queue st)); [|done].
  set (st1 := set_read_queue _ st).
  assert (Hst1 : results_carry_data st1) by (by destruct st).
  destruct sync; [|done].
  assert (Hwait : results_carry_data (outcome_state (read_get_waiting get_answers st1))).
  { unfold read_get_waiting.
    destruct (items (_read_data_queue st1)); [|by apply read_get_carries].
    unfold readers_iter. destruct (list_find _ _) as [[i w]|]; [|done].
    destruct (_reader_iter get_answers i st1) as [st2|] eqn:Hiter; [|done].
    apply read_get_carries. by eapply reader_iter_carries. }
  destruct (read_get_waiting get_answers st1) as [[[[rblock offset] length] data] s|e s|s];
    simpl in *; [|done|done].
  destruct (negb _); [done|]. by destruct data.
Qed.

Lemma for_each_carries {A} (body : A → DataBackend → option DataBackend) (l : list A) :
  (∀ x st st', body x st = Some st' → results_carry_data st → results_carry_data st') →
  ∀ st st', for_each body l st = Some st' →
            results_carry_data st → results_carry_data st'.
Proof.
  intros Hbody. induction l as [|x l IH]; intros st st'; [by intros [= <-]|].
  unfold for_each. simpl. destruct (body x st) as [st1|] eqn:Hx.
  - intros Hrest Hst. apply (IH st1 st' Hrest). by eapply Hbody.
  - assert (Hnone : foldl (λ acc x, acc ≫= body x) None l = None)
      by (clear; induction l; done).
    by rewrite Hnone.
Qed.

Lemma join_writer_carries (fuel i : nat) (st st' : DataBackend) :
  join_writer put_fault fuel i st = Some st' →
  results_carry_data st → results_carry_data st'.
Proof.
  revert st. induction fuel as [|fuel IH]; intros st; simpl;
    destruct (_writer_threads st !! i) as [[| |]|]; try (by intros [= <-]); try done.
  destruct (_writer_iter put_fault i st) as [st1|] eqn:Hiter; [|done].
  intros Hjoin Hst. apply (IH _ Hjoin). by eapply writer_iter_carries.
Qed.

Lemma join_reader_carries (fuel i : nat) (st st' : DataBackend) :
  join_reader get_answers fuel i st = Some st' →
  results_carry_data st → results_carry_data st'.
Proof.
  revert st. induction fuel as [|fuel IH]; intros st; simpl;
    destruct (_reader_threads st !! i) as [[| |]|]; try (by intros [= <-]); try done.
  destruct (_reader_iter get_answers i st) as [st1|] eqn:Hiter; [|done].
  intros Hjoin Hst. apply (IH _ Hjoin). by eapply reader_iter_carries.
Qed.

Lemma close_carries (st : DataBackend) :
  results_carry_data st →
  results_carry_data (outcome_state (close put_fault get_answers st)).
Proof.
  intros Hst. unfold close.
  destruct (for_each (λ _ : worker, write_queue_put put_fault None) _ st)
    as [st1|] eqn:H1; [|done]. cbn [mbind option_bind].
  assert (Hst1 : results_carry_data st1).
  { eapply for_each_carries; [|exact H1|exact Hst].
    intros w s s'. apply write_queue_put_carries. }
  destruct (for_each _ (seq 0 (length (_writer_threads st1))) st1)
    as [st2|] eqn:H2; [|done]. cbn [mbind option_bind].
  assert (Hst2 : results_carry_data st2).
  { eapply for_each_carries; [|exact H2|exact Hst1].
    intros i s s'. apply join_writer_carries. }
  destruct (for_each (λ _ : worker, read_queue_put None) _ st2)
    as [st3|] eqn:H3; [|done]. cbn [mbind option_bind].
  assert (Hst3 : results_carry_data st3).
  { eapply for_each_carries; [|exact H3|exact Hst2].
    intros w s s'. unfold read_queue_put.
    destruct (has_room (_read_queue s)); [|done]. intros [= <-]. by destruct s. }
  destruct (for_each _ (seq 0 (length (_reader_threads st3))) st3)
    as [st4|] eqn:H4; [|done].
  eapply for_each_carries; [|exact H4|exact Hst3].
  intros i s s'. apply join_reader_carries.
Qed.

Lemma engine_step_carries (st st' : DataBackend) :
  engine_step st st' → results_carry_data st → results_carry_data st'.
Proof.
  intros Hstep. destruct Hstep.
  - by apply writer_iter_carries with (i := i).
  - by apply reader_iter_carries with (i := i).
  - apply save_carries.
  - apply read_carries.
  - apply read_get_carries.
  - apply rm_carries.
  - apply rm_many_carries.
  - apply close_carries.
Qed.

End ReadGetSpec.

